(** * Foundry data-processing pipeline: PII detector, record transformer,
      job queue and job submission

    A shallow embedding of
    - [src/server/lib/pii.ts] (module [Pii]),
    - [src/server/services/processing-queue.service.ts] (module [Queue]),
    - the jobs controller's [create] handler (module [JobsController]) and
      its [cancel] handler (module [JobsHandlers]),
    - [lib/validation], [src/server/lib/response.ts],
      [src/server/errors/index.ts] and [generateS3Key] of
      [src/server/services/s3-storage.service.ts] (modules [Validation],
      [Responses], [Errors], [S3Storage]),
    followed by the properties of the pipeline specification, each settled
    against these definitions, and by further properties of the same code.

    Conventions.  A JavaScript string is a [string]; offsets into a string
    are [nat] (they are produced by [match.index] and [indexOf] and are never
    negative).  A JavaScript number that is a count or an identifier is a
    [nat]; a number that is a datum of a record is a [JsNum].  Services of
    the host that the repository only calls (the regular-expression engine,
    the [compromise] NLP library, [JSON], [csv-parse], [Number()]) are
    fields of the class [Host]. *)

From Stdlib Require Import Bool Arith ZArith QArith Qminmax Lia List String Ascii
  Permutation Sorted Relations RelationClasses Morphisms DecimalString DecimalNat Lqa.
Import ListNotations.
Local Open Scope string_scope.
Local Open Scope list_scope.
Local Open Scope nat_scope.

(** String concatenation, JavaScript's [+] on strings. *)
Infix "+++" := String.append (at level 60, right associativity).

Set Implicit Arguments.

(* ===================================================================== *)
(** * JavaScript strings and arrays *)
(* ===================================================================== *)

Module Js.

(** [s.slice(b, e)] for offsets [0 <= b], [0 <= e]. *)
Definition slice (s : string) (b e : nat) : string := substring b (e - b) s.

(** [s.slice(b)]. *)
Definition sliceFrom (s : string) (b : nat) : string :=
  substring b (String.length s - b) s.

(** [s.repeat(n)]. *)
Fixpoint repeat (s : string) (n : nat) : string :=
  match n with
  | O => ""
  | S n' => s +++ repeat s n'
  end.

(** [s.indexOf(needle)]; [None] is JavaScript's [-1]. *)
Definition indexOf (s needle : string) : option nat := String.index 0 needle s.

(** [s.includes(needle)]. *)
Definition includes (s needle : string) : bool :=
  match indexOf s needle with Some _ => true | None => false end.

Definition upper_ascii (c : ascii) : ascii :=
  let n := nat_of_ascii c in
  if (97 <=? n) && (n <=? 122) then ascii_of_nat (n - 32) else c.

(** [s.toUpperCase()] on the ASCII range. *)
Fixpoint toUpperCase (s : string) : string :=
  match s with
  | EmptyString => EmptyString
  | String c s' => String (upper_ascii c) (toUpperCase s')
  end.

Definition newline : ascii := ascii_of_nat 10.

Definition is_blank (c : ascii) : bool :=
  let n := nat_of_ascii c in
  (n =? 32) || ((9 <=? n) && (n <=? 13)).

(** [!!s.trim()]: the string has a character that is not white space. *)
Fixpoint trim_truthy (s : string) : bool :=
  match s with
  | EmptyString => false
  | String c s' => if is_blank c then trim_truthy s' else true
  end.

(** [s.split('\n')]: the pieces between line feeds; never the empty list. *)
Fixpoint split_lines (s : string) : list string :=
  match s with
  | EmptyString => [EmptyString]
  | String c s' =>
      if Ascii.eqb c newline then EmptyString :: split_lines s'
      else match split_lines s' with
           | [] => [String c EmptyString]
           | l :: ls => String c l :: ls
           end
  end.

(** [a.join('\n')]. *)
Definition join_lines (ls : list string) : string :=
  String.concat (String newline EmptyString) ls.

(** Stable insertion sort by a boolean order: [x] goes before the first
    [y] with [leb x y]. *)
Fixpoint insert_by (A : Type) (leb : A -> A -> bool) (x : A) (l : list A) : list A :=
  match l with
  | [] => [x]
  | y :: l' => if leb x y then x :: y :: l' else y :: insert_by leb x l'
  end.

Definition stable_sort (A : Type) (leb : A -> A -> bool) (l : list A) : list A :=
  fold_right (insert_by leb) [] l.

(** [[...l].sort(cmp)].  By the comparator protocol of
    [Array.prototype.sort], [cmp a b <= 0] keeps [a] before [b]; the sort is
    stable (ECMAScript 2019), so with a consistent comparator its result is
    the one a stable insertion sort gives. *)
Definition sort (A : Type) (cmp : A -> A -> Q) (l : list A) : list A :=
  stable_sort (fun x y => Qle_bool (cmp x y) 0) l.

(** The difference of two offsets, as a comparator returns it. *)
Definition diff (a b : nat) : Q := inject_Z (Z.of_nat a - Z.of_nat b).

End Js.

(* ===================================================================== *)
(** * The host *)
(* ===================================================================== *)

(** A [RegExp] object: its source text and flags. *)
Record RegExp : Type := mkRegExp { source : string; flags : string }.

(** A JavaScript number held in a record or a filter condition.  Finite
    values are rationals (every finite double is one, and comparison of
    doubles is comparison of their values); [NaN] compares false with
    everything. *)
Inductive JsNum : Type :=
| NaN : JsNum
| Num : Q -> JsNum.

(** A value of a record, [unknown] in the source: what [JSON.parse] and
    [csv-parse] can produce, and [undefined] for a key that is absent. *)
Unset Elimination Schemes.
Inductive JsValue : Type :=
| VUndefined : JsValue
| VNull : JsValue
| VBool : bool -> JsValue
| VNumber : JsNum -> JsValue
| VString : string -> JsValue
| VArray : list JsValue -> JsValue
| VObject : list (string * JsValue) -> JsValue.
Set Elimination Schemes.

(** A record, [Record<string, unknown>]: its own keys in insertion order,
    each key once. *)
Definition JsObject : Type := list (string * JsValue).

(** The result of a call that may throw an [Error] with a message. *)
Inductive Outcome (A : Type) : Type :=
| Ok : A -> Outcome A
| Throw : string -> Outcome A.
Arguments Ok {A} _.
Arguments Throw {A} _.

(** What the pipeline asks of its host.

    - [regexExecAll re text]: the matches [(match.index, match[0])] that the
      loop [while ((match = regex.exec(text)) !== null)] collects.  The loop
      ends only when every match it sees is non-empty (an empty match leaves
      [lastIndex] where it is and is found again), and [match[0]] is text of
      [text] at [match.index]; the two laws say so.
    - [nlpPeople], [nlpPlaces]: [nlp(text).people()] and [.places()] of the
      [compromise] library, as the texts of the spans found.
    - [numberOfString], [stringOfNumber]: [Number(s)] and [String(n)].
    - [jsonParseRecords], [jsonParseRecord]: [JSON.parse] on a text that
      holds an array of objects, and on a text that holds one object;
      [jsonStringifyRecords] is [JSON.stringify(records, null, 2)] and
      [jsonStringifyRecord] is [JSON.stringify(r)].
    - [csvParse], [csvStringify]: [csv-parse] with [{columns: true,
      skip_empty_lines: true}] and [csv-stringify] with [{header: true}].
    - [roundPercent p total]: [Math.round((p / total) * 100)] in double
      arithmetic.  Division by a positive number, multiplication by 100 and
      [Math.round] are monotone, and [total / total] is 1: the two laws.
    - [toISOString]: [Date.prototype.toISOString] of a clock reading. *)
Class Host : Type := mkHost {
  regexExecAll : RegExp -> string -> list (nat * string);
  nlpPeople : string -> list string;
  nlpPlaces : string -> list string;
  numberOfString : string -> JsNum;
  stringOfNumber : JsNum -> string;
  jsonParseRecords : string -> Outcome (list JsObject);
  jsonParseRecord : string -> Outcome JsObject;
  jsonStringifyRecords : list JsObject -> string;
  jsonStringifyRecord : JsObject -> string;
  csvParse : string -> Outcome (list JsObject);
  csvStringify : list JsObject -> string;
  roundPercent : nat -> nat -> nat;
  toISOString : nat -> string;
  regexExecAll_nonempty :
    forall re text i v, In (i, v) (regexExecAll re text) -> 0 < String.length v;
  regexExecAll_within :
    forall re text i v, In (i, v) (regexExecAll re text) ->
      i + String.length v <= String.length text;
  roundPercent_mono :
    forall p q total, 0 < total -> p <= q -> roundPercent p total <= roundPercent q total;
  roundPercent_all :
    forall total, 0 < total -> roundPercent total total = 100
}.

(* ===================================================================== *)
(** * src/server/lib/pii.ts *)
(* ===================================================================== *)

Module Pii.

Inductive PIIType : Type :=
| email | phone | ssn | credit_card | ip_address
| person_name | address | date_of_birth | url | custom.

(** The string a [PIIType] is at run time. *)
Definition type_name (t : PIIType) : string :=
  match t with
  | email => "email"
  | phone => "phone"
  | ssn => "ssn"
  | credit_card => "credit_card"
  | ip_address => "ip_address"
  | person_name => "person_name"
  | address => "address"
  | date_of_birth => "date_of_birth"
  | url => "url"
  | custom => "custom"
  end.

Record PIIMatch : Type := mkMatch {
  type : PIIType;
  value : string;
  start : nat;
  end_ : nat;
  confidence : Q
}.

Record PIIDetectionResult : Type := mkResult {
  hasPII : bool;
  matches : list PIIMatch;
  redactedText : string
}.

Record Pattern : Type := mkPattern {
  regex : RegExp;
  pattern_type : PIIType;
  pattern_confidence : Q
}.

(** The table [patterns], in the order of its keys: email, phone, ssn,
    creditCard, ipAddress, url, dateOfBirth. *)
Definition patterns : list Pattern :=
  [ mkPattern
      (mkRegExp "\b[A-Za-z0-9._%+-]+@[A-Za-z0-9.-]+\.[A-Z|a-z]{2,}\b" "g")
      email (95 # 100);
    mkPattern
      (mkRegExp "\b(?:\+?1[-.\s]?)?(?:\(?\d{3}\)?[-.\s]?)?\d{3}[-.\s]?\d{4}\b" "g")
      phone (85 # 100);
    mkPattern
      (mkRegExp "\b\d{3}[-\s]?\d{2}[-\s]?\d{4}\b" "g")
      ssn (90 # 100);
    mkPattern
      (mkRegExp "\b(?:\d{4}[-\s]?){3}\d{4}\b" "g")
      credit_card (90 # 100);
    mkPattern
      (mkRegExp "\b(?:\d{1,3}\.){3}\d{1,3}\b" "g")
      ip_address (95 # 100);
    mkPattern
      (mkRegExp "https?:\/\/(?:www\.)?[-a-zA-Z0-9@:%._+~#=]{1,256}\.[a-zA-Z0-9()]{1,6}\b(?:[-a-zA-Z0-9()@:%_+.~#?&//=]*)" "g")
      url (95 # 100);
    mkPattern
      (mkRegExp "\b(?:0?[1-9]|1[0-2])[-/](?:0?[1-9]|[12]\d|3[01])[-/](?:19|20)\d{2}\b" "g")
      date_of_birth (70 # 100) ].

(** The body of the [while] loop over [regex.exec]: one [PIIMatch] per
    match, of the given type and confidence. *)
Definition matches_of_exec (t : PIIType) (c : Q) (found : list (nat * string))
  : list PIIMatch :=
  map (fun iv => mkMatch t (snd iv) (fst iv) (fst iv + String.length (snd iv)) c) found.

Section WithHost.
Context {host : Host}.

Definition detectPatternPII (text : string) : list PIIMatch :=
  flat_map
    (fun p => matches_of_exec (pattern_type p) (pattern_confidence p)
                              (regexExecAll (mkRegExp (source (regex p)) (flags (regex p))) text))
    patterns.

(** The [forEach] of [detectPersonNames] and [detectAddresses]: a span text
    of at least [minLen] characters that [indexOf] finds becomes a match. *)
Definition matches_of_spans (t : PIIType) (c : Q) (minLen : nat) (text : string)
    (spans : list string) : list PIIMatch :=
  flat_map
    (fun name =>
       if minLen <=? String.length name then
         match Js.indexOf text name with
         | Some index => [mkMatch t name index (index + String.length name) c]
         | None => []
         end
       else [])
    spans.

Definition detectPersonNames (text : string) : list PIIMatch :=
  matches_of_spans person_name (75 # 100) 2 text (nlpPeople text).

Definition detectAddresses (text : string) : list PIIMatch :=
  matches_of_spans address (65 # 100) 3 text (nlpPlaces text).

(** The comparator of [deduplicateMatches]. *)
Definition compareMatches (a b : PIIMatch) : Q :=
  if negb (start a =? start b) then Js.diff (start a) (start b)
  else confidence b - confidence a.

(** The predicate given to [result.some]. *)
Definition overlapsWith (m existing : PIIMatch) : bool :=
  ((start existing <=? start m) && (start m <? end_ existing))
  || ((start existing <? end_ m) && (end_ m <=? end_ existing))
  || ((start m <=? start existing) && (end_ existing <=? end_ m)).

Definition deduplicateMatches (ms : list PIIMatch) : list PIIMatch :=
  let sorted := Js.sort compareMatches ms in
  fold_left
    (fun result m => if existsb (overlapsWith m) result then result else result ++ [m])
    sorted [].

Record CustomPattern : Type := mkCustom {
  custom_name : string;
  custom_regex : RegExp;
  custom_type : PIIType
}.

(** The options of [detectPII]; [None] is a property left out. *)
Record DetectOptions : Type := mkDetectOptions {
  detectNames : option bool;
  detectAddresses_opt : option bool;
  customPatterns : option (list CustomPattern)
}.

Definition noDetectOptions : DetectOptions := mkDetectOptions None None None.

Definition or_default (A : Type) (o : option A) (d : A) : A :=
  match o with Some a => a | None => d end.

(** [allMatches] of [detectPII] as it stands before de-duplication. *)
Definition allMatches (text : string) (options : DetectOptions) : list PIIMatch :=
  detectPatternPII text
  ++ (if or_default (detectNames options) true then detectPersonNames text else [])
  ++ (if or_default (detectAddresses_opt options) true then detectAddresses text else [])
  ++ flat_map
       (fun p => matches_of_exec (custom_type p) (80 # 100)
                   (regexExecAll (mkRegExp (source (custom_regex p)) (flags (custom_regex p))) text))
       (or_default (customPatterns options) []).

(** [redactedText.slice(0, match.start) + replacement + redactedText.slice(match.end)]. *)
Definition splice (redactedText : string) (m : PIIMatch) (replacement : string) : string :=
  Js.slice redactedText 0 (start m) +++ replacement +++ Js.sliceFrom redactedText (end_ m).

(** [[...matches].sort((a, b) => b.start - a.start)]. *)
Definition reverseOrder (ms : list PIIMatch) : list PIIMatch :=
  Js.sort (fun a b => Js.diff (start b) (start a)) ms.

Definition bracketLabel (m : PIIMatch) : string :=
  "[" +++ Js.toUpperCase (type_name (type m)) +++ "]".

Definition detectPII (text : string) (options : DetectOptions) : PIIDetectionResult :=
  let matches := deduplicateMatches (allMatches text options) in
  let sortedMatches := reverseOrder matches in
  let redactedText :=
    fold_left (fun redactedText m => splice redactedText m (bracketLabel m))
              sortedMatches text in
  mkResult (0 <? List.length matches) matches redactedText.

(** The options of [redactPII].  [redactionLabels] is an object keyed by
    type: [None] when the option is left out, and a key it does not hold
    reads [None]. *)
Record RedactOptions : Type := mkRedactOptions {
  redactionChar : option string;
  preserveLength : option bool;
  redactionLabels : option (PIIType -> option string)
}.

Definition noRedactOptions : RedactOptions := mkRedactOptions None None None.

(** Truthiness of [redactionLabels && redactionLabels[match.type]]: the
    label, when the object is given, holds the key and the string is not
    empty. *)
Definition truthyLabel (labels : option (PIIType -> option string)) (t : PIIType)
  : option string :=
  match labels with
  | None => None
  | Some f =>
      match f t with
      | None => None
      | Some EmptyString => None
      | Some l => Some l
      end
  end.

(** The [replacement] computed for one match. *)
Definition replacementFor (options : RedactOptions) (m : PIIMatch) : string :=
  match truthyLabel (redactionLabels options) (type m) with
  | Some l => l
  | None =>
      if or_default (preserveLength options) false
      then Js.repeat (or_default (redactionChar options) "*") (String.length (value m))
      else bracketLabel m
  end.

Definition redactPII (text : string) (options : RedactOptions) : string :=
  let result := detectPII text noDetectOptions in
  if negb (hasPII result) then text
  else
    let sortedMatches := reverseOrder (matches result) in
    fold_left (fun redactedText m => splice redactedText m (replacementFor options m))
              sortedMatches text.

Definition containsPII (text : string) : bool := hasPII (detectPII text noDetectOptions).

(** [stats[match.type]++] on the object keyed by the types' names. *)
Definition countMatch (stats : PIIType -> nat) (m : PIIMatch) : PIIType -> nat :=
  fun t => if String.eqb (type_name t) (type_name (type m)) then S (stats t) else stats t.

(** [getPIIStats]: a [Record<PIIType, number>], read at a type. *)
Definition getPIIStats (text : string) : PIIType -> nat :=
  let result := detectPII text noDetectOptions in
  fold_left countMatch (matches result) (fun _ => 0).

(** An element of [records] in [processBatchPII] and of what it returns. *)
Record BatchRecord : Type := mkBatchRecord { id_ : string; text_ : string }.

Record BatchResult : Type := mkBatchResult {
  result_id : string;
  original : string;
  result : PIIDetectionResult
}.

(** The options of [processBatchPII].  The callback [onProgress] is known
    by the calls it receives: [onProgress_given] says whether the option is
    there, and each call is recorded with its two arguments. *)
Record BatchOptions : Type := mkBatchOptions {
  redact : option bool;
  onProgress_given : bool
}.

(** The [for] loop of [processBatchPII] from index [i] on: the results
    pushed and the calls of [onProgress] made. *)
Fixpoint batchLoop (options : BatchOptions) (total : nat) (i : nat) (rest : list BatchRecord)
    (results : list BatchResult) (calls : list (nat * nat))
  : list BatchResult * list (nat * nat) :=
  match rest with
  | [] => (results, calls)
  | record :: rest' =>
      let result := detectPII (text_ record) noDetectOptions in
      let results :=
        results
        ++ [mkBatchResult (id_ record) (text_ record)
              (if or_default (redact options) false then result
               else mkResult (hasPII result) (matches result) (text_ record))] in
      let calls := if onProgress_given options then calls ++ [(i + 1, total)] else calls in
      batchLoop options total (i + 1) rest' results calls
  end.

Definition processBatchPII (records : list BatchRecord) (options : BatchOptions)
  : list BatchResult * list (nat * nat) :=
  batchLoop options (List.length records) 0 records [] [].

End WithHost.

End Pii.

(* ===================================================================== *)
(** * src/server/services/processing-queue.service.ts *)
(* ===================================================================== *)

Module Queue.

(** ** Objects and maps *)

(** [o[k]]. *)
Fixpoint obj_get (o : JsObject) (k : string) : JsValue :=
  match o with
  | [] => VUndefined
  | (k', v) :: o' => if String.eqb k' k then v else obj_get o' k
  end.

(** [k in o]. *)
Fixpoint obj_has (o : JsObject) (k : string) : bool :=
  match o with
  | [] => false
  | (k', _) :: o' => if String.eqb k' k then true else obj_has o' k
  end.

(** [o[k] = v]: an own key keeps its place, a new key goes last. *)
Fixpoint obj_set (o : JsObject) (k : string) (v : JsValue) : JsObject :=
  match o with
  | [] => [(k, v)]
  | (k', v') :: o' =>
      if String.eqb k' k then (k, v) :: o' else (k', v') :: obj_set o' k v
  end.

(** A [Map<number, V>]: [get], [set], [delete], [size]. *)
Fixpoint map_get (V : Type) (m : list (nat * V)) (k : nat) : option V :=
  match m with
  | [] => None
  | (k', v) :: m' => if k' =? k then Some v else map_get m' k
  end.

Fixpoint map_set (V : Type) (m : list (nat * V)) (k : nat) (v : V) : list (nat * V) :=
  match m with
  | [] => [(k, v)]
  | (k', v') :: m' => if k' =? k then (k, v) :: m' else (k', v') :: map_set m' k v
  end.

Fixpoint map_delete (V : Type) (m : list (nat * V)) (k : nat) : list (nat * V) :=
  match m with
  | [] => []
  | (k', v') :: m' => if k' =? k then m' else (k', v') :: map_delete m' k
  end.

Definition map_size (V : Type) (m : list (nat * V)) : nat := List.length m.

(** ** Configuration *)

(** [condition.value], of type [string | number]. *)
Inductive CondValue : Type :=
| CString : string -> CondValue
| CNumber : JsNum -> CondValue.

(** A filter condition as it is at run time: the configuration is JSON
    cast to [ProcessingJobConfig], so [operator] is whatever string it
    holds. *)
Record FilterCondition : Type := mkCondition {
  field : string;
  operator : string;
  value : CondValue
}.

Record ProcessingJobConfig : Type := mkConfig {
  outputFormat : string;
  enablePiiDetection : bool;
  enablePiiRedaction : bool;
  customRedactionLabels : option (list (string * string));
  fieldMappings : option (list (string * string));
  filterConditions : option (list FilterCondition);
  batchSize : option nat
}.

(** ** Filters *)

(** The operators of [ProcessingJobConfig.filterConditions], as its type
    lists them. *)
Definition operators : list string := ["eq"; "ne"; "gt"; "lt"; "contains"; "not_contains"].

(** [typeof value]. *)
Definition typeof (value : JsValue) : string :=
  match value with
  | VUndefined => "undefined"
  | VBool _ => "boolean"
  | VNumber _ => "number"
  | VString _ => "string"
  | VNull | VArray _ | VObject _ => "object"
  end.

Definition num_eq (a b : JsNum) : bool :=
  match a, b with
  | Num x, Num y => Qeq_bool x y
  | _, _ => false
  end.

(** [a <= b] on numbers. *)
Definition num_le (a b : JsNum) : bool :=
  match a, b with
  | Num x, Num y => Qle_bool x y
  | _, _ => false
  end.

(** [value === condition.value]. *)
Definition strict_eq (v : JsValue) (c : CondValue) : bool :=
  match v, c with
  | VString s, CString t => String.eqb s t
  | VNumber n, CNumber m => num_eq n m
  | _, _ => false
  end.

Section WithHost.
Context {host : Host}.

(** [Number(condition.value)]. *)
Definition toNumber (c : CondValue) : JsNum :=
  match c with
  | CString s => numberOfString s
  | CNumber n => n
  end.

(** [String(condition.value)]. *)
Definition toString (c : CondValue) : string :=
  match c with
  | CString s => s
  | CNumber n => stringOfNumber n
  end.

(** The [switch] of [checkFilters] for one condition: [true] when it
    executes [return false].  An operator that no [case] names falls out of
    the [switch]. *)
Definition rejects (value : JsValue) (condition : FilterCondition) : bool :=
  let op := operator condition in
  let cv := Queue.value condition in
  if String.eqb op "eq" then negb (strict_eq value cv)
  else if String.eqb op "ne" then strict_eq value cv
  else if String.eqb op "gt" then
    match value with
    | VNumber n => num_le n (toNumber cv)
    | _ => true
    end
  else if String.eqb op "lt" then
    match value with
    | VNumber n => num_le (toNumber cv) n
    | _ => true
    end
  else if String.eqb op "contains" then
    match value with
    | VString s => negb (Js.includes s (toString cv))
    | _ => true
    end
  else if String.eqb op "not_contains" then
    match value with
    | VString s => Js.includes s (toString cv)
    | _ => true
    end
  else false.

(** The [for] loop of [checkFilters]. *)
Fixpoint checkConditions (record : JsObject) (conditions : list FilterCondition) : bool :=
  match conditions with
  | [] => true
  | condition :: rest =>
      let value := obj_get record (field condition) in
      if rejects value condition then false else checkConditions record rest
  end.

Definition checkFilters (record : JsObject) (conditions : option (list FilterCondition))
  : bool :=
  match conditions with
  | None => true
  | Some cs => checkConditions record cs
  end.

(** ** Field mappings *)

Definition applyFieldMappings (record : JsObject) (mappings : list (string * string))
  : JsObject :=
  let result :=
    fold_left
      (fun result nm =>
         let newField := fst nm in
         let oldField := snd nm in
         if obj_has record oldField then obj_set result newField (obj_get record oldField)
         else result)
      mappings [] in
  fold_left
    (fun result kv =>
       if negb (existsb (String.eqb (fst kv)) (map snd mappings))
       then obj_set result (fst kv) (snd kv)
       else result)
    record result.

(** ** The PII pass over one record *)

(** [config.customRedactionLabels] read at a type's name. *)
Definition labelsOf (labels : option (list (string * string)))
  : option (Pii.PIIType -> option string) :=
  match labels with
  | None => None
  | Some o =>
      Some (fun t =>
              match find (fun kv => String.eqb (fst kv) (Pii.type_name t)) o with
              | Some kv => Some (snd kv)
              | None => None
              end)
  end.

(** One turn of [for (const [key, value] of Object.entries(processedRecord))]:
    the record as updated so far and the detections counted in it. *)
Definition piiField (config : ProcessingJobConfig) (state : JsObject * nat)
    (entry : string * JsValue) : JsObject * nat :=
  let processedRecord := fst state in
  let piiDetections := snd state in
  match snd entry with
  | VString value =>
      let piiResult := Pii.detectPII value Pii.noDetectOptions in
      if Pii.hasPII piiResult then
        (if enablePiiRedaction config
         then obj_set processedRecord (fst entry)
                (VString (Pii.redactPII value
                            (Pii.mkRedactOptions None None
                               (labelsOf (customRedactionLabels config)))))
         else processedRecord,
         piiDetections + 1)
      else state
  | _ => state
  end.

(** The body of [for (const record of batch)]: the record pushed, if any,
    and the new value of [piiDetections]. *)
Definition processRecord (config : ProcessingJobConfig) (record : JsObject)
    (piiDetections : nat) : option JsObject * nat :=
  let processedRecord := record in
  let processedRecord :=
    match fieldMappings config with
    | Some m => applyFieldMappings processedRecord m
    | None => processedRecord
    end in
  let passesFilter :=
    match filterConditions config with
    | Some cs => checkFilters processedRecord (Some cs)
    | None => true
    end in
  if negb passesFilter then (None, piiDetections)
  else if enablePiiDetection config || enablePiiRedaction config then
    let r := fold_left (piiField config) processedRecord (processedRecord, piiDetections) in
    (Some (fst r), snd r)
  else (Some processedRecord, piiDetections).

(** A whole batch: [processedRecords] and [piiDetections] after it. *)
Definition processBatch (config : ProcessingJobConfig) (batch : list JsObject)
    (state : list JsObject * nat) : list JsObject * nat :=
  fold_left
    (fun st record =>
       match processRecord config record (snd st) with
       | (Some r, n) => (fst st ++ [r], n)
       | (None, n) => (fst st, n)
       end)
    batch state.

(** ** The record codec *)

(** [.map((line) => JSON.parse(line))], failing at the first line that
    throws. *)
Fixpoint parseLines (lines : list string) : Outcome (list JsObject) :=
  match lines with
  | [] => Ok []
  | line :: rest =>
      match jsonParseRecord line with
      | Throw msg => Throw msg
      | Ok r =>
          match parseLines rest with
          | Throw msg => Throw msg
          | Ok rs => Ok (r :: rs)
          end
      end
  end.

Definition parseSourceData (data : string) (format : string) : Outcome (list JsObject) :=
  let content := data in
  if String.eqb format "json" then jsonParseRecords content
  else if String.eqb format "jsonl" then
    parseLines (filter Js.trim_truthy (Js.split_lines content))
  else if String.eqb format "csv" then csvParse content
  else Throw ("Unsupported format: " +++ format).

Definition convertToOutputFormat (records : list JsObject) (format : string)
  : Outcome string :=
  if String.eqb format "json" then Ok (jsonStringifyRecords records)
  else if String.eqb format "jsonl" then
    Ok (Js.join_lines (map jsonStringifyRecord records))
  else if String.eqb format "csv" then Ok (csvStringify records)
  else Throw ("Unsupported output format: " +++ format).

Definition getContentType (format : string) : string :=
  if String.eqb format "json" then "application/json"
  else if String.eqb format "jsonl" then "application/x-ndjson"
  else if String.eqb format "csv" then "text/csv"
  else "application/octet-stream".

End WithHost.

(** ** Tables

    The service reads and writes columns that [db/schema] does not declare
    ([config], [totalRecords], [processedRecords] of a job, [s3Key] of a data
    source, [processingJobId] and [s3Key] of a dataset); the rows below carry
    the columns either of them names. *)

Inductive JobStatus : Type := pending | processing | completed | failed | cancelled.

Definition status_eqb (a b : JobStatus) : bool :=
  match a, b with
  | pending, pending | processing, processing | completed, completed
  | failed, failed | cancelled, cancelled => true
  | _, _ => false
  end.

Record JobRow : Type := mkJob {
  job_id : nat;
  job_projectId : nat;
  job_dataSourceId : nat;
  job_schemaMappingId : option nat;
  status : JobStatus;
  progress : nat;
  job_outputFormat : string;
  outputName : option string;
  inputRecordCount : option nat;
  outputRecordCount : option nat;
  piiDetectedCount : option nat;
  filteredOutCount : option nat;
  errorMessage : option string;
  startedAt : option nat;
  completedAt : option nat;
  createdAt : nat;
  config : option ProcessingJobConfig;
  totalRecords : option nat;
  processedRecords : option nat
}.

Definition set_status (v : JobStatus) (r : JobRow) : JobRow :=
  mkJob (job_id r) (job_projectId r) (job_dataSourceId r) (job_schemaMappingId r)
    v (progress r) (job_outputFormat r) (outputName r) (inputRecordCount r)
    (outputRecordCount r) (piiDetectedCount r) (filteredOutCount r) (errorMessage r)
    (startedAt r) (completedAt r) (createdAt r) (config r) (totalRecords r)
    (processedRecords r).

Definition set_progress (v : nat) (r : JobRow) : JobRow :=
  mkJob (job_id r) (job_projectId r) (job_dataSourceId r) (job_schemaMappingId r)
    (status r) v (job_outputFormat r) (outputName r) (inputRecordCount r)
    (outputRecordCount r) (piiDetectedCount r) (filteredOutCount r) (errorMessage r)
    (startedAt r) (completedAt r) (createdAt r) (config r) (totalRecords r)
    (processedRecords r).

Definition set_errorMessage (v : option string) (r : JobRow) : JobRow :=
  mkJob (job_id r) (job_projectId r) (job_dataSourceId r) (job_schemaMappingId r)
    (status r) (progress r) (job_outputFormat r) (outputName r) (inputRecordCount r)
    (outputRecordCount r) (piiDetectedCount r) (filteredOutCount r) v
    (startedAt r) (completedAt r) (createdAt r) (config r) (totalRecords r)
    (processedRecords r).

Definition set_startedAt (v : option nat) (r : JobRow) : JobRow :=
  mkJob (job_id r) (job_projectId r) (job_dataSourceId r) (job_schemaMappingId r)
    (status r) (progress r) (job_outputFormat r) (outputName r) (inputRecordCount r)
    (outputRecordCount r) (piiDetectedCount r) (filteredOutCount r) (errorMessage r)
    v (completedAt r) (createdAt r) (config r) (totalRecords r)
    (processedRecords r).

Definition set_completedAt (v : option nat) (r : JobRow) : JobRow :=
  mkJob (job_id r) (job_projectId r) (job_dataSourceId r) (job_schemaMappingId r)
    (status r) (progress r) (job_outputFormat r) (outputName r) (inputRecordCount r)
    (outputRecordCount r) (piiDetectedCount r) (filteredOutCount r) (errorMessage r)
    (startedAt r) v (createdAt r) (config r) (totalRecords r)
    (processedRecords r).

Definition set_totalRecords (v : option nat) (r : JobRow) : JobRow :=
  mkJob (job_id r) (job_projectId r) (job_dataSourceId r) (job_schemaMappingId r)
    (status r) (progress r) (job_outputFormat r) (outputName r) (inputRecordCount r)
    (outputRecordCount r) (piiDetectedCount r) (filteredOutCount r) (errorMessage r)
    (startedAt r) (completedAt r) (createdAt r) (config r) v
    (processedRecords r).

Definition set_processedRecords (v : option nat) (r : JobRow) : JobRow :=
  mkJob (job_id r) (job_projectId r) (job_dataSourceId r) (job_schemaMappingId r)
    (status r) (progress r) (job_outputFormat r) (outputName r) (inputRecordCount r)
    (outputRecordCount r) (piiDetectedCount r) (filteredOutCount r) (errorMessage r)
    (startedAt r) (completedAt r) (createdAt r) (config r) (totalRecords r)
    v.

Record DataSourceRow : Type := mkDataSource {
  ds_id : nat;
  ds_projectId : nat;
  ds_name : string;
  ds_format : string;
  ds_status : string;
  ds_recordCount : option nat;
  ds_deletedAt : option nat;
  s3Key : option string
}.

Record DatasetRow : Type := mkDataset {
  dataset_id : nat;
  dataset_projectId : nat;
  processingJobId : nat;
  dataset_name : string;
  dataset_format : string;
  dataset_s3Key : string;
  recordCount : nat;
  fileSize : nat
}.

Record ProjectRow : Type := mkProject {
  project_id : nat;
  organisationId : nat;
  project_deletedAt : option nat
}.

Record SchemaMappingRow : Type := mkSchemaMapping {
  mapping_id : nat;
  mapping_projectId : nat
}.

Record AuditLogRow : Type := mkAuditLog {
  audit_organisationId : nat;
  audit_userId : nat;
  action : string;
  resourceType : string;
  resourceId : nat
}.

(** What [emit] is called with. *)
Inductive Event : Type :=
| EvProgress (jobId progress processedRecords totalRecords : nat)
| EvCompleted (jobId datasetId : nat)
| EvFailed (jobId : nat) (error : string)
| EvCancelled (jobId : nat).

(** ** The process: database, bucket and the singleton [processingQueue]

    [controllers] is the heap of [AbortController] objects, each its
    [signal.aborted]; [activeJobs] maps a job to the index of its
    controller.  [clock] is what [new Date()] reads. *)
Record World : Type := mkWorld {
  processingJobs : list JobRow;
  dataSources : list DataSourceRow;
  datasets : list DatasetRow;
  projects : list ProjectRow;
  schemaMappings : list SchemaMappingRow;
  auditLogs : list AuditLogRow;
  bucket : list (string * string);
  isProcessing : bool;
  activeJobs : list (nat * nat);
  jobLogs : list (nat * list string);
  controllers : list bool;
  emitted : list Event;
  clock : nat
}.

Definition concurrency : nat := 2.

Definition with_processingJobs (v : list JobRow) (w : World) : World :=
  mkWorld v (dataSources w) (datasets w) (projects w) (schemaMappings w) (auditLogs w)
    (bucket w) (isProcessing w) (activeJobs w) (jobLogs w) (controllers w) (emitted w)
    (clock w).

Definition with_datasets (v : list DatasetRow) (w : World) : World :=
  mkWorld (processingJobs w) (dataSources w) v (projects w) (schemaMappings w)
    (auditLogs w) (bucket w) (isProcessing w) (activeJobs w) (jobLogs w) (controllers w)
    (emitted w) (clock w).

Definition with_auditLogs (v : list AuditLogRow) (w : World) : World :=
  mkWorld (processingJobs w) (dataSources w) (datasets w) (projects w) (schemaMappings w)
    v (bucket w) (isProcessing w) (activeJobs w) (jobLogs w) (controllers w)
    (emitted w) (clock w).

Definition with_bucket (v : list (string * string)) (w : World) : World :=
  mkWorld (processingJobs w) (dataSources w) (datasets w) (projects w) (schemaMappings w)
    (auditLogs w) v (isProcessing w) (activeJobs w) (jobLogs w) (controllers w)
    (emitted w) (clock w).

Definition with_isProcessing (v : bool) (w : World) : World :=
  mkWorld (processingJobs w) (dataSources w) (datasets w) (projects w) (schemaMappings w)
    (auditLogs w) (bucket w) v (activeJobs w) (jobLogs w) (controllers w)
    (emitted w) (clock w).

Definition with_activeJobs (v : list (nat * nat)) (w : World) : World :=
  mkWorld (processingJobs w) (dataSources w) (datasets w) (projects w) (schemaMappings w)
    (auditLogs w) (bucket w) (isProcessing w) v (jobLogs w) (controllers w)
    (emitted w) (clock w).

Definition with_jobLogs (v : list (nat * list string)) (w : World) : World :=
  mkWorld (processingJobs w) (dataSources w) (datasets w) (projects w) (schemaMappings w)
    (auditLogs w) (bucket w) (isProcessing w) (activeJobs w) v (controllers w)
    (emitted w) (clock w).

Definition with_controllers (v : list bool) (w : World) : World :=
  mkWorld (processingJobs w) (dataSources w) (datasets w) (projects w) (schemaMappings w)
    (auditLogs w) (bucket w) (isProcessing w) (activeJobs w) (jobLogs w) v
    (emitted w) (clock w).

Definition with_emitted (v : list Event) (w : World) : World :=
  mkWorld (processingJobs w) (dataSources w) (datasets w) (projects w) (schemaMappings w)
    (auditLogs w) (bucket w) (isProcessing w) (activeJobs w) (jobLogs w) (controllers w)
    v (clock w).

(** The passage of time between two actions. *)
Definition tick (w : World) : World :=
  mkWorld (processingJobs w) (dataSources w) (datasets w) (projects w) (schemaMappings w)
    (auditLogs w) (bucket w) (isProcessing w) (activeJobs w) (jobLogs w) (controllers w)
    (emitted w) (S (clock w)).

(** [db.update(processingJobs).set(...).where(eq(processingJobs.id, jobId))]. *)
Definition update_job (jobId : nat) (set : JobRow -> JobRow) (w : World) : World :=
  with_processingJobs
    (map (fun r => if job_id r =? jobId then set r else r) (processingJobs w)) w.

(** [db.select().from(processingJobs).where(eq(processingJobs.id, jobId)).limit(1)]. *)
Definition select_job (jobId : nat) (w : World) : option JobRow :=
  find (fun r => job_id r =? jobId) (processingJobs w).

Definition select_dataSource (dsId : nat) (w : World) : option DataSourceRow :=
  find (fun r => ds_id r =? dsId) (dataSources w).

(** [controller.signal.aborted]. *)
Definition aborted (controller : nat) (w : World) : bool := nth controller (controllers w) false.

(** [controller.abort()]. *)
Fixpoint abort_at (controller : nat) (cs : list bool) : list bool :=
  match cs, controller with
  | [], _ => []
  | _ :: cs', O => true :: cs'
  | c :: cs', S n => c :: abort_at n cs'
  end.

(** [emit(event, ...)]. *)
Definition emit (e : Event) (w : World) : World := with_emitted (emitted w ++ [e]) w.

Definition string_of_nat (n : nat) : string :=
  DecimalString.NilEmpty.string_of_uint (Nat.to_uint n).

(** [uploadFile(key, body)]: the object is stored under the key. *)
Fixpoint put_object (b : list (string * string)) (key body : string) : list (string * string) :=
  match b with
  | [] => [(key, body)]
  | (k, v) :: b' => if String.eqb k key then (key, body) :: b' else (k, v) :: put_object b' key body
  end.

(** [downloadFile(key)]: the body stored under the key, or the error of a
    key that holds none. *)
Definition downloadFile (key : string) (w : World) : Outcome string :=
  match find (fun kv => String.eqb (fst kv) key) (bucket w) with
  | Some kv => Ok (snd kv)
  | None => Throw ("File not found: " +++ key)
  end.

(** [s.replace('/sources/', '/datasets/')]: the first occurrence. *)
Definition replaceSources (s : string) : string :=
  match Js.indexOf s "/sources/" with
  | Some i => Js.slice s 0 i +++ "/datasets/" +++ Js.sliceFrom s (i + 9)
  | None => s
  end.

(** The offset of the last ["."] of [s] at or after offset [i]. *)
Fixpoint lastDot (s : string) (i : nat) : option nat :=
  match s with
  | EmptyString => None
  | String c s' =>
      match lastDot s' (S i) with
      | Some j => Some j
      | None => if Ascii.eqb c "."%char then Some i else None
      end
  end.

(** [s.replace(/\.[^.]+$/, "." + format)]: the pattern matches from the last
    dot when a character follows it. *)
Definition replaceExtension (s format : string) : string :=
  match lastDot s 0 with
  | Some i => if S i <? String.length s then Js.slice s 0 i +++ "." +++ format else s
  | None => s
  end.

Section WithHost.
Context {host : Host}.

(** The line [addLog] pushes: [`[${timestamp}] ${message}`]. *)
Definition logLine (message : string) (w : World) : string :=
  "[" +++ toISOString (clock w) +++ "] " +++ message.

(** [if (logs.length > 1000) logs.splice(0, logs.length - 1000)]. *)
Definition limitLog (logs : list string) : list string :=
  if 1000 <? List.length logs then skipn (List.length logs - 1000) logs else logs.

(** [addLog]. *)
Definition addLog (jobId : nat) (message : string) (w : World) : World :=
  let logs := match map_get (jobLogs w) jobId with Some l => l | None => [] end in
  let logs := logs ++ [logLine message w] in
  with_jobLogs (map_set (jobLogs w) jobId (limitLog logs)) w.

(** ** [processJob], one piece per [await]

    The values [processJob] holds across its loop. *)
Record Locals : Type := mkLocals {
  l_jobId : nat;
  l_controller : nat;
  l_job : JobRow;
  l_dataSource : DataSourceRow;
  l_config : ProcessingJobConfig;
  l_sourceKey : string;
  l_records : list JsObject;
  l_batchSize : nat
}.

(** Where a call of [processJob] is suspended: the [await] it has issued,
    with what it will resume with. *)
Inductive Task : Type :=
| Start (jobId : nat)
| MarkedProcessing (jobId controller : nat)
| JobSelected (jobId controller : nat) (job : option JobRow)
| SourceSelected (jobId controller : nat) (job : JobRow) (dataSource : option DataSourceRow)
| Downloaded (jobId controller : nat) (job : JobRow) (dataSource : DataSourceRow)
    (config : ProcessingJobConfig) (sourceKey : string) (sourceData : Outcome string)
| TotalWritten (L : Locals)
| ProgressWritten (L : Locals) (i batchLength progress : nat)
    (processedRecords : list JsObject) (piiDetections : nat)
| Uploaded (L : Locals) (processedRecords : list JsObject) (outputData outputKey : string)
| DatasetInserted (L : Locals) (processedRecords : list JsObject) (dataset : DatasetRow)
| CompletedWritten (jobId : nat) (dataset : DatasetRow)
| FailedWritten (jobId : nat) (errorMessage : string)
| Done.

(** [(job.config as ProcessingJobConfig) || {outputFormat: job.outputFormat
    || 'jsonl', enablePiiDetection: true, enablePiiRedaction: false}]. *)
Definition parseConfig (job : JobRow) : ProcessingJobConfig :=
  match config job with
  | Some c => c
  | None =>
      mkConfig
        (if String.eqb (job_outputFormat job) "" then "jsonl" else job_outputFormat job)
        true false None None None None
  end.

(** [config.batchSize || 100]. *)
Definition batchSizeOf (config : ProcessingJobConfig) : nat :=
  match batchSize config with
  | Some (S b) => S b
  | _ => 100
  end.

(** The [catch] block up to its [await]. *)
Definition catchError (jobId : nat) (errorMessage : string) (w : World) : World * Task :=
  let w := addLog jobId ("Job failed: " +++ errorMessage) w in
  let w :=
    update_job jobId
      (fun r => set_errorMessage (Some errorMessage)
                  (set_completedAt (Some (clock w)) (set_status failed r))) w in
  (w, FailedWritten jobId errorMessage).

(** The [finally] block. *)
Definition finallyBlock (jobId : nat) (w : World) : World :=
  with_activeJobs (map_delete (activeJobs w) jobId) w.

(** The [for] loop from its test [i < records.length] to the next [await]:
    either the progress update of the batch at [i], or, past the last
    batch, the upload. *)
Definition loopFrom (L : Locals) (i : nat) (processedRecords : list JsObject)
    (piiDetections : nat) (w : World) : World * Task :=
  let jobId := l_jobId L in
  let records := l_records L in
  let totalRecords := List.length records in
  let batchSize := l_batchSize L in
  if i <? List.length records then
    if aborted (l_controller L) w then catchError jobId "Job cancelled" w
    else
      let batch := firstn batchSize (skipn i records) in
      let batchNumber := i / batchSize + 1 in
      let w := addLog jobId ("Processing batch " +++ string_of_nat batchNumber +++ "...") w in
      let st := processBatch (l_config L) batch (processedRecords, piiDetections) in
      let progress := roundPercent (i + List.length batch) totalRecords in
      let w :=
        update_job jobId
          (fun r => set_processedRecords (Some (i + List.length batch))
                      (set_progress progress r)) w in
      (w, ProgressWritten L i (List.length batch) progress (fst st) (snd st))
  else
    let w :=
      addLog jobId
        ("Processing complete. " +++ string_of_nat (List.length processedRecords)
         +++ " records processed, " +++ string_of_nat piiDetections +++ " PII detections") w in
    match convertToOutputFormat processedRecords (outputFormat (l_config L)) with
    | Throw msg => catchError jobId msg w
    | Ok outputData =>
        let outputKey :=
          replaceExtension (replaceSources (l_sourceKey L)) (outputFormat (l_config L)) in
        let w := addLog jobId "Uploading output file..." w in
        let w := with_bucket (put_object (bucket w) outputKey outputData) w in
        (w, Uploaded L processedRecords outputData outputKey)
    end.

(** [processJob] from where it is suspended to its next [await]. *)
Definition step (t : Task) (w : World) : World * Task :=
  match t with
  | Start jobId =>
      let controller := List.length (controllers w) in
      let w := with_controllers (controllers w ++ [false]) w in
      let w := with_activeJobs (map_set (activeJobs w) jobId controller) w in
      let w :=
        update_job jobId
          (fun r => set_progress 0 (set_startedAt (Some (clock w)) (set_status processing r)))
          w in
      (w, MarkedProcessing jobId controller)
  | MarkedProcessing jobId controller =>
      let w := addLog jobId "Processing started" w in
      (w, JobSelected jobId controller (select_job jobId w))
  | JobSelected jobId controller None => catchError jobId "Job not found" w
  | JobSelected jobId controller (Some job) =>
      (w, SourceSelected jobId controller job (select_dataSource (job_dataSourceId job) w))
  | SourceSelected jobId controller job None => catchError jobId "Data source not found" w
  | SourceSelected jobId controller job (Some dataSource) =>
      let config := parseConfig job in
      let w := addLog jobId ("Processing data source: " +++ ds_name dataSource) w in
      let w := addLog jobId ("Output format: " +++ outputFormat config) w in
      match s3Key dataSource with
      | None => catchError jobId "Data source has no S3 key" w
      | Some EmptyString => catchError jobId "Data source has no S3 key" w
      | Some sourceKey =>
          let w := addLog jobId "Downloading source file..." w in
          (w, Downloaded jobId controller job dataSource config sourceKey
                (downloadFile sourceKey w))
      end
  | Downloaded jobId controller job dataSource config sourceKey (Throw msg) =>
      catchError jobId msg w
  | Downloaded jobId controller job dataSource config sourceKey (Ok sourceData) =>
      match parseSourceData sourceData (ds_format dataSource) with
      | Throw msg => catchError jobId msg w
      | Ok records =>
          let totalRecords := List.length records in
          let w := update_job jobId (set_totalRecords (Some totalRecords)) w in
          let batchSize := batchSizeOf config in
          (w, TotalWritten
                (mkLocals jobId controller job dataSource config sourceKey records batchSize))
      end
  | TotalWritten L =>
      let w :=
        addLog (l_jobId L)
          ("Found " +++ string_of_nat (List.length (l_records L)) +++ " records to process") w in
      loopFrom L 0 [] 0 w
  | ProgressWritten L i batchLength progress processedRecords piiDetections =>
      let w :=
        emit (EvProgress (l_jobId L) progress (i + batchLength) (List.length (l_records L))) w in
      loopFrom L (i + l_batchSize L) processedRecords piiDetections w
  | Uploaded L processedRecords outputData outputKey =>
      let dataset :=
        mkDataset (S (List.length (datasets w))) (job_projectId (l_job L)) (job_id (l_job L))
          (ds_name (l_dataSource L) +++ "_processed") (outputFormat (l_config L)) outputKey
          (List.length processedRecords) (String.length outputData) in
      (with_datasets (datasets w ++ [dataset]) w,
       DatasetInserted L processedRecords dataset)
  | DatasetInserted L processedRecords dataset =>
      let w :=
        update_job (l_jobId L)
          (fun r => set_completedAt (Some (clock w))
                      (set_processedRecords (Some (List.length processedRecords))
                         (set_progress 100 (set_status completed r)))) w in
      (w, CompletedWritten (l_jobId L) dataset)
  | CompletedWritten jobId dataset =>
      let w :=
        addLog jobId
          ("Job completed successfully. Dataset ID: " +++ string_of_nat (dataset_id dataset)) w in
      let w := emit (EvCompleted jobId (dataset_id dataset)) w in
      (finallyBlock jobId w, Done)
  | FailedWritten jobId errorMessage =>
      let w := emit (EvFailed jobId errorMessage) w in
      (finallyBlock jobId w, Done)
  | Done => (w, Done)
  end.

(** [processJob] left to run by itself for [fuel] of its pieces. *)
Fixpoint run (fuel : nat) (t : Task) (w : World) : World * Task :=
  match fuel with
  | O => (w, t)
  | S fuel' =>
      match t with
      | Done => (w, Done)
      | _ => let r := step t w in run fuel' (snd r) (fst r)
      end
  end.

(** The job's row after each piece of such a run, oldest first: what a
    reader polling the row can see. *)
Fixpoint observations (fuel : nat) (jobId : nat) (t : Task) (w : World) : list (option JobRow) :=
  match fuel with
  | O => []
  | S fuel' =>
      match t with
      | Done => []
      | _ =>
          let r := step t w in
          select_job jobId (fst r) :: observations fuel' jobId (snd r) (fst r)
      end
  end.

(** ** The public methods of the queue *)

(** [cancel(jobId)]. *)
Definition cancel (jobId : nat) (w : World) : World * bool :=
  match map_get (activeJobs w) jobId with
  | Some controller =>
      let w := with_controllers (abort_at controller (controllers w)) w in
      let w := with_activeJobs (map_delete (activeJobs w) jobId) w in
      let w :=
        update_job jobId
          (fun r => set_completedAt (Some (clock w)) (set_status cancelled r)) w in
      let w := addLog jobId "Job cancelled by user" w in
      let w := emit (EvCancelled jobId) w in
      (w, true)
  | None => (w, false)
  end.

(** [enqueue(jobId)], with the call of [processQueue] that it does not
    await taken to that call's first [await]: the flag [isProcessing] is
    raised unless the loop is already running. *)
Definition enqueue (jobId : nat) (w : World) : World :=
  let w := update_job jobId (set_status pending) w in
  let w := addLog jobId "Job enqueued" w in
  if isProcessing w then w else with_isProcessing true w.

End WithHost.

(** [getLogs(jobId)]: [this.jobLogs.get(jobId) || []]. *)
Definition getLogs (jobId : nat) (w : World) : list string :=
  match map_get (jobLogs w) jobId with
  | Some logs => logs
  | None => []
  end.

(** What [getProgress] returns. *)
Record JobProgress : Type := mkJobProgress {
  progress_jobId : nat;
  progress_status : JobStatus;
  progress_progress : nat;
  progress_processedRecords : nat;
  progress_totalRecords : nat;
  errors : list string;
  progress_startedAt : option nat;
  progress_completedAt : option nat
}.

(** [getProgress(jobId)]; [None] is [null]. *)
Definition getProgress (jobId : nat) (w : World) : option JobProgress :=
  match select_job jobId w with
  | None => None
  | Some job =>
      Some (mkJobProgress (job_id job) (status job) (progress job)
              (match processedRecords job with Some n => n | None => 0 end)
              (match totalRecords job with Some n => n | None => 0 end)
              [] (startedAt job) (completedAt job))
  end.

(** ** The scheduler loop

    [processQueue] selects the pending jobs with [where] and [limit] and no
    [orderBy]: the rows come in the order the database scans the table in.
    That order is the database's; all that is known of it is that it
    enumerates the table. *)
Class Scan : Type := mkScan {
  scanOrder : list JobRow -> list JobRow;
  scanOrder_perm : forall rows, Permutation (scanOrder rows) rows
}.

Inductive Next : Type :=
| Sleep (ms : nat)
| Break.

Section WithScan.
Context {host : Host} {scan : Scan}.

(** [db.select().from(processingJobs).where(eq(status, 'pending')).limit(n)]. *)
Definition selectPending (limit : nat) (w : World) : list JobRow :=
  firstn limit
    (filter (fun r => status_eqb (status r) pending) (scanOrder (processingJobs w))).

(** [this.concurrency - this.activeJobs.size], when it is positive. *)
Definition availableSlots (w : World) : nat := concurrency - map_size (activeJobs w).

(** One turn of the [while (true)] of [processQueue]: the world after it,
    the calls of [processJob] it has started (each taken to its first
    [await]) and how the turn ends. *)
Definition processQueueTurn (w : World) : World * list Task * Next :=
  if availableSlots w <=? 0 then (w, [], Sleep 1000)
  else
    let pendingJobs := selectPending (availableSlots w) w in
    match pendingJobs with
    | [] => (with_isProcessing false w, [], Break)
    | _ =>
        let r :=
          fold_left
            (fun st job =>
               let r := step (Start (job_id job)) (fst st) in
               (fst r, snd st ++ [snd r]))
            pendingJobs (w, []) in
        (fst r, snd r, Sleep 100)
    end.

End WithScan.

End Queue.

(* ===================================================================== *)
(** * The jobs controller: POST /api/jobs *)
(* ===================================================================== *)

Module JobsController.

Import Queue.

(** [req.body] with [req.body.projectId], and [req.user]. *)
Record CreateJobInput : Type := mkCreateJobInput {
  dataSourceId : nat;
  schemaMappingId : option nat;
  outputFormat : string;
  outputName : option string;
  projectId : option nat
}.

Record User : Type := mkUser { user_id : nat; user_organisationId : nat }.

(** What the handler ends with: the response it sends or the error it
    throws. *)
Inductive Response : Type :=
| Created (job : JobRow)
| BadRequestError (message : string)
| NotFoundError (resource : string)
| ForbiddenError.

Definition is_none (A : Type) (o : option A) : bool :=
  match o with None => true | Some _ => false end.

(** The next value of a [serial] column. *)
Definition nextId (ids : list nat) : nat := S (list_max ids).

Definition create (body : CreateJobInput) (user : User) (w : World) : World * Response :=
  match projectId body with
  | None | Some O => (w, BadRequestError "projectId is required")
  | Some projectId =>
      match find (fun p => (project_id p =? projectId) && is_none (project_deletedAt p))
                 (projects w) with
      | None => (w, NotFoundError "Project")
      | Some project =>
          if negb (organisationId project =? user_organisationId user) then (w, ForbiddenError)
          else
            match find (fun d => (ds_id d =? dataSourceId body)
                                 && (ds_projectId d =? projectId)
                                 && is_none (ds_deletedAt d))
                       (dataSources w) with
            | None => (w, NotFoundError "Data source")
            | Some ds =>
                if negb (String.eqb (ds_status ds) "ready")
                then (w, BadRequestError "Data source is not ready for processing")
                else
                  let mappingMissing :=
                    match schemaMappingId body with
                    | Some (S m) =>
                        is_none
                          (find (fun sm => (mapping_id sm =? S m)
                                           && (mapping_projectId sm =? projectId))
                                (schemaMappings w))
                    | _ => false
                    end in
                  if mappingMissing then (w, NotFoundError "Schema mapping")
                  else
                    let job :=
                      mkJob (nextId (map job_id (processingJobs w))) projectId
                        (dataSourceId body)
                        (match schemaMappingId body with
                         | Some (S m) => Some (S m)
                         | _ => None
                         end)
                        pending 0 (outputFormat body)
                        (match outputName body with
                         | Some (String c n) => Some (String c n)
                         | _ => Some ("export-" +++ string_of_nat (clock w))
                         end)
                        (Some (match ds_recordCount ds with Some n => n | None => 0 end))
                        None None None None None None (clock w) None None None in
                    let w := with_processingJobs (processingJobs w ++ [job]) w in
                    let w :=
                      with_auditLogs
                        (auditLogs w
                         ++ [mkAuditLog (user_organisationId user) (user_id user)
                               "job.create" "job" (job_id job)]) w in
                    (w, Created job)
            end
      end
  end.

End JobsController.

(* ===================================================================== *)
(** * src/server/errors/index.ts *)
(* ===================================================================== *)

Module Errors.

(** An [AppError]: the class name, the message, the HTTP status and the
    code.  [details], which no caller below passes, is left out. *)
Record AppError : Type := mkAppError {
  name : string;
  message : string;
  statusCode : nat;
  code : string
}.

Definition BadRequestError (message : string) : AppError :=
  mkAppError "BadRequestError" message 400 "VALIDATION_ERROR".

(** [new ForbiddenError()], with the default message. *)
Definition ForbiddenError : AppError :=
  mkAppError "ForbiddenError" "Insufficient permissions" 403 "FORBIDDEN".

Definition NotFoundError (resource : string) : AppError :=
  mkAppError "NotFoundError" (resource +++ " not found") 404 "NOT_FOUND".

(** A call that returns or throws an [AppError]. *)
Inductive Result (A : Type) : Type :=
| Returns : A -> Result A
| Throws : AppError -> Result A.
Arguments Returns {A} _.
Arguments Throws {A} _.

End Errors.

(* ===================================================================== *)
(** * src/server/lib/validation.ts *)
(* ===================================================================== *)

Module Validation.

Import Errors.

(** The value of a decimal digit. *)
Definition digitOf (c : ascii) : option nat :=
  let n := nat_of_ascii c in
  if (48 <=? n) && (n <=? 57) then Some (n - 48) else None.

(** The number that the leading decimal digits of [s] write, after [acc];
    [None] when there is no digit ([seen] tells whether one was read). *)
Fixpoint digitsValue (s : string) (acc : Z) (seen : bool) : option Z :=
  match s with
  | EmptyString => if seen then Some acc else None
  | String c s' =>
      match digitOf c with
      | Some d => digitsValue s' (10 * acc + Z.of_nat d)%Z true
      | None => if seen then Some acc else None
      end
  end.

(** The string without its leading white space. *)
Fixpoint skipBlank (s : string) : string :=
  match s with
  | EmptyString => EmptyString
  | String c s' => if Js.is_blank c then skipBlank s' else s
  end.

(** The double nearest to a non-negative integer, ties to the even
    significand; [None] when it is [Infinity].  Integers below [2^53] are
    doubles. *)
Definition roundDouble (z : Z) : option Z :=
  if (z <? 2 ^ 53)%Z then Some z
  else
    let e := (Z.log2 z - 52)%Z in
    let q := Z.shiftr z e in
    let r := (z - Z.shiftl q e)%Z in
    let half := Z.shiftl 1 (e - 1) in
    let q' := if (half <? r)%Z || ((r =? half)%Z && Z.odd q) then (q + 1)%Z else q in
    let v := Z.shiftl q' e in
    if (v <? 2 ^ 1024)%Z then Some v else None.

(** What [parseInt] returns: [NaN], an infinity, or an integer. *)
Inductive Parsed : Type :=
| PNaN : Parsed
| PInfinity (negative : bool) : Parsed
| PInt (z : Z) : Parsed.

(** [parseInt(s, 10)]: white space, an optional sign, then the decimal
    digits up to the first character that is not one. *)
Definition parseInt (s : string) : Parsed :=
  let s := skipBlank s in
  let negative := match s with String "-" _ => true | _ => false end in
  let s := match s with String "-" s' => s' | String "+" s' => s' | _ => s end in
  match digitsValue s 0 false with
  | None => PNaN
  | Some v =>
      match roundDouble v with
      | None => PInfinity negative
      | Some d => PInt (if negative then (- d)%Z else d)
      end
  end.

Definition parseIntParam (value paramName : string) : Result Z :=
  match parseInt value with
  | PInt parsed =>
      if (parsed <=? 0)%Z then Throws (BadRequestError (paramName +++ " must be a positive integer"))
      else Returns parsed
  | _ => Throws (BadRequestError (paramName +++ " must be a positive integer"))
  end.

(** A value of [req.query], of type [any]: [undefined], [null], a string,
    or something else (an array, an object), known by what [String(value)]
    gives. *)
Inductive QueryValue : Type :=
| QUndefined : QueryValue
| QNull : QueryValue
| QString (s : string) : QueryValue
| QOther (image : string) : QueryValue.

Definition parseQueryInt (value : QueryValue) (defaultValue : Z) (min max : option Z) : Z :=
  match value with
  | QUndefined | QNull | QString EmptyString => defaultValue
  | QString s | QOther s =>
      match parseInt s with
      | PInt parsed =>
          match min with
          | Some min' =>
              if (parsed <? min')%Z then min'
              else match max with
                   | Some max' => if (max' <? parsed)%Z then max' else parsed
                   | None => parsed
                   end
          | None =>
              match max with
              | Some max' => if (max' <? parsed)%Z then max' else parsed
              | None => parsed
              end
          end
      | _ => defaultValue
      end
  end.

Record Query : Type := mkQuery { query_page : QueryValue; query_page_size : QueryValue }.

(** What [parsePaginationParams] returns; [skip] is [None] when the
    product is [Infinity]. *)
Record Pagination : Type := mkPagination {
  page : Z;
  pageSize : Z;
  skip : option Z;
  take : Z
}.

(** [(page - 1) * pageSize] in double arithmetic, for [page >= 1] and
    [pageSize >= 1]: each operation gives the double nearest to the exact
    result. *)
Definition skipOf (page pageSize : Z) : option Z :=
  match roundDouble (page - 1) with
  | Some before => roundDouble (before * pageSize)
  | None => None
  end.

Definition parsePaginationParams (query : Query) : Pagination :=
  let page := parseQueryInt (query_page query) 1 (Some 1%Z) None in
  let pageSize := parseQueryInt (query_page_size query) 20 (Some 1%Z) (Some 100%Z) in
  mkPagination page pageSize (skipOf page pageSize) pageSize.

End Validation.

(* ===================================================================== *)
(** * src/server/lib/response.ts *)
(* ===================================================================== *)

Module Responses.

(** What [res.status(...).json(...)] sends. *)
Record Sent (Body : Type) : Type := mkSent { http_status : nat; body : Body }.

(** The body of [sendSuccess]; [meta] is there when it is truthy. *)
Record Success (A M : Type) : Type := mkSuccess { data : A; meta : option M }.

Definition sendSuccess (A M : Type) (data : A) (meta : option M) : Sent (Success A M) :=
  mkSent 200 (mkSuccess data meta).

(** The [pagination] of [sendPaginated]; [totalPages] is [None] when the
    quotient is not finite (printed [null]). *)
Record PageInfo : Type := mkPageInfo {
  info_page : Z;
  info_pageSize : Z;
  totalPages : option Z;
  totalCount : Z
}.

Record Paginated (A : Type) : Type := mkPaginated { rows : list A; pagination : PageInfo }.

(** [Math.ceil(totalCount / pageSize)], for integers below [2^53]: the
    quotient of two such integers rounds to no integer that it is not, so
    its ceiling is the ceiling of the exact quotient. *)
Definition ceilDiv (totalCount pageSize : Z) : option Z :=
  if (pageSize =? 0)%Z then None else Some (- ((- totalCount) / pageSize))%Z.

Definition sendPaginated (A : Type) (data : list A) (page pageSize totalCount : Z)
  : Sent (Paginated A) :=
  let totalPages := ceilDiv totalCount pageSize in
  mkSent 200 (mkPaginated data (mkPageInfo page pageSize totalPages totalCount)).

End Responses.

(* ===================================================================== *)
(** * src/server/services/s3-storage.service.ts: [generateS3Key] *)
(* ===================================================================== *)

Module S3Storage.

(** [type]: ['sources' | 'datasets' | 'exports']. *)
Inductive KeyType : Type := sources | datasets | exports.

Definition keyType_name (t : KeyType) : string :=
  match t with
  | sources => "sources"
  | datasets => "datasets"
  | exports => "exports"
  end.

(** The hexadecimal digit of a number below 16. *)
Definition hexDigit (n : nat) : ascii :=
  match get n "0123456789abcdef" with
  | Some c => c
  | None => "0"%char
  end.

(** [buffer.toString('hex')]: two digits per byte. *)
Fixpoint toHex (bytes : list ascii) : string :=
  match bytes with
  | [] => EmptyString
  | b :: bytes' =>
      String (hexDigit (nat_of_ascii b / 16))
        (String (hexDigit (nat_of_ascii b mod 16)) (toHex bytes'))
  end.

(** The class [[a-zA-Z0-9._-]]. *)
Definition safeChar (c : ascii) : bool :=
  let n := nat_of_ascii c in
  ((97 <=? n) && (n <=? 122)) || ((65 <=? n) && (n <=? 90)) || ((48 <=? n) && (n <=? 57))
  || (n =? 46) || (n =? 95) || (n =? 45).

(** [filename.replace(/[^a-zA-Z0-9._-]/g, '_')]. *)
Fixpoint sanitize (filename : string) : string :=
  match filename with
  | EmptyString => EmptyString
  | String c rest => String (if safeChar c then c else "_"%char) (sanitize rest)
  end.

(** [generateS3Key]; [timestamp] is what [Date.now()] reads and [random]
    the four bytes of [crypto.randomBytes(4)]. *)
Definition generateS3Key (organisationId projectId : nat) (type : KeyType) (filename : string)
    (timestamp : nat) (random : list ascii) : string :=
  let randomSuffix := toHex random in
  let sanitizedFilename := sanitize filename in
  "org-" +++ Queue.string_of_nat organisationId
  +++ "/project-" +++ Queue.string_of_nat projectId
  +++ "/" +++ keyType_name type
  +++ "/" +++ Queue.string_of_nat timestamp +++ "-" +++ randomSuffix +++ "-" +++ sanitizedFilename.

End S3Storage.

(* ===================================================================== *)
(** * The jobs controller: POST /api/jobs/:jobId/cancel *)
(* ===================================================================== *)

Module JobsHandlers.

Import Queue Errors.

(** The body that the handler sends. *)
Record Message : Type := mkMessage { message_text : string }.

(** [cancel(req, res)]: [jobIdParam] is [req.params.jobId] and [user] is
    [req.user].  The handler also writes [updatedAt], a column that the rows
    of this development do not carry.  An id that no row has gives no row,
    whatever its size: the range of the column is not modelled. *)
Definition cancel (jobIdParam : string) (user : JobsController.User) (w : World)
  : World * Result (Responses.Sent (Responses.Success Message unit)) :=
  match Validation.parseIntParam jobIdParam "jobId" with
  | Throws e => (w, Throws e)
  | Returns parsed =>
      let jobId := Z.to_nat parsed in
      let result :=
        match select_job jobId w with
        | Some job =>
            match find (fun p => project_id p =? job_projectId job) (projects w) with
            | Some project => Some (job, project)
            | None => None
            end
        | None => None
        end in
      match result with
      | None => (w, Throws (NotFoundError "Job"))
      | Some (job, project) =>
          if negb (organisationId project =? JobsController.user_organisationId user)
          then (w, Throws ForbiddenError)
          else if negb (status_eqb (status job) pending || status_eqb (status job) processing)
          then (w, Throws (BadRequestError "Job cannot be cancelled"))
          else
            let w :=
              update_job jobId
                (fun r => set_completedAt (Some (clock w)) (set_status cancelled r)) w in
            let w :=
              with_auditLogs
                (auditLogs w
                 ++ [mkAuditLog (JobsController.user_organisationId user)
                       (JobsController.user_id user) "job.cancel" "job" jobId]) w in
            (w, Returns (Responses.sendSuccess (mkMessage "Job cancelled successfully") None))
      end
  end.

End JobsHandlers.

(* ===================================================================== *)
(** * The overlap resolution and the redaction, as the specification words
      them *)
(* ===================================================================== *)

Module PiiSpec.

Import Pii.

(** "Sort all raw matches by start offset ascending, then by confidence
    descending": [a] may stand before [b]. *)
Definition precedes (a b : PIIMatch) : bool :=
  (start a <? start b)
  || ((start a =? start b) && Qle_bool (confidence b) (confidence a)).

(** Two spans intersect: some offset lies in both. *)
Definition intersects (a b : PIIMatch) : bool :=
  Nat.max (start a) (start b) <? Nat.min (end_ a) (end_ b).

(** "Walk the sorted list; accept a match only if its span does not overlap
    any already-accepted match." *)
Definition walk (sorted : list PIIMatch) : list PIIMatch :=
  fold_left
    (fun accepted m => if existsb (intersects m) accepted then accepted else accepted ++ [m])
    sorted [].

Definition resolveOverlaps (raw : list PIIMatch) : list PIIMatch :=
  walk (Js.stable_sort precedes raw).

(** No offset of the text lies in both spans. *)
Definition disjoint (a b : PIIMatch) : Prop :=
  forall p, ~ (start a <= p < end_ a /\ start b <= p < end_ b).

(** The text with every match replaced at once, the matches taken in
    ascending order from offset [pos] on: what splicing at the offsets of
    the original text means. *)
Fixpoint assemble (text : string) (pos : nat) (ms : list PIIMatch)
    (replacement : PIIMatch -> string) : string :=
  match ms with
  | [] => Js.sliceFrom text pos
  | m :: ms' =>
      Js.slice text pos (start m) +++ replacement m
      +++ assemble text (end_ m) ms' replacement
  end.

(** The label the caller supplied for a type, if any. *)
Definition suppliedLabel (options : RedactOptions) (t : PIIType) : option string :=
  match redactionLabels options with
  | Some labels => labels t
  | None => None
  end.

(** What replaces a match for which no label is used: "(when
    [preserveLength] is set) the redaction character repeated to the
    original match length, else the bracketed uppercase type tag". *)
Definition unlabelled (options : RedactOptions) (m : PIIMatch) : string :=
  if or_default (preserveLength options) false
  then Js.repeat (or_default (redactionChar options) "*") (String.length (value m))
  else "[" +++ Js.toUpperCase (type_name (type m)) +++ "]".

(** The replacement as the specification words it: "the caller-supplied
    label for that match's type if provided, else ...". *)
Definition statedReplacement (options : RedactOptions) (m : PIIMatch) : string :=
  match suppliedLabel options (type m) with
  | Some label => label
  | None => unlabelled options m
  end.

(** The same with a supplied label used only when it is not the empty
    string. *)
Definition amendedReplacement (options : RedactOptions) (m : PIIMatch) : string :=
  match suppliedLabel options (type m) with
  | Some (String c label) => String c label
  | _ => unlabelled options m
  end.

(** The matches lie one after the other between [pos] and [bound]. *)
Fixpoint chain (bound pos : nat) (ms : list PIIMatch) : Prop :=
  match ms with
  | [] => pos <= bound
  | m :: ms' => pos <= start m /\ start m <= end_ m /\ chain bound (end_ m) ms'
  end.

End PiiSpec.

Unset Implicit Arguments.

(* ===================================================================== *)
(** * Facts about strings and sorting *)
(* ===================================================================== *)

Module JsFacts.

Import Js.

(** Strings as lists of characters. *)
Abbreviation chars := list_ascii_of_string.

Lemma chars_append (s t : string) : chars (s +++ t) = chars s ++ chars t.
Proof. induction s as [|c s IH]; simpl; [reflexivity | now rewrite IH]. Qed.

Lemma chars_length (s : string) : List.length (chars s) = String.length s.
Proof. induction s as [|c s IH]; simpl; [reflexivity | now rewrite IH]. Qed.

Lemma chars_substring (s : string) (n m : nat) :
  chars (substring n m s) = firstn m (skipn n (chars s)).
Proof.
  revert n m. induction s as [|c s IH]; intros n m.
  - destruct n, m; reflexivity.
  - destruct n as [|n].
    + destruct m as [|m]; simpl; [reflexivity | now rewrite IH].
    + simpl. apply IH.
Qed.

Lemma chars_inj (s t : string) : chars s = chars t -> s = t.
Proof.
  intros E. rewrite <- (string_of_list_ascii_of_string s),
    <- (string_of_list_ascii_of_string t). now rewrite E.
Qed.

Lemma chars_slice (s : string) (e : nat) : chars (slice s 0 e) = firstn e (chars s).
Proof. unfold slice. rewrite chars_substring, Nat.sub_0_r. reflexivity. Qed.

Lemma chars_sliceFrom (s : string) (b : nat) : chars (sliceFrom s b) = skipn b (chars s).
Proof.
  unfold sliceFrom. rewrite chars_substring. apply firstn_all2.
  rewrite length_skipn, chars_length. lia.
Qed.

Lemma length_substring (s : string) (n m : nat) :
  String.length (substring n m s) = Nat.min m (String.length s - n).
Proof.
  rewrite <- !chars_length, chars_substring, length_firstn, length_skipn. reflexivity.
Qed.

(** A needle that [indexOf] finds lies within the text. *)
Lemma indexOf_within (text needle : string) (i : nat) :
  indexOf text needle = Some i -> 0 < String.length needle ->
  i + String.length needle <= String.length text.
Proof.
  unfold indexOf. intros E Hpos.
  apply index_correct1 in E.
  assert (L : String.length (substring i (String.length needle) text)
              = String.length needle) by now rewrite E.
  rewrite length_substring in L. lia.
Qed.

Lemma indexOf_found (text needle : string) (i : nat) :
  indexOf text needle = Some i -> substring i (String.length needle) text = needle.
Proof. unfold indexOf. apply index_correct1. Qed.

(** ** The sort *)

Section Sorting.
Variable A : Type.
Variable leb : A -> A -> bool.

Lemma insert_by_perm (x : A) (l : list A) : Permutation (insert_by leb x l) (x :: l).
Proof.
  induction l as [|y l IH]; simpl.
  - reflexivity.
  - destruct (leb x y).
    + reflexivity.
    + rewrite IH. apply perm_swap.
Qed.

Lemma stable_sort_perm (l : list A) : Permutation (stable_sort leb l) l.
Proof.
  induction l as [|x l IH]; simpl.
  - reflexivity.
  - rewrite insert_by_perm. now constructor.
Qed.

Hypothesis leb_total : forall x y, leb x y = true \/ leb y x = true.
Hypothesis leb_trans : forall x y z, leb x y = true -> leb y z = true -> leb x z = true.

Lemma insert_by_sorted (x : A) (l : list A) :
  StronglySorted (fun a b => leb a b = true) l ->
  StronglySorted (fun a b => leb a b = true) (insert_by leb x l).
Proof.
  induction 1 as [|y l Hs IH Hy]; simpl.
  - repeat constructor.
  - destruct (leb x y) eqn:E.
    + constructor; [now constructor|].
      constructor; [exact E|].
      eapply Forall_impl; [|exact Hy]. intros z Hz. now apply leb_trans with y.
    + constructor; [exact IH|].
      assert (Hyx : leb y x = true) by (destruct (leb_total x y); congruence).
      eapply Permutation_Forall; [symmetry; apply insert_by_perm|].
      now constructor.
Qed.

Lemma stable_sort_sorted (l : list A) :
  StronglySorted (fun a b => leb a b = true) (stable_sort leb l).
Proof.
  induction l as [|x l IH]; simpl; [constructor | now apply insert_by_sorted].
Qed.

End Sorting.

(** Two orders that agree sort alike. *)
Lemma stable_sort_ext (A : Type) (leb1 leb2 : A -> A -> bool) (l : list A) :
  (forall x y, leb1 x y = leb2 x y) -> stable_sort leb1 l = stable_sort leb2 l.
Proof.
  intros E. induction l as [|x l IH]; simpl; [reflexivity|].
  rewrite IH. generalize (stable_sort leb2 l). intros s.
  induction s as [|y s IHs]; simpl; [reflexivity|].
  rewrite E, IHs. reflexivity.
Qed.

(** A list whose every element is strictly after the later ones comes out
    reversed. *)
Lemma stable_sort_rev (A : Type) (leb : A -> A -> bool) (l : list A) :
  ForallOrdPairs (fun a b => leb a b = false) l -> stable_sort leb l = rev l.
Proof.
  induction 1 as [|x l Hx Hl IH]; simpl; [reflexivity|].
  rewrite IH.
  assert (Hr : Forall (fun b => leb x b = false) (rev l)).
  { apply Forall_forall. intros b Hb. apply in_rev in Hb.
    rewrite Forall_forall in Hx. now apply Hx. }
  clear - Hr. induction Hr as [|y r Hy Hr IHr]; simpl; [reflexivity|].
  now rewrite Hy, IHr.
Qed.

Lemma ForallOrdPairs_snoc (A : Type) (R : A -> A -> Prop) (l : list A) (x : A) :
  ForallOrdPairs R l -> Forall (fun a => R a x) l -> ForallOrdPairs R (l ++ [x]).
Proof.
  induction 1 as [|y l Hy Hl IH]; intros Hx; simpl.
  - repeat constructor.
  - inversion Hx; subst. constructor.
    + apply Forall_app. split; [exact Hy | now repeat constructor].
    + now apply IH.
Qed.

End JsFacts.

(* ===================================================================== *)
(** * The PII detector and redactor *)
(* ===================================================================== *)

Module PiiFacts.

Import Pii PiiSpec JsFacts.

(** ** The comparator of [deduplicateMatches] is the order of the
       specification *)

Lemma Qle_bool_eq (x y : Q) (b : bool) : (x <= y <-> b = true)%Q -> Qle_bool x y = b.
Proof.
  intros H. destruct b.
  - apply Qle_bool_iff. now apply H.
  - destruct (Qle_bool x y) eqn:E; [|reflexivity].
    apply Qle_bool_iff in E. apply H in E. discriminate.
Qed.

Lemma diff_sign (a b : nat) : Qle_bool (Js.diff a b) 0 = (a <=? b).
Proof.
  unfold Js.diff, Qle_bool. simpl. rewrite Z.mul_1_r.
  destruct (a <=? b) eqn:E.
  - apply Nat.leb_le in E. apply Z.leb_le. lia.
  - apply Nat.leb_gt in E. apply Z.leb_gt. lia.
Qed.

Lemma compareMatches_sign (a b : PIIMatch) :
  Qle_bool (compareMatches a b) 0 = precedes a b.
Proof.
  unfold compareMatches, precedes.
  destruct (start a =? start b) eqn:E; simpl.
  - apply Nat.eqb_eq in E. rewrite E, Nat.ltb_irrefl. simpl.
    apply Qle_bool_eq. rewrite Qle_bool_iff. split; intros H; lra.
  - apply Nat.eqb_neq in E. rewrite diff_sign, orb_false_r.
    destruct (start a <=? start b) eqn:L, (start a <? start b) eqn:L'; try reflexivity.
    + apply Nat.leb_le in L. apply Nat.ltb_ge in L'. lia.
    + apply Nat.leb_gt in L. apply Nat.ltb_lt in L'. lia.
Qed.

Lemma precedes_total (a b : PIIMatch) : precedes a b = true \/ precedes b a = true.
Proof.
  unfold precedes.
  destruct (Nat.lt_trichotomy (start a) (start b)) as [L | [E | L]].
  - left. apply Nat.ltb_lt in L. now rewrite L.
  - rewrite E, Nat.ltb_irrefl, Nat.eqb_refl. simpl.
    destruct (Qlt_le_dec (confidence a) (confidence b)) as [H | H].
    + right. apply Qle_bool_iff. lra.
    + left. now apply Qle_bool_iff.
  - right. apply Nat.ltb_lt in L. now rewrite L.
Qed.

Lemma precedes_spec (a b : PIIMatch) :
  precedes a b = true <->
  start a < start b \/ (start a = start b /\ (confidence b <= confidence a)%Q).
Proof.
  unfold precedes.
  rewrite orb_true_iff, andb_true_iff, Nat.ltb_lt, Nat.eqb_eq, Qle_bool_iff. tauto.
Qed.

Lemma precedes_trans (a b c : PIIMatch) :
  precedes a b = true -> precedes b c = true -> precedes a c = true.
Proof.
  rewrite !precedes_spec. intros [H1 | [H1 H1']] [H2 | [H2 H2']].
  - left. lia.
  - left. lia.
  - left. lia.
  - right. split; [lia | lra].
Qed.

Lemma precedes_start (a b : PIIMatch) : precedes a b = true -> start a <= start b.
Proof. rewrite precedes_spec. lia. Qed.

(** ** The overlap test *)

(** Two matches that the test of [deduplicateMatches] lets through share no
    offset. *)
Lemma overlapsWith_false_disjoint (m e : PIIMatch) :
  overlapsWith m e = false -> disjoint e m.
Proof.
  unfold overlapsWith, disjoint. intros H p [[A1 A2] [B1 B2]].
  rewrite !orb_false_iff, !andb_false_iff in H.
  rewrite !Nat.leb_gt, !Nat.ltb_ge in H. lia.
Qed.

(** On spans that are not empty it is the intersection of the spans. *)
Lemma overlapsWith_intersects (m e : PIIMatch) :
  start m < end_ m -> start e < end_ e -> overlapsWith m e = intersects m e.
Proof.
  intros Hm He. unfold overlapsWith, intersects.
  destruct (Nat.max (start m) (start e) <? Nat.min (end_ m) (end_ e)) eqn:I.
  - apply Nat.ltb_lt in I.
    rewrite !orb_true_iff, !andb_true_iff, !Nat.leb_le, !Nat.ltb_lt. lia.
  - apply Nat.ltb_ge in I.
    rewrite !orb_false_iff, !andb_false_iff, !Nat.leb_gt, !Nat.ltb_ge. lia.
Qed.

(** After a match that starts no later, the test fails only when the later
    match starts at or after the end of the earlier one. *)
Lemma overlapsWith_false_after (m e : PIIMatch) :
  start e <= start m -> overlapsWith m e = false -> end_ e <= start m.
Proof.
  unfold overlapsWith. intros L H.
  rewrite !orb_false_iff, !andb_false_iff in H.
  rewrite !Nat.leb_gt, !Nat.ltb_ge in H. lia.
Qed.

(** ** The walk over the sorted matches *)

Definition keep (test : PIIMatch -> PIIMatch -> bool) (result : list PIIMatch)
    (m : PIIMatch) : list PIIMatch :=
  if existsb (test m) result then result else result ++ [m].

Lemma deduplicateMatches_unfold (ms : list PIIMatch) :
  deduplicateMatches ms = fold_left (keep overlapsWith) (Js.sort compareMatches ms) [].
Proof. reflexivity. Qed.

Lemma sort_compareMatches (ms : list PIIMatch) :
  Js.sort compareMatches ms = Js.stable_sort precedes ms.
Proof. unfold Js.sort. apply stable_sort_ext. apply compareMatches_sign. Qed.

(** What the walk accepts, it took from the list or had before. *)
Lemma keep_fold_In (test : PIIMatch -> PIIMatch -> bool) (rest result : list PIIMatch)
    (m : PIIMatch) :
  In m (fold_left (keep test) rest result) -> In m result \/ In m rest.
Proof.
  revert result. induction rest as [|x rest IH]; intros result H; simpl in *.
  - now left.
  - apply IH in H. destruct H as [H | H]; [|now right; right].
    unfold keep in H. destruct (existsb (test x) result); [now left|].
    apply in_app_or in H. destruct H as [H | [H | []]]; [now left | right; now left].
Qed.

(** The accepted matches end before the next accepted match starts. *)
Definition before (e m : PIIMatch) : Prop := end_ e <= start m.

Lemma keep_fold_before (rest result : list PIIMatch) :
  StronglySorted (fun a b => precedes a b = true) rest ->
  (forall e m, In e result -> In m rest -> start e <= start m) ->
  ForallOrdPairs before result ->
  ForallOrdPairs before (fold_left (keep overlapsWith) rest result).
Proof.
  revert result. induction rest as [|x rest IH]; intros result Hs Hle Hfop; simpl.
  - exact Hfop.
  - inversion Hs as [|? ? Hs' Hx]; subst.
    apply IH; [exact Hs' | |].
    + intros e m He Hm. unfold keep in He.
      destruct (existsb (overlapsWith x) result).
      * apply Hle; [exact He | now right].
      * apply in_app_or in He. destruct He as [He | [He | []]].
        -- apply Hle; [exact He | now right].
        -- subst e. rewrite Forall_forall in Hx. now apply precedes_start, Hx.
    + unfold keep. destruct (existsb (overlapsWith x) result) eqn:E; [exact Hfop|].
      apply ForallOrdPairs_snoc; [exact Hfop|].
      apply Forall_forall. intros e He.
      apply overlapsWith_false_after.
      * apply Hle; [exact He | now left].
      * destruct (overlapsWith x e) eqn:O; [|reflexivity].
        assert (existsb (overlapsWith x) result = true)
          by (apply existsb_exists; now exists e).
        congruence.
Qed.

(** Two tests that agree on the matches at hand walk alike. *)
Lemma keep_fold_ext (t1 t2 : PIIMatch -> PIIMatch -> bool) (P : PIIMatch -> Prop)
    (rest result : list PIIMatch) :
  (forall m e, P m -> P e -> t1 m e = t2 m e) ->
  Forall P rest -> Forall P result ->
  fold_left (keep t1) rest result = fold_left (keep t2) rest result.
Proof.
  intros Ht. revert result. induction rest as [|x rest IH]; intros result Hr Hres; simpl.
  - reflexivity.
  - inversion Hr; subst.
    assert (E : keep t1 result x = keep t2 result x).
    { unfold keep. replace (existsb (t1 x) result) with (existsb (t2 x) result);
        [reflexivity|].
      clear - Ht Hres H1. induction Hres as [|e r He Hres IHr]; simpl; [reflexivity|].
      now rewrite IHr, Ht. }
    rewrite E. apply IH; [assumption|].
    unfold keep. destruct (existsb (t2 x) result); [assumption|].
    apply Forall_app. split; [assumption | now repeat constructor].
Qed.

Lemma before_disjoint (e m : PIIMatch) : before e m -> disjoint e m.
Proof. unfold before, disjoint. intros H p. lia. Qed.

Lemma deduplicateMatches_before (ms : list PIIMatch) :
  ForallOrdPairs before (deduplicateMatches ms).
Proof.
  rewrite deduplicateMatches_unfold, sort_compareMatches.
  apply keep_fold_before.
  - apply stable_sort_sorted; [apply precedes_total | apply precedes_trans].
  - intros e m [].
  - constructor.
Qed.

Lemma deduplicateMatches_In (ms : list PIIMatch) (m : PIIMatch) :
  In m (deduplicateMatches ms) -> In m ms.
Proof.
  rewrite deduplicateMatches_unfold, sort_compareMatches. intros H.
  apply keep_fold_In in H. destruct H as [[] | H].
  eapply Permutation_in; [apply stable_sort_perm | exact H].
Qed.

Lemma ForallOrdPairs_impl (A : Type) (R S : A -> A -> Prop) (l : list A) :
  (forall a b, R a b -> S a b) -> ForallOrdPairs R l -> ForallOrdPairs S l.
Proof.
  intros H. induction 1 as [|x l Hx Hl IH]; constructor; [|exact IH].
  eapply Forall_impl; [|exact Hx]. intros b. apply H.
Qed.

(** ** The raw matches *)

Section WithHost.
Context {host : Host}.

(** A raw match is well formed: it is not empty, lies within the text, and
    its value is as long as its span. *)
Definition wellFormed (text : string) (m : PIIMatch) : Prop :=
  start m < end_ m /\ end_ m <= String.length text
  /\ end_ m = start m + String.length (value m).

Lemma matches_of_exec_wf (t : PIIType) (c : Q) (re : RegExp) (text : string) :
  Forall (wellFormed text) (matches_of_exec t c (regexExecAll re text)).
Proof.
  apply Forall_forall. intros m Hm. unfold matches_of_exec in Hm.
  apply in_map_iff in Hm. destruct Hm as [[i v] [E Hin]]. subst m.
  unfold wellFormed. simpl.
  pose proof (regexExecAll_nonempty _ _ _ _ Hin).
  pose proof (regexExecAll_within _ _ _ _ Hin). lia.
Qed.

Lemma matches_of_spans_wf (t : PIIType) (c : Q) (minLen : nat) (text : string)
    (spans : list string) :
  0 < minLen -> Forall (wellFormed text) (matches_of_spans t c minLen text spans).
Proof.
  intros Hmin. apply Forall_forall. intros m Hm. unfold matches_of_spans in Hm.
  apply in_flat_map in Hm. destruct Hm as [name [_ Hm]].
  destruct (minLen <=? String.length name) eqn:L; [|destruct Hm].
  apply Nat.leb_le in L.
  destruct (Js.indexOf text name) as [index|] eqn:E; [|destruct Hm].
  destruct Hm as [Hm | []]. subst m. unfold wellFormed. simpl.
  apply indexOf_within in E; lia.
Qed.

Lemma Forall_flat_map (A B : Type) (P : B -> Prop) (f : A -> list B) (l : list A) :
  (forall a, In a l -> Forall P (f a)) -> Forall P (flat_map f l).
Proof.
  intros H. apply Forall_forall. intros b Hb. apply in_flat_map in Hb.
  destruct Hb as [a [Ha Hb]]. specialize (H a Ha). rewrite Forall_forall in H. now apply H.
Qed.

Lemma allMatches_wf (text : string) (options : DetectOptions) :
  Forall (wellFormed text) (allMatches text options).
Proof.
  unfold allMatches.
  apply Forall_app; split; [|apply Forall_app; split; [|apply Forall_app; split]].
  - unfold detectPatternPII. apply Forall_flat_map. intros p _. apply matches_of_exec_wf.
  - destruct (or_default (detectNames options) true); [|constructor].
    apply matches_of_spans_wf. lia.
  - destruct (or_default (detectAddresses_opt options) true); [|constructor].
    apply matches_of_spans_wf. lia.
  - apply Forall_flat_map. intros p _. apply matches_of_exec_wf.
Qed.

Lemma detectPII_matches (text : string) (options : DetectOptions) :
  matches (detectPII text options) = deduplicateMatches (allMatches text options).
Proof. reflexivity. Qed.

Lemma deduplicateMatches_resolve (text : string) (raw : list PIIMatch) :
  Forall (wellFormed text) raw -> deduplicateMatches raw = resolveOverlaps raw.
Proof.
  intros Hwf. rewrite deduplicateMatches_unfold, sort_compareMatches.
  unfold resolveOverlaps, walk.
  apply keep_fold_ext with (P := wellFormed text).
  - intros m e [Hm _] [He _]. now apply overlapsWith_intersects.
  - eapply Permutation_Forall; [symmetry; apply stable_sort_perm | exact Hwf].
  - constructor.
Qed.

End WithHost.

(** ** Splicing in reverse order *)

Lemma firstn_add (A : Type) (a b : nat) (l : list A) :
  firstn (a + b) l = firstn a l ++ firstn b (skipn a l).
Proof.
  revert l. induction a as [|a IH]; intros l; simpl; [reflexivity|].
  destruct l as [|x l]; simpl.
  - now rewrite firstn_nil.
  - now rewrite IH.
Qed.

Lemma chain_bound (bound pos : nat) (ms : list PIIMatch) : chain bound pos ms -> pos <= bound.
Proof.
  revert pos. induction ms as [|m ms IH]; intros pos H; simpl in H; [exact H|].
  destruct H as (H1 & H2 & H3). apply IH in H3. lia.
Qed.

Lemma chars_splice (t : string) (m : PIIMatch) (r : string) :
  chars (splice t m r) = firstn (start m) (chars t) ++ chars r ++ skipn (end_ m) (chars t).
Proof.
  unfold splice. now rewrite !chars_append, chars_slice, chars_sliceFrom.
Qed.

(** Splicing the matches from the last to the first leaves the text before
    the match at hand as it was, so each offset still means what it meant in
    the original text. *)
Lemma splice_right_assemble (text : string) (replacement : PIIMatch -> string)
    (ms : list PIIMatch) (pos : nat) :
  chain (String.length text) pos ms ->
  chars (fold_right (fun m t => splice t m (replacement m)) text ms)
  = firstn pos (chars text) ++ chars (assemble text pos ms replacement).
Proof.
  revert pos. induction ms as [|m ms IH]; intros pos H; simpl in *.
  - rewrite chars_sliceFrom. now rewrite firstn_skipn.
  - destruct H as (H1 & H2 & H3).
    pose proof (chain_bound _ _ _ H3) as Hb.
    rewrite chars_splice, (IH _ H3).
    assert (Hlen : List.length (firstn (end_ m) (chars text)) = end_ m).
    { rewrite length_firstn, chars_length. lia. }
    rewrite firstn_app, Hlen.
    replace (start m - end_ m) with 0 by lia.
    rewrite firstn_firstn, Nat.min_l by lia. simpl. rewrite app_nil_r.
    rewrite skipn_app, Hlen, Nat.sub_diag. simpl.
    rewrite skipn_all2 by lia. simpl.
    rewrite !chars_append. unfold Js.slice. rewrite chars_substring.
    replace (start m) with (pos + (start m - pos)) at 1 by lia.
    rewrite firstn_add, <- app_assoc. reflexivity.
Qed.

Lemma before_chain (text : string) (ms : list PIIMatch) (pos : nat) :
  ForallOrdPairs before ms -> Forall (wellFormed text) ms ->
  Forall (fun m => pos <= start m) ms -> pos <= String.length text ->
  chain (String.length text) pos ms.
Proof.
  intros Hb. revert pos. induction Hb as [|m ms Hm Hb IH]; intros pos Hwf Hpos Hle; simpl.
  - exact Hle.
  - inversion Hwf as [|? ? [W1 [W2 W3]] Hwf']; subst.
    inversion Hpos; subst.
    split; [assumption|]. split; [lia|].
    apply IH; [exact Hwf' | exact Hm | exact W2].
Qed.

Lemma reverseOrder_rev (text : string) (ms : list PIIMatch) :
  ForallOrdPairs before ms -> Forall (wellFormed text) ms -> reverseOrder ms = rev ms.
Proof.
  intros Hb Hwf. unfold reverseOrder, Js.sort. apply stable_sort_rev.
  revert Hwf. induction Hb as [|m ms Hm Hb IH]; intros Hwf; constructor.
  - inversion Hwf as [|? ? [W1 _] Hwf']; subst.
    eapply Forall_impl; [|exact Hm]. intros b Hbm. unfold before in Hbm.
    rewrite diff_sign. apply Nat.leb_gt. lia.
  - apply IH. now inversion Hwf.
Qed.

(** The order in which the matches are spliced: an enumeration of the
    accepted matches with the highest start first. *)
Lemma reverseOrder_perm (ms : list PIIMatch) : Permutation (reverseOrder ms) ms.
Proof. apply stable_sort_perm. Qed.

Lemma reverseOrder_sorted (ms : list PIIMatch) :
  StronglySorted (fun a b => start b <= start a) (reverseOrder ms).
Proof.
  unfold reverseOrder, Js.sort.
  assert (S : StronglySorted (fun a b => Qle_bool (Js.diff (start b) (start a)) 0 = true)
                (Js.stable_sort (fun a b => Qle_bool (Js.diff (start b) (start a)) 0) ms)).
  { apply stable_sort_sorted with (leb := fun a b => Qle_bool (Js.diff (start b) (start a)) 0).
    - intros x y. cbv beta. rewrite !diff_sign, !Nat.leb_le. lia.
    - intros x y z. cbv beta. rewrite !diff_sign, !Nat.leb_le. lia. }
  induction S as [|x l Hs IH Hx]; constructor; [exact IH|].
  eapply Forall_impl; [|exact Hx]. intros b. cbv beta. rewrite diff_sign. apply Nat.leb_le.
Qed.

Section WithHost.
Context {host : Host}.

Lemma accepted_wf (text : string) (options : DetectOptions) :
  Forall (wellFormed text) (matches (detectPII text options)).
Proof.
  apply Forall_forall. intros m Hm. rewrite detectPII_matches in Hm.
  apply deduplicateMatches_In in Hm.
  pose proof (allMatches_wf text options) as H. rewrite Forall_forall in H. now apply H.
Qed.

(** [redactPII] is the splicing of every accepted match, in the order of
    [reverseOrder], with the replacement of each. *)
Lemma redactPII_fold (text : string) (options : RedactOptions) :
  redactPII text options
  = fold_left (fun t m => splice t m (replacementFor options m))
      (reverseOrder (matches (detectPII text noDetectOptions))) text.
Proof.
  unfold redactPII.
  destruct (matches (detectPII text noDetectOptions)) as [|m ms] eqn:E.
  - assert (H : hasPII (detectPII text noDetectOptions) = false).
    { unfold detectPII in *. simpl in *. now rewrite E. }
    rewrite H. reflexivity.
  - assert (H : hasPII (detectPII text noDetectOptions) = true).
    { unfold detectPII in *. simpl in *. now rewrite E. }
    rewrite H. reflexivity.
Qed.

Lemma redactPII_assemble (text : string) (options : RedactOptions) :
  redactPII text options
  = assemble text 0 (matches (detectPII text noDetectOptions)) (replacementFor options).
Proof.
  rewrite redactPII_fold.
  pose proof (accepted_wf text noDetectOptions) as Hwf.
  pose proof (deduplicateMatches_before (allMatches text noDetectOptions)) as Hb.
  rewrite <- detectPII_matches in Hb.
  rewrite (reverseOrder_rev text _ Hb Hwf).
  rewrite <- fold_left_rev_right, rev_involutive.
  apply chars_inj.
  rewrite (splice_right_assemble text (replacementFor options)
             (matches (detectPII text noDetectOptions)) 0).
  - reflexivity.
  - apply before_chain; [exact Hb | exact Hwf | | lia].
    apply Forall_forall. intros; lia.
Qed.

End WithHost.

End PiiFacts.

(* ===================================================================== *)
(** * A host to run the pipeline on *)
(* ===================================================================== *)

(** A host given by tables: which text each regular expression finds, the
    names and places the NLP library reports, and what each JSON or CSV text
    parses to.  It prints numbers exactly and rounds exactly. *)
Module Sample.

Import JsFacts.

Definition quote : string := String (ascii_of_nat 34) EmptyString.

Definition showNumber (n : JsNum) : string :=
  match n with
  | Num (Zpos p # 1) => Queue.string_of_nat (Pos.to_nat p)
  | Num (0 # 1) => "0"
  | _ => "NaN"
  end.

Definition readNumber (s : string) : JsNum :=
  match NilEmpty.uint_of_string s with
  | Some u => Num (inject_Z (Z.of_nat (Nat.of_uint u)))
  | None => NaN
  end.

(** A number as [JSON.stringify] prints it: [NaN], like the infinities, is
    printed [null]. *)
Definition jsonNumber (n : JsNum) : string :=
  match n with
  | NaN => "null"
  | Num _ => showNumber n
  end.

Definition showValue (v : JsValue) : string :=
  match v with
  | VBool true => "true"
  | VBool false => "false"
  | VNumber n => jsonNumber n
  | VString s => quote +++ s +++ quote
  | _ => "null"
  end.

Definition showRecord (r : JsObject) : string :=
  "{" +++ String.concat ","
            (map (fun kv => quote +++ fst kv +++ quote +++ ":" +++ showValue (snd kv)) r)
      +++ "}".

Definition showRecords (rs : list JsObject) : string :=
  "[" +++ String.concat "," (map showRecord rs) +++ "]".

Definition lookup (A : Type) (table : list (string * A)) (key : string) : Outcome A :=
  match find (fun kv => String.eqb (fst kv) key) table with
  | Some kv => Ok (snd kv)
  | None => Throw "Unexpected token"
  end.
Arguments lookup {A} table key.

(** [Math.round((p / total) * 100)] computed exactly. *)
Definition exactPercent (p total : nat) : nat := (200 * p + total) / (2 * total).

Section Tables.
Variable literals : list (string * string).
Variable people places : list string.
Variable documents : list (string * list JsObject).
Variable lines : list (string * JsObject).

Definition execAll (re : RegExp) (text : string) : list (nat * string) :=
  flat_map
    (fun sl =>
       if String.eqb (fst sl) (source re) then
         match snd sl with
         | EmptyString => []
         | String c l =>
             match Js.indexOf text (String c l) with
             | Some i => [(i, String c l)]
             | None => []
             end
         end
       else [])
    literals.

Lemma execAll_found (re : RegExp) (text : string) (i : nat) (v : string) :
  In (i, v) (execAll re text) -> 0 < String.length v /\ Js.indexOf text v = Some i.
Proof.
  unfold execAll. intros H. apply in_flat_map in H. destruct H as [[src lit] [_ H]].
  simpl in H. destruct (String.eqb src (source re)); [|destruct H].
  destruct lit as [|c l]; [destruct H|].
  destruct (Js.indexOf text (String c l)) as [j|] eqn:E; [|destruct H].
  destruct H as [H | []]. inversion H; subst. split; [simpl; lia | exact E].
Qed.

Lemma execAll_nonempty (re : RegExp) (text : string) (i : nat) (v : string) :
  In (i, v) (execAll re text) -> 0 < String.length v.
Proof. intros H. now apply execAll_found in H. Qed.

Lemma execAll_within (re : RegExp) (text : string) (i : nat) (v : string) :
  In (i, v) (execAll re text) -> i + String.length v <= String.length text.
Proof. intros H. apply execAll_found in H. destruct H. now apply indexOf_within. Qed.

Lemma exactPercent_mono (p q total : nat) :
  0 < total -> p <= q -> exactPercent p total <= exactPercent q total.
Proof.
  intros Ht Hpq. unfold exactPercent. apply Nat.Div0.div_le_mono. lia.
Qed.

Lemma exactPercent_all (total : nat) : 0 < total -> exactPercent total total = 100.
Proof.
  intros Ht. unfold exactPercent.
  replace (200 * total + total) with (total + 100 * (2 * total)) by lia.
  rewrite Nat.div_add by lia. rewrite Nat.div_small by lia. reflexivity.
Qed.

Definition host : Host :=
  mkHost execAll
    (fun text => filter (fun n => Js.includes text n) people)
    (fun text => filter (fun n => Js.includes text n) places)
    readNumber showNumber
    (lookup documents) (lookup lines) showRecords showRecord
    (lookup documents) showRecords
    exactPercent Queue.string_of_nat
    execAll_nonempty execAll_within exactPercent_mono exactPercent_all.

End Tables.

(** The pattern of [patterns] for a type. *)
Definition sourceOf (t : Pii.PIIType) : string :=
  match find (fun p => match Pii.pattern_type p, t with
                       | Pii.email, Pii.email | Pii.phone, Pii.phone | Pii.ssn, Pii.ssn
                       | Pii.url, Pii.url | Pii.ip_address, Pii.ip_address => true
                       | _, _ => false
                       end) Pii.patterns with
  | Some p => source (Pii.regex p)
  | None => ""
  end.

(** A host for which [http://example.com/jane@example.com] is a URL that
    holds an e-mail address. *)
Definition nested : Host :=
  host [(sourceOf Pii.email, "jane@example.com");
        (sourceOf Pii.url, "http://example.com/jane@example.com")]
       [] [] [] [].

(** A host that finds the e-mail address [jane@example.com], the URL
    [http://example.com] and the name [Jane Doe]. *)
Definition jane : Host :=
  host [(sourceOf Pii.email, "jane@example.com"); (sourceOf Pii.url, "http://example.com")]
       ["Jane Doe"] [] [] [].

End Sample.

Module PiiTheorems.

Import Pii PiiSpec PiiFacts.






End PiiTheorems.

(* ===================================================================== *)
(** * The record transformer: filters *)
(* ===================================================================== *)

Module FilterTheorems.

Import Queue.

Section WithHost.
Context {host : Host}.

(** A record passes one condition when [checkFilters] keeps it under that
    condition alone. *)
Definition satisfies (record : JsObject) (condition : FilterCondition) : Prop :=
  checkFilters record (Some [condition]) = true.

Lemma satisfies_rejects (record : JsObject) (condition : FilterCondition) :
  satisfies record condition <-> rejects (obj_get record (field condition)) condition = false.
Proof.
  unfold satisfies. simpl.
  destruct (rejects (obj_get record (field condition)) condition); split; congruence.
Qed.

Lemma checkConditions_Forall (record : JsObject) (conditions : list FilterCondition) :
  checkConditions record conditions = true <-> Forall (satisfies record) conditions.
Proof.
  induction conditions as [|c cs IH]; simpl.
  - split; [constructor | reflexivity].
  - split.
    + intros H. destruct (rejects (obj_get record (field c)) c) eqn:E; [discriminate|].
      constructor; [now apply satisfies_rejects | now apply IH].
    + intros H. inversion H as [|? ? Hc Hcs]; subst.
      apply satisfies_rejects in Hc. rewrite Hc. now apply IH.
Qed.

Lemma rejects_operator (value : JsValue) (condition : FilterCondition) :
  rejects value condition = true -> In (operator condition) operators.
Proof.
  unfold rejects, operators. intros H.
  repeat match type of H with
         | (if String.eqb ?a ?b then _ else _) = true =>
             let E := fresh "E" in
             destruct (String.eqb a b) eqn:E;
             [apply String.eqb_eq in E; rewrite E; simpl; tauto|]
         end.
  discriminate.
Qed.

Lemma operator_rejects (op : string) :
  In op operators ->
  exists record f v, checkFilters record (Some [mkCondition f op v]) = false.
Proof.
  unfold operators. simpl. intros [H | [H | [H | [H | [H | [H | []]]]]]]; subst op.
  - exists [], "f", (CString "x"). reflexivity.
  - exists [("f", VString "x")], "f", (CString "x"). reflexivity.
  - exists [], "f", (CString "x"). reflexivity.
  - exists [], "f", (CString "x"). reflexivity.
  - exists [], "f", (CString "x"). reflexivity.
  - exists [], "f", (CString "x"). reflexivity.
Qed.

End WithHost.

(** C3, as amended.  [checkFilters] keeps a record exactly when the record
    satisfies every condition, whatever the order of the conditions; the
    operators under which a condition can drop a record are exactly eq, ne,
    gt, lt, contains and not_contains; a gt or lt condition drops the record
    when the field value is not a number, and a contains or not_contains
    condition drops it when the field value is not a string. *)
Theorem checkFilters_conjunction {host : Host} (record : JsObject)
    (conditions reordered : list FilterCondition) :
  (checkFilters record (Some conditions) = true <-> Forall (satisfies record) conditions)
  /\ (Permutation conditions reordered ->
      checkFilters record (Some conditions) = checkFilters record (Some reordered))
  /\ (forall op,
        (exists r f v, checkFilters r (Some [mkCondition f op v]) = false)
        <-> In op ["eq"; "ne"; "gt"; "lt"; "contains"; "not_contains"])
  /\ (forall f op v,
        In op ["gt"; "lt"] -> typeof (obj_get record f) <> "number" ->
        checkFilters record (Some [mkCondition f op v]) = false)
  /\ (forall f op v,
        In op ["contains"; "not_contains"] -> typeof (obj_get record f) <> "string" ->
        checkFilters record (Some [mkCondition f op v]) = false).
Proof.
  split; [apply checkConditions_Forall|].
  split.
  { intros P. simpl.
    destruct (checkConditions record conditions) eqn:E1,
             (checkConditions record reordered) eqn:E2; try reflexivity.
    - apply checkConditions_Forall in E1.
      assert (F : Forall (satisfies record) reordered)
        by (eapply Permutation_Forall; [exact P | exact E1]).
      apply checkConditions_Forall in F. congruence.
    - apply checkConditions_Forall in E2.
      assert (F : Forall (satisfies record) conditions)
        by (eapply Permutation_Forall; [symmetry; exact P | exact E2]).
      apply checkConditions_Forall in F. congruence. }
  split.
  { intros op. split.
    - intros (r & f & v & H). simpl in H.
      destruct (rejects (obj_get r f) (mkCondition f op v)) eqn:E; [|discriminate].
      apply rejects_operator in E. exact E.
    - apply operator_rejects. }
  split.
  - intros f op v Hop Hty. simpl in Hop.
    destruct Hop as [Hop | [Hop | []]]; subst op; simpl; unfold rejects; simpl;
      destruct (obj_get record f); simpl in *; try reflexivity; now contradiction Hty.
  - intros f op v Hop Hty. simpl in Hop.
    destruct Hop as [Hop | [Hop | []]]; subst op; simpl; unfold rejects; simpl;
      destruct (obj_get record f); simpl in *; try reflexivity; now contradiction Hty.
Qed.

(** The example of the specification with the operator gt: a minor is
    dropped, an adult is kept, in either order of the conditions; and a
    record whose age is a string is dropped. *)
Lemma checkFilters_conjunction_witness :
  let adult := [("age", VNumber (Num 25)); ("country", VString "US")] in
  let minor := [("age", VNumber (Num 17)); ("country", VString "US")] in
  let conditions :=
    [mkCondition "age" "gt" (CNumber (Num 17)); mkCondition "country" "eq" (CString "US")] in
  checkFilters (host := Sample.jane) adult (Some conditions) = true
  /\ checkFilters (host := Sample.jane) minor (Some conditions) = false
  /\ checkFilters (host := Sample.jane) minor (Some conditions)
     = checkFilters (host := Sample.jane) minor (Some (rev conditions))
  /\ checkFilters (host := Sample.jane) [("age", VString "25")]
       (Some [mkCondition "age" "gt" (CNumber (Num 17))]) = false.
Proof.
  cbv zeta. split; [reflexivity|]. split; [reflexivity|]. split.
  - refine (proj1 (proj2 (checkFilters_conjunction (host := Sample.jane) _ _ _)) _).
    apply Permutation_rev.
  - refine (proj1 (proj2 (proj2 (proj2
              (checkFilters_conjunction (host := Sample.jane)
                 [("age", VString "25")] [] [])))) "age" "gt" _ _ _).
    + left. reflexivity.
    + discriminate.
Defined.

(** C3 as stated fails for gte and lte: no [case] of the [switch] names
    them, so a gte condition drops neither the minor of the specification's
    example nor a record whose age is not a number. *)
Lemma checkFilters_gte_counterexample :
  let minor := [("age", VNumber (Num 17)); ("country", VString "US")] in
  let conditions :=
    [mkCondition "age" "gte" (CNumber (Num 18)); mkCondition "country" "eq" (CString "US")] in
  checkFilters (host := Sample.jane) minor (Some conditions) = true
  /\ typeof (obj_get [("age", VString "old")] "age") = "string"
  /\ checkFilters (host := Sample.jane) [("age", VString "old")]
       (Some [mkCondition "age" "gte" (CNumber (Num 18))]) = true
  /\ checkFilters (host := Sample.jane) [("age", VString "old")]
       (Some [mkCondition "age" "lte" (CNumber (Num 18))]) = true.
Proof. cbv zeta. repeat split. Qed.

End FilterTheorems.

(* ===================================================================== *)
(** * The run of one job *)
(* ===================================================================== *)

Module QueueFacts.

Import Queue.

(** ** Reading the tables through the updates of a step *)

Lemma find_update (j : nat) (set : JobRow -> JobRow) (rows : list JobRow) :
  (forall r, job_id (set r) = job_id r) ->
  find (fun r => job_id r =? j) (map (fun r => if job_id r =? j then set r else r) rows)
  = option_map set (find (fun r => job_id r =? j) rows).
Proof.
  intros Hid. induction rows as [|r rows IH]; simpl; [reflexivity|].
  destruct (job_id r =? j) eqn:E.
  - rewrite Hid, E. reflexivity.
  - rewrite E. exact IH.
Qed.

Lemma select_update (j : nat) (set : JobRow -> JobRow) (w : World) :
  (forall r, job_id (set r) = job_id r) ->
  select_job j (update_job j set w) = option_map set (select_job j w).
Proof. intros H. unfold select_job, update_job. simpl. now apply find_update. Qed.

Section WithHost.
Context {host : Host}.

Lemma select_addLog (j k : nat) (message : string) (w : World) :
  select_job j (addLog k message w) = select_job j w.
Proof. reflexivity. Qed.

Lemma aborted_addLog (c k : nat) (message : string) (w : World) :
  aborted c (addLog k message w) = aborted c w.
Proof. reflexivity. Qed.

Lemma aborted_update (c j : nat) (set : JobRow -> JobRow) (w : World) :
  aborted c (update_job j set w) = aborted c w.
Proof. reflexivity. Qed.

Lemma aborted_emit (c : nat) (e : Event) (w : World) : aborted c (emit e w) = aborted c w.
Proof. reflexivity. Qed.

Lemma select_emit (j : nat) (e : Event) (w : World) : select_job j (emit e w) = select_job j w.
Proof. reflexivity. Qed.

Lemma select_with_datasets (j : nat) (v : list DatasetRow) (w : World) :
  select_job j (with_datasets v w) = select_job j w.
Proof. reflexivity. Qed.

Lemma select_with_bucket (j : nat) (v : list (string * string)) (w : World) :
  select_job j (with_bucket v w) = select_job j w.
Proof. reflexivity. Qed.

Lemma select_with_activeJobs (j : nat) (v : list (nat * nat)) (w : World) :
  select_job j (with_activeJobs v w) = select_job j w.
Proof. reflexivity. Qed.

Lemma select_with_controllers (j : nat) (v : list bool) (w : World) :
  select_job j (with_controllers v w) = select_job j w.
Proof. reflexivity. Qed.

Lemma select_finally (j k : nat) (w : World) : select_job j (finallyBlock k w) = select_job j w.
Proof. reflexivity. Qed.

Lemma source_addLog (d k : nat) (message : string) (w : World) :
  select_dataSource d (addLog k message w) = select_dataSource d w.
Proof. reflexivity. Qed.

Lemma source_update (d j : nat) (set : JobRow -> JobRow) (w : World) :
  select_dataSource d (update_job j set w) = select_dataSource d w.
Proof. reflexivity. Qed.

Lemma source_with_activeJobs (d : nat) (v : list (nat * nat)) (w : World) :
  select_dataSource d (with_activeJobs v w) = select_dataSource d w.
Proof. reflexivity. Qed.

Lemma source_with_controllers (d : nat) (v : list bool) (w : World) :
  select_dataSource d (with_controllers v w) = select_dataSource d w.
Proof. reflexivity. Qed.

Lemma download_addLog (key : string) (k : nat) (message : string) (w : World) :
  downloadFile key (addLog k message w) = downloadFile key w.
Proof. reflexivity. Qed.

Lemma download_update (key : string) (j : nat) (set : JobRow -> JobRow) (w : World) :
  downloadFile key (update_job j set w) = downloadFile key w.
Proof. reflexivity. Qed.

Lemma download_with_activeJobs (key : string) (v : list (nat * nat)) (w : World) :
  downloadFile key (with_activeJobs v w) = downloadFile key w.
Proof. reflexivity. Qed.

Lemma download_with_controllers (key : string) (v : list bool) (w : World) :
  downloadFile key (with_controllers v w) = downloadFile key w.
Proof. reflexivity. Qed.

Lemma aborted_with_activeJobs (c : nat) (v : list (nat * nat)) (w : World) :
  aborted c (with_activeJobs v w) = aborted c w.
Proof. reflexivity. Qed.

Lemma aborted_with_datasets (c : nat) (v : list DatasetRow) (w : World) :
  aborted c (with_datasets v w) = aborted c w.
Proof. reflexivity. Qed.

Lemma aborted_with_bucket (c : nat) (v : list (string * string)) (w : World) :
  aborted c (with_bucket v w) = aborted c w.
Proof. reflexivity. Qed.

Lemma logs_update (j : nat) (set : JobRow -> JobRow) (w : World) :
  jobLogs (update_job j set w) = jobLogs w.
Proof. reflexivity. Qed.

Lemma logs_emit (e : Event) (w : World) : jobLogs (emit e w) = jobLogs w.
Proof. reflexivity. Qed.

Lemma logs_with_datasets (v : list DatasetRow) (w : World) :
  jobLogs (with_datasets v w) = jobLogs w.
Proof. reflexivity. Qed.

Lemma logs_with_bucket (v : list (string * string)) (w : World) :
  jobLogs (with_bucket v w) = jobLogs w.
Proof. reflexivity. Qed.

Lemma logs_finally (k : nat) (w : World) : jobLogs (finallyBlock k w) = jobLogs w.
Proof. reflexivity. Qed.


(** ** The log *)

Lemma map_get_set (V : Type) (m : list (nat * V)) (k : nat) (v : V) :
  map_get (map_set m k v) k = Some v.
Proof.
  induction m as [|[k' v'] m IH]; simpl.
  - now rewrite Nat.eqb_refl.
  - destruct (k' =? k) eqn:E; simpl.
    + now rewrite Nat.eqb_refl.
    + now rewrite E.
Qed.

(** The lines last written, fewer than the cap, stay in the log when a
    line is added. *)
Lemma addLog_logs (k : nat) (message : string) (w : World) :
  map_get (jobLogs (addLog k message w)) k
  = Some (limitLog (match map_get (jobLogs w) k with Some l => l | None => [] end
                    ++ [logLine message w])).
Proof. unfold addLog. cbv zeta. unfold with_jobLogs. cbn [jobLogs]. apply map_get_set. Qed.

Lemma addLog_suffix (k : nat) (message : string) (w : World) (older recent : list string) :
  match map_get (jobLogs w) k with Some l => l | None => [] end = older ++ recent ->
  List.length recent < 1000 ->
  exists older',
    map_get (jobLogs (addLog k message w)) k = Some (older' ++ recent ++ [logLine message w]).
Proof.
  intros E Hlen. rewrite addLog_logs, E. unfold limitLog.
  generalize (logLine message w). intros line.
  destruct (1000 <? List.length ((older ++ recent) ++ [line])) eqn:C.
  - exists (skipn (List.length ((older ++ recent) ++ [line]) - 1000) older).
    f_equal. rewrite <- !app_assoc. rewrite skipn_app.
    replace (List.length (older ++ recent ++ [line]) - 1000 - List.length older)
      with 0; [reflexivity|].
    rewrite !length_app. simpl. lia.
  - exists older. now rewrite <- app_assoc.
Qed.

Lemma addLog_last (k : nat) (message : string) (w : World) :
  exists older, map_get (jobLogs (addLog k message w)) k = Some (older ++ [logLine message w]).
Proof.
  destruct (addLog_suffix k message w
              (match map_get (jobLogs w) k with Some l => l | None => [] end) [])
    as [older H]; [now rewrite app_nil_r | simpl; lia |].
  exists older. exact H.
Qed.

Lemma addLog_clock (k : nat) (message : string) (w : World) : clock (addLog k message w) = clock w.
Proof. reflexivity. Qed.

Lemma last_default (A : Type) (l : list A) (d d' : A) : l <> [] -> last l d = last l d'.
Proof.
  induction l as [|x l IH]; intros H; [now contradiction H|].
  destruct l as [|y l]; [reflexivity|]. apply IH. discriminate.
Qed.

(** ** The loop, one batch at a time *)

Variable L : Locals.

Let N := List.length (l_records L).
Let B := l_batchSize L.
Let j := l_jobId L.

(** What the batch at [i] writes to the row. *)
Definition batchEnd (i : nat) : nat := i + List.length (firstn B (skipn i (l_records L))).

Definition writeProgress (i : nat) (r : JobRow) : JobRow :=
  set_processedRecords (Some (batchEnd i)) (set_progress (roundPercent (batchEnd i) N) r).

Lemma batchEnd_min (i : nat) : i <= N -> batchEnd i = Nat.min (i + B) N.
Proof.
  intros H. unfold batchEnd. rewrite length_firstn, length_skipn. fold N. lia.
Qed.

Lemma loopFrom_batch (i : nat) (acc : list JsObject) (pii : nat) (w : World) :
  i < N -> aborted (l_controller L) w = false ->
  loopFrom L i acc pii w
  = (update_job j (writeProgress i)
       (addLog j ("Processing batch " +++ string_of_nat (i / B + 1) +++ "...") w),
     ProgressWritten L i (List.length (firstn B (skipn i (l_records L))))
       (roundPercent (batchEnd i) N)
       (fst (processBatch (l_config L) (firstn B (skipn i (l_records L))) (acc, pii)))
       (snd (processBatch (l_config L) (firstn B (skipn i (l_records L))) (acc, pii)))).
Proof.
  intros Hi Hab. unfold loopFrom.
  apply Nat.ltb_lt in Hi. fold N in Hi |- *. rewrite Hi, Hab. reflexivity.
Qed.

Lemma loopFrom_cancelled (i : nat) (acc : list JsObject) (pii : nat) (w : World) :
  i < N -> aborted (l_controller L) w = true ->
  loopFrom L i acc pii w = catchError j "Job cancelled" w.
Proof.
  intros Hi Hab. unfold loopFrom.
  apply Nat.ltb_lt in Hi. fold N in Hi |- *. rewrite Hi, Hab. reflexivity.
Qed.

Definition completeLine (acc : list JsObject) (pii : nat) : string :=
  "Processing complete. " +++ string_of_nat (List.length acc)
  +++ " records processed, " +++ string_of_nat pii +++ " PII detections".

Definition outputKeyOf : string :=
  replaceExtension (replaceSources (l_sourceKey L)) (outputFormat (l_config L)).

Lemma loopFrom_exit (i : nat) (acc : list JsObject) (pii : nat) (w : World) (out : string) :
  N <= i -> convertToOutputFormat acc (outputFormat (l_config L)) = Ok out ->
  loopFrom L i acc pii w
  = (with_bucket
       (put_object (bucket w) outputKeyOf out)
       (addLog j "Uploading output file..." (addLog j (completeLine acc pii) w)),
     Uploaded L acc out outputKeyOf).
Proof.
  intros Hi Hc. unfold loopFrom.
  apply Nat.ltb_ge in Hi. fold N in Hi |- *. rewrite Hi, Hc. reflexivity.
Qed.

(** ** The loop as a whole *)

(** The batches begun from offset [i] on. *)
Fixpoint batchesFrom (fuel i : nat) : nat :=
  match fuel with
  | O => 0
  | S fuel' => if i <? N then S (batchesFrom fuel' (i + B)) else 0
  end.

(** The row after each batch from offset [i] on, and once more as the
    upload leaves it. *)
Fixpoint rowsFrom (fuel i : nat) (row : JobRow) : list JobRow :=
  match fuel with
  | O => [row]
  | S fuel' =>
      if i <? N then writeProgress i row :: rowsFrom fuel' (i + B) (writeProgress i row)
      else [row]
  end.

Lemma run_step (n : nat) (t : Task) (w : World) :
  t <> Done -> run (S n) t w = run n (snd (step t w)) (fst (step t w)).
Proof. intros H. destruct t; try reflexivity. now contradiction H. Qed.

Lemma observations_step (n k : nat) (t : Task) (w : World) :
  t <> Done ->
  observations (S n) k t w
  = select_job k (fst (step t w)) :: observations n k (snd (step t w)) (fst (step t w)).
Proof. intros H. destruct t; try reflexivity. now contradiction H. Qed.

Lemma run_add (a b : nat) (t : Task) (w : World) :
  run (a + b) t w = run b (snd (run a t w)) (fst (run a t w)).
Proof.
  revert t w. induction a as [|a IH]; intros t w; simpl; [reflexivity|].
  destruct t; try apply IH. destruct b; reflexivity.
Qed.

Lemma observations_add (a b k : nat) (t : Task) (w : World) :
  observations (a + b) k t w
  = observations a k t w ++ observations b k (snd (run a t w)) (fst (run a t w)).
Proof.
  revert t w. induction a as [|a IH]; intros t w; simpl; [reflexivity|].
  destruct t; try (simpl; f_equal; apply IH). destruct b; reflexivity.
Qed.

Lemma processBatch_app (config : ProcessingJobConfig) (a b : list JsObject)
    (st : list JsObject * nat) :
  processBatch config (a ++ b) st = processBatch config b (processBatch config a st).
Proof. unfold processBatch. apply fold_left_app. Qed.

Lemma writeProgress_id (i : nat) (r : JobRow) : job_id (writeProgress i r) = job_id r.
Proof. reflexivity. Qed.

Lemma step_ProgressWritten (i len p : nat) (acc : list JsObject) (pii : nat) (w : World) :
  step (ProgressWritten L i len p acc pii) w
  = loopFrom L (i + B) acc pii (emit (EvProgress j p (i + len) N) w).
Proof. reflexivity. Qed.

(** From a call of [loopFrom] that no one cancels, the loop runs its
    batches and ends with the upload of what the whole rest of the records
    gives; the last two lines of the job's log are the summary of the
    processing and the announcement of the upload. *)
Lemma loop_runs (encode : list JsObject -> string) :
  0 < B ->
  (forall acc, convertToOutputFormat acc (outputFormat (l_config L)) = Ok (encode acc)) ->
  forall (fuel i : nat) (acc : list JsObject) (pii : nat) (w : World) (row : JobRow),
    N - i <= fuel ->
    aborted (l_controller L) w = false ->
    select_job j w = Some row ->
    let r := loopFrom L i acc pii w in
    let st := processBatch (l_config L) (skipn i (l_records L)) (acc, pii) in
    let k := batchesFrom fuel i in
    snd (run k (snd r) (fst r)) = Uploaded L (fst st) (encode (fst st)) outputKeyOf
    /\ select_job j (fst r) :: observations k j (snd r) (fst r)
       = map Some (rowsFrom fuel i row)
    /\ select_job j (fst (run k (snd r) (fst r))) = Some (last (rowsFrom fuel i row) row)
    /\ (exists older stamp,
          map_get (jobLogs (fst (run k (snd r) (fst r)))) j
          = Some (older ++ [ "[" +++ stamp +++ "] " +++ completeLine (fst st) (snd st);
                             "[" +++ stamp +++ "] " +++ "Uploading output file..." ])).
Proof.
  intros HB Henc.
  assert (Exit : forall i acc pii w row,
             N <= i -> select_job j w = Some row ->
             let r := loopFrom L i acc pii w in
             let st := processBatch (l_config L) (skipn i (l_records L)) (acc, pii) in
             snd r = Uploaded L (fst st) (encode (fst st)) outputKeyOf
             /\ select_job j (fst r) = Some row
             /\ (exists older stamp,
                   map_get (jobLogs (fst r)) j
                   = Some (older ++ [ "[" +++ stamp +++ "] " +++ completeLine (fst st) (snd st);
                                      "[" +++ stamp +++ "] " +++ "Uploading output file..." ]))).
  { intros i acc pii w row Hi Hrow. cbv zeta.
    rewrite (loopFrom_exit i acc pii w (encode acc) Hi (Henc acc)).
    rewrite skipn_all2 by (fold N; lia). cbn [fst snd processBatch fold_left].
    split; [reflexivity|]. split; [exact Hrow|].
    destruct (addLog_last j (completeLine acc pii) w) as [older H1].
    destruct (addLog_suffix j "Uploading output file..." (addLog j (completeLine acc pii) w)
                older [logLine (completeLine acc pii) w]) as [older' H2].
    { now rewrite H1. }
    { simpl. lia. }
    exists older', (toISOString (clock w)). exact H2. }
  induction fuel as [|fuel IH]; intros i acc pii w row Hfuel Hab Hrow.
  - cbv zeta. cbn [batchesFrom rowsFrom run observations map last].
    destruct (Exit i acc pii w row ltac:(lia) Hrow) as (E1 & E2 & E3).
    split; [exact E1|]. split; [now rewrite E2|]. split; [exact E2 | exact E3].
  - cbv zeta. cbn [batchesFrom rowsFrom].
    destruct (i <? N) eqn:Ei.
    + apply Nat.ltb_lt in Ei.
      rewrite (loopFrom_batch i acc pii w Ei Hab). cbn [fst snd].
      rewrite run_step by discriminate. rewrite observations_step by discriminate.
      rewrite step_ProgressWritten.
      set (batch := firstn B (skipn i (l_records L))).
      set (w1 := update_job j (writeProgress i)
                   (addLog j ("Processing batch " +++ string_of_nat (i / B + 1) +++ "...") w)).
      set (st1 := processBatch (l_config L) batch (acc, pii)).
      set (ev := EvProgress j (roundPercent (batchEnd i) N) (i + List.length batch) N).
      assert (Hrow1 : select_job j (emit ev w1) = Some (writeProgress i row)).
      { unfold w1. rewrite select_emit, select_update by apply writeProgress_id.
        rewrite select_addLog, Hrow. reflexivity. }
      assert (Hrest : processBatch (l_config L) (skipn (i + B) (l_records L)) (fst st1, snd st1)
                      = processBatch (l_config L) (skipn i (l_records L)) (acc, pii)).
      { rewrite <- surjective_pairing. unfold st1, batch.
        rewrite <- processBatch_app. f_equal.
        replace (skipn (i + B) (l_records L)) with (skipn B (skipn i (l_records L)))
          by (rewrite skipn_skipn; f_equal; lia).
        apply firstn_skipn. }
      specialize (IH (i + B) (fst st1) (snd st1) (emit ev w1) (writeProgress i row)
                     ltac:(lia) Hab Hrow1).
      cbv zeta in IH. rewrite Hrest in IH.
      destruct IH as (I1 & I2 & I3 & I4).
      split; [exact I1|]. split.
      * cbn [map]. f_equal.
        -- unfold w1. rewrite select_update by apply writeProgress_id.
           rewrite select_addLog, Hrow. reflexivity.
        -- exact I2.
      * split; [|exact I4].
        rewrite I3. destruct (rowsFrom fuel (i + B) (writeProgress i row)) eqn:R.
        -- destruct fuel; simpl in R; [discriminate|].
           destruct (i + B <? N); discriminate.
        -- change (last (writeProgress i row :: j0 :: l) row) with (last (j0 :: l) row).
           f_equal. apply last_default. discriminate.
    + apply Nat.ltb_ge in Ei. cbn [run observations map last].
      destruct (Exit i acc pii w row Ei Hrow) as (E1 & E2 & E3).
      split; [exact E1|]. split; [now rewrite E2|]. split; [exact E2 | exact E3].
Qed.

End WithHost.

(** ** What the loop writes to the row *)

Section Rows.
Context {host : Host}.
Variable L : Locals.

Let N := List.length (l_records L).
Let B := l_batchSize L.

(** A row with its progress fields blanked: what the loop leaves alone. *)
Definition blank (r : JobRow) : JobRow := set_processedRecords None (set_progress 0 r).

Lemma batchEnd_le (i : nat) : batchEnd L i <= i + B.
Proof. unfold batchEnd. rewrite length_firstn. fold B. lia. Qed.

Lemma batchEnd_ge (i : nat) : i <= batchEnd L i.
Proof. unfold batchEnd. lia. Qed.

Lemma batchEnd_bound (i : nat) : i <= N -> batchEnd L i <= N.
Proof. intros H. rewrite batchEnd_min by exact H. apply Nat.le_min_r. Qed.

Lemma rowsFrom_blank (fuel i : nat) (row : JobRow) :
  Forall (fun r => blank r = blank row) (rowsFrom L fuel i row).
Proof.
  revert i row. induction fuel as [|fuel IH]; intros i row; simpl.
  - now repeat constructor.
  - destruct (i <? List.length (l_records L)); [|now repeat constructor].
    constructor; [reflexivity|].
    eapply Forall_impl; [|apply IH]. intros r Hr. rewrite Hr. reflexivity.
Qed.

Lemma rowsFrom_sorted (fuel i : nat) (row : JobRow) :
  (i < N -> progress row <= roundPercent (batchEnd L i) N) ->
  Sorted le (progress row :: map progress (rowsFrom L fuel i row)).
Proof.
  revert i row. induction fuel as [|fuel IH]; intros i row Hlow; simpl.
  - repeat constructor.
  - destruct (i <? List.length (l_records L)) eqn:Ei.
    + apply Nat.ltb_lt in Ei. fold N in Ei.
      constructor.
      * apply IH. intros Hnext. simpl.
        apply roundPercent_mono; [lia|].
        pose proof (batchEnd_le i) as H1. pose proof (batchEnd_ge (i + B)) as H2.
        unfold B in H1, H2 |- *. lia.
      * constructor. simpl. fold N. now apply Hlow.
    + repeat constructor.
Qed.

Lemma rowsFrom_percent (fuel i : nat) (row : JobRow) :
  i <= N -> progress row <= 100 ->
  Forall (fun r => progress r <= 100) (rowsFrom L fuel i row).
Proof.
  revert i row. induction fuel as [|fuel IH]; intros i row Hi Hp; simpl.
  - constructor; [exact Hp | constructor].
  - destruct (i <? List.length (l_records L)) eqn:Ei; [|constructor; [exact Hp | constructor]].
    apply Nat.ltb_lt in Ei. fold N in Ei.
    assert (Hw : progress (writeProgress L i row) <= 100).
    { simpl. fold N. rewrite <- (@roundPercent_all host N) by lia.
      apply roundPercent_mono; [lia|]. apply batchEnd_bound. lia. }
    constructor; [exact Hw|].
    destruct (Nat.le_gt_cases (i + B) N) as [Hle | Hgt].
    + apply IH; [exact Hle | exact Hw].
    + destruct fuel as [|fuel']; simpl; [constructor; [exact Hw | constructor]|].
      replace (i + l_batchSize L <? List.length (l_records L)) with false
        by (symmetry; apply Nat.ltb_ge; unfold N, B in Hgt; lia).
      constructor; [exact Hw | constructor].
Qed.

(** The batch numbered [k] (from 0) starts at [k * B], and after it the row
    holds the records processed so far and their share of the total. *)
Lemma rowsFrom_nth (fuel i k : nat) (row : JobRow) :
  k < batchesFrom L fuel i ->
  exists r,
    nth_error (rowsFrom L fuel i row) k = Some r
    /\ i + k * B < N
    /\ processedRecords r = Some (batchEnd L (i + k * B))
    /\ progress r = roundPercent (batchEnd L (i + k * B)) N.
Proof.
  revert i k row. induction fuel as [|fuel IH]; intros i k row Hk; simpl in Hk; [lia|].
  simpl. destruct (i <? List.length (l_records L)) eqn:Ei; [|lia].
  apply Nat.ltb_lt in Ei. destruct k as [|k].
  - exists (writeProgress L i row). simpl. rewrite Nat.add_0_r. fold N. now repeat split.
  - destruct (IH (i + l_batchSize L) k (writeProgress L i row) ltac:(lia)) as (r & H1 & H2 & H3 & H4).
    exists r. simpl. unfold B in H2, H3, H4 |- *.
    replace (i + (l_batchSize L + k * l_batchSize L))
      with (i + l_batchSize L + k * l_batchSize L) by lia. now repeat split.
Qed.

Lemma rowsFrom_last (fuel i : nat) (row : JobRow) :
  In (last (rowsFrom L fuel i row) row) (rowsFrom L fuel i row).
Proof.
  assert (H : rowsFrom L fuel i row <> []).
  { destruct fuel; simpl; [discriminate|].
    destruct (i <? List.length (l_records L)); discriminate. }
  destruct (exists_last H) as (l' & a & E). rewrite E, last_last.
  apply in_or_app. right. now left.
Qed.

Lemma rowsFrom_length (fuel i : nat) (row : JobRow) :
  List.length (rowsFrom L fuel i row) = S (batchesFrom L fuel i).
Proof.
  revert i row. induction fuel as [|fuel IH]; intros i row; simpl; [reflexivity|].
  destruct (i <? List.length (l_records L)); simpl; [now rewrite IH | reflexivity].
Qed.

End Rows.

(** ** What the records give *)

Section Records.
Context {host : Host}.
Variable config : ProcessingJobConfig.

(** The record after the field mappings, if any. *)
Definition mapped (record : JsObject) : JsObject :=
  match fieldMappings config with
  | Some m => applyFieldMappings record m
  | None => record
  end.

(** The record survives the filter conditions, if any. *)
Definition survives (record : JsObject) : bool :=
  match filterConditions config with
  | Some cs => checkFilters (mapped record) (Some cs)
  | None => true
  end.

(** A field whose value is a string in which the detector finds a match. *)
Definition detectedField (entry : string * JsValue) : bool :=
  match snd entry with
  | VString value => Pii.hasPII (Pii.detectPII value Pii.noDetectOptions)
  | _ => false
  end.

(** The detections counted in one record: one per detected field of a
    record that survives, when the PII pass is on. *)
Definition detectionsIn (record : JsObject) : nat :=
  if survives record && (enablePiiDetection config || enablePiiRedaction config)
  then List.length (filter detectedField (mapped record))
  else 0.

Lemma piiField_count (entries : list (string * JsValue)) (rec : JsObject) (n : nat) :
  snd (fold_left (piiField config) entries (rec, n))
  = n + List.length (filter detectedField entries).
Proof.
  revert rec n. induction entries as [|e entries IH]; intros rec n; simpl; [lia|].
  unfold piiField at 2, detectedField at 1. cbn [fst snd].
  destruct (snd e) as [| |b|x|value|a|o]; try (rewrite IH; lia).
  destruct (Pii.hasPII (Pii.detectPII value Pii.noDetectOptions)).
  - rewrite IH. simpl. lia.
  - rewrite IH. lia.
Qed.

Lemma processRecord_spec (record : JsObject) (pii : nat) :
  snd (processRecord config record pii) = pii + detectionsIn record
  /\ (survives record = true <-> exists r, fst (processRecord config record pii) = Some r)
  /\ (survives record = false <-> fst (processRecord config record pii) = None).
Proof.
  unfold processRecord, detectionsIn, survives, mapped.
  destruct (fieldMappings config) as [m|];
    destruct (filterConditions config) as [cs|]; cbn [negb];
    try destruct (checkFilters _ (Some cs)); cbn [negb andb fst snd];
    destruct (enablePiiDetection config || enablePiiRedaction config); cbn [fst snd];
    try rewrite piiField_count;
    (split; [lia|]); split; split; try discriminate; try reflexivity;
      try (intros _; eexists; reflexivity); try (intros [r Hr]; discriminate).
Qed.

Lemma processBatch_spec (batch : list JsObject) (acc : list JsObject) (pii : nat) :
  List.length (fst (processBatch config batch (acc, pii)))
  = List.length acc + List.length (filter survives batch)
  /\ snd (processBatch config batch (acc, pii)) = pii + list_sum (map detectionsIn batch).
Proof.
  revert acc pii. induction batch as [|r batch IH]; intros acc pii.
  - simpl. lia.
  - change (processBatch config (r :: batch) (acc, pii))
      with (processBatch config batch
              (match processRecord config r pii with
               | (Some x, n) => (acc ++ [x], n)
               | (None, n) => (acc, n)
               end)).
    destruct (processRecord_spec r pii) as (Hn & Hs & Hd).
    destruct (processRecord config r pii) as [[x|] n] eqn:E; cbn [fst snd] in *.
    + destruct (IH (acc ++ [x]) n) as [I1 I2]. rewrite I1, I2.
      assert (Hsv : survives r = true) by (apply Hs; now exists x).
      simpl. rewrite Hsv, length_app. simpl. lia.
    + destruct (IH acc n) as [I1 I2]. rewrite I1, I2.
      assert (Hsv : survives r = false) by now apply Hd.
      simpl. rewrite Hsv. lia.
Qed.

End Records.

Create Rewrite HintDb world.
#[local] Hint Rewrite @select_addLog @select_emit @select_with_datasets @select_with_bucket
  @select_with_activeJobs @select_with_controllers @select_finally
  @source_addLog @source_update @source_with_activeJobs @source_with_controllers
  @download_addLog @download_update @download_with_activeJobs @download_with_controllers
  @aborted_addLog @aborted_update @aborted_emit @aborted_with_activeJobs @aborted_with_datasets
  @aborted_with_bucket
  @logs_update @logs_emit @logs_with_datasets @logs_with_bucket @logs_finally : world.

(** ** A job that nothing interrupts and nothing fails *)

Section Success.
Context {host : Host}.

Variable w0 : World.
Variable jobId : nat.
Variable job : JobRow.
Variable dataSource : DataSourceRow.
Variable sourceKey sourceData : string.
Variable records : list JsObject.

(** The job and its data source are in their tables, the source file is
    in the bucket and decodes to [records], and the output format is one
    that [convertToOutputFormat] knows. *)
Definition ready : Prop :=
  select_job jobId w0 = Some job
  /\ select_dataSource (job_dataSourceId job) w0 = Some dataSource
  /\ s3Key dataSource = Some sourceKey
  /\ sourceKey <> EmptyString
  /\ downloadFile sourceKey w0 = Ok sourceData
  /\ parseSourceData sourceData (ds_format dataSource) = Ok records
  /\ In (outputFormat (parseConfig job)) ["json"; "jsonl"; "csv"].

(** The row as [processJob] first writes it, and with the total. *)
Definition started : JobRow :=
  set_progress 0 (set_startedAt (Some (clock w0)) (set_status processing job)).

Definition counted : JobRow := set_totalRecords (Some (List.length records)) started.

(** The locals of the call. *)
Definition locals : Locals :=
  mkLocals jobId (List.length (controllers w0)) started dataSource (parseConfig job)
    sourceKey records (batchSizeOf (parseConfig job)).

(** What the whole of the records gives: [processedRecords] and
    [piiDetections] at the end of the loop. *)
Definition outcome : list JsObject * nat := processBatch (parseConfig job) records ([], 0).

Definition batches : nat := batchesFrom locals (List.length records) 0.

(** The row as the loop leaves it, and as the completion writes it. *)
Definition looped : JobRow :=
  last (rowsFrom locals (List.length records) 0 counted) counted.

Definition finished (at_ : nat) : JobRow :=
  set_completedAt (Some at_)
    (set_processedRecords (Some (List.length (fst outcome)))
       (set_progress 100 (set_status completed looped))).

Lemma batchSizeOf_pos (c : ProcessingJobConfig) : 0 < batchSizeOf c.
Proof. unfold batchSizeOf. destruct (batchSize c) as [[|b]|]; lia. Qed.

Lemma convert_total (format : string) :
  In format ["json"; "jsonl"; "csv"] ->
  exists encode, forall acc, convertToOutputFormat acc format = Ok (encode acc).
Proof.
  intros [H | [H | [H | []]]]; subst format; eexists; intros acc; reflexivity.
Qed.

Lemma aborted_fresh (w : World) :
  aborted (List.length (controllers w)) (with_controllers (controllers w ++ [false]) w) = false.
Proof.
  unfold aborted. simpl. rewrite app_nth2 by lia. now rewrite Nat.sub_diag.
Qed.

Lemma run_completes :
  ready ->
  exists (wf : World) (at_ : nat),
    run (batches + 9) (Start jobId) w0 = (wf, Done)
    /\ select_job jobId wf = Some (finished at_)
    /\ observations (batches + 9) jobId (Start jobId) w0
       = map Some ([started; started; started; started; counted]
                   ++ rowsFrom locals (List.length records) 0 counted
                   ++ [looped; finished at_; finished at_])
    /\ (exists older stamp stamp' dataset,
          map_get (jobLogs wf) jobId
          = Some (older
                  ++ [ "[" +++ stamp +++ "] " +++ completeLine (fst outcome) (snd outcome);
                       "[" +++ stamp +++ "] " +++ "Uploading output file...";
                       "[" +++ stamp' +++ "] " +++ "Job completed successfully. Dataset ID: "
                                        +++ string_of_nat dataset ])).
Proof.
  intros (Hjob & Hds & Hkey & Hne & Hdl & Hparse & Hfmt).
  destruct (convert_total _ Hfmt) as [encode Henc].
  destruct sourceKey as [|kc ks] eqn:Ek; [now contradiction Hne|]. rewrite <- Ek in *.
  set (c := List.length (controllers w0)).
  (* the pieces before the loop *)
  set (w1 := update_job jobId
               (fun r => set_progress 0 (set_startedAt (Some (clock w0)) (set_status processing r)))
               (with_activeJobs (map_set (activeJobs w0) jobId c)
                  (with_controllers (controllers w0 ++ [false]) w0))).
  assert (S1 : step (Start jobId) w0 = (w1, MarkedProcessing jobId c)) by reflexivity.
  assert (R1 : select_job jobId w1 = Some started).
  { unfold w1. rewrite select_update by reflexivity. autorewrite with world.
    now rewrite Hjob. }
  assert (A1 : aborted c w1 = false).
  { unfold w1. autorewrite with world. apply aborted_fresh. }
  set (w2 := addLog jobId "Processing started" w1).
  assert (R2 : select_job jobId w2 = Some started).
  { unfold w2. now autorewrite with world. }
  assert (S2 : step (MarkedProcessing jobId c) w1 = (w2, JobSelected jobId c (Some started))).
  { rewrite <- R2. reflexivity. }
  assert (D2 : select_dataSource (job_dataSourceId started) w2 = Some dataSource).
  { unfold w2, w1. autorewrite with world. exact Hds. }
  assert (S3 : step (JobSelected jobId c (Some started)) w2
               = (w2, SourceSelected jobId c started (Some dataSource))).
  { rewrite <- D2. reflexivity. }
  set (w4 := addLog jobId "Downloading source file..."
               (addLog jobId ("Output format: " +++ outputFormat (parseConfig started))
                  (addLog jobId ("Processing data source: " +++ ds_name dataSource) w2))).
  assert (F4 : downloadFile sourceKey w4 = Ok sourceData).
  { unfold w4, w2, w1. autorewrite with world. exact Hdl. }
  assert (S4 : step (SourceSelected jobId c started (Some dataSource)) w2
               = (w4, Downloaded jobId c started dataSource (parseConfig started) sourceKey
                        (Ok sourceData))).
  { rewrite <- F4. unfold step. rewrite Hkey, Ek. reflexivity. }
  set (w5 := update_job jobId (set_totalRecords (Some (List.length records))) w4).
  assert (S5 : step (Downloaded jobId c started dataSource (parseConfig started) sourceKey
                       (Ok sourceData)) w4
               = (w5, TotalWritten locals)).
  { unfold step. rewrite Hparse. reflexivity. }
  assert (R5 : select_job jobId w5 = Some counted).
  { unfold w5. rewrite select_update by reflexivity. unfold w4. autorewrite with world.
    now rewrite R2. }
  set (w6 := addLog jobId
               ("Found " +++ string_of_nat (List.length records) +++ " records to process") w5).
  assert (S6 : step (TotalWritten locals) w5 = loopFrom locals 0 [] 0 w6) by reflexivity.
  assert (A6 : aborted (l_controller locals) w6 = false).
  { unfold w6, w5, w4, w2. autorewrite with world. exact A1. }
  assert (R6 : select_job (l_jobId locals) w6 = Some counted).
  { unfold w6. autorewrite with world. exact R5. }
  (* the loop *)
  pose proof (loop_runs locals encode (batchSizeOf_pos _) Henc
                (List.length records) 0 [] 0 w6 counted
                ltac:(simpl; lia) A6 R6) as Hloop.
  cbv zeta in Hloop. fold batches in Hloop.
  change (skipn 0 (l_records locals)) with records in Hloop.
  change (processBatch (l_config locals) records ([], 0)) with outcome in Hloop.
  change (l_jobId locals) with jobId in Hloop.
  destruct Hloop as (T7 & O7 & R7 & older & stamp & Lg7).
  set (r6 := loopFrom locals 0 [] 0 w6) in *.
  set (r7 := run batches (snd r6) (fst r6)) in *.
  fold looped in R7.
  (* the pieces after the loop *)
  set (dataset := mkDataset (S (List.length (datasets (fst r7)))) (job_projectId started)
                    (job_id started) (ds_name dataSource +++ "_processed")
                    (outputFormat (parseConfig job)) (outputKeyOf locals)
                    (List.length (fst outcome)) (String.length (encode (fst outcome)))).
  set (w8 := with_datasets (datasets (fst r7) ++ [dataset]) (fst r7)).
  assert (S8 : step (snd r7) (fst r7) = (w8, DatasetInserted locals (fst outcome) dataset)).
  { rewrite T7. reflexivity. }
  assert (R8 : select_job jobId w8 = Some looped).
  { unfold w8. autorewrite with world. exact R7. }
  set (w9 := update_job jobId
               (fun r => set_completedAt (Some (clock w8))
                           (set_processedRecords (Some (List.length (fst outcome)))
                              (set_progress 100 (set_status completed r)))) w8).
  assert (S9 : step (DatasetInserted locals (fst outcome) dataset) w8
               = (w9, CompletedWritten jobId dataset)) by reflexivity.
  assert (R9 : select_job jobId w9 = Some (finished (clock w8))).
  { unfold w9. rewrite select_update by reflexivity. now rewrite R8. }
  set (w10 := finallyBlock jobId
                (emit (EvCompleted jobId (dataset_id dataset))
                   (addLog jobId ("Job completed successfully. Dataset ID: "
                                  +++ string_of_nat (dataset_id dataset)) w9))).
  assert (S10 : step (CompletedWritten jobId dataset) w9 = (w10, Done)) by reflexivity.
  assert (R10 : select_job jobId w10 = Some (finished (clock w8))).
  { unfold w10. autorewrite with world. exact R9. }
  exists w10, (clock w8).
  (* the run, put together *)
  assert (Run6 : run 6 (Start jobId) w0 = (fst r6, snd r6)).
  { rewrite run_step by discriminate. rewrite S1. cbn [fst snd].
    rewrite run_step by discriminate. rewrite S2. cbn [fst snd].
    rewrite run_step by discriminate. rewrite S3. cbn [fst snd].
    rewrite run_step by discriminate. rewrite S4. cbn [fst snd].
    rewrite run_step by discriminate. rewrite S5. cbn [fst snd].
    rewrite run_step by discriminate. rewrite S6. fold r6.
    cbn [run]. reflexivity. }
  assert (Run3 : run 3 (snd r7) (fst r7) = (w10, Done)).
  { rewrite run_step by (rewrite T7; discriminate). rewrite S8. cbn [fst snd].
    rewrite run_step by discriminate. rewrite S9. cbn [fst snd].
    rewrite run_step by discriminate. rewrite S10. reflexivity. }
  assert (Run : run (batches + 9) (Start jobId) w0 = (w10, Done)).
  { replace (batches + 9) with (6 + (batches + 3)) by lia.
    rewrite run_add, Run6. cbn [fst snd]. rewrite run_add. fold r7. exact Run3. }
  split; [exact Run|]. split; [exact R10|]. split.
  - replace (batches + 9) with (6 + (batches + 3)) by lia.
    rewrite observations_add, Run6. cbn [fst snd]. rewrite observations_add. fold r7.
    assert (O6 : observations 6 jobId (Start jobId) w0
                 = [Some started; Some started; Some started; Some started; Some counted;
                    select_job jobId (fst r6)]).
    { rewrite observations_step by discriminate. rewrite S1. cbn [fst snd]. rewrite R1.
      rewrite observations_step by discriminate. rewrite S2. cbn [fst snd]. rewrite R2.
      rewrite observations_step by discriminate. rewrite S3. cbn [fst snd]. rewrite R2.
      rewrite observations_step by discriminate. rewrite S4. cbn [fst snd].
      replace (select_job jobId w4) with (Some started)
        by (unfold w4; autorewrite with world; now rewrite R2).
      rewrite observations_step by discriminate. rewrite S5. cbn [fst snd]. rewrite R5.
      rewrite observations_step by discriminate. rewrite S6. fold r6. reflexivity. }
    assert (O3 : observations 3 jobId (snd r7) (fst r7)
                 = [Some looped; Some (finished (clock w8)); Some (finished (clock w8))]).
    { rewrite observations_step by (rewrite T7; discriminate). rewrite S8. cbn [fst snd].
      rewrite R8.
      rewrite observations_step by discriminate. rewrite S9. cbn [fst snd]. rewrite R9.
      rewrite observations_step by discriminate. rewrite S10. cbn [fst snd].
      rewrite R10. reflexivity. }
    rewrite O6, O3. rewrite !map_app. rewrite <- O7. reflexivity.
  - destruct (addLog_suffix jobId
                ("Job completed successfully. Dataset ID: " +++ string_of_nat (dataset_id dataset))
                w9 older
                [ "[" +++ stamp +++ "] " +++ completeLine (fst outcome) (snd outcome);
                  "[" +++ stamp +++ "] " +++ "Uploading output file..." ])
      as [older' Lg].
    { unfold w9, w8. autorewrite with world. now rewrite Lg7. }
    { simpl. lia. }
    exists older', stamp, (toISOString (clock w9)), (dataset_id dataset).
    unfold w10. autorewrite with world. exact Lg.
Qed.

End Success.

End QueueFacts.

(* ===================================================================== *)
(** * A job of ten records *)
(* ===================================================================== *)

Module Scenario.

Import Queue.

Definition person (name : string) (age : Z) (contact : string) : JsObject :=
  [("name", VString name); ("age", VNumber (Num (inject_Z age))); ("contact", VString contact)].

(** Ten records; three are of age 17 or less.  Of the seven others, two
    hold an e-mail address, one holds a URL and an e-mail address in one
    field, and one holds a name. *)
Definition people : list JsObject :=
  [ person "P1" 12 "jane@example.com";
    person "P2" 15 "none";
    person "P3" 17 "none";
    person "P4" 18 "jane@example.com";
    person "P5" 21 "http://example.com or jane@example.com";
    person "P6" 25 "mail jane@example.com";
    person "Jane Doe" 30 "none";
    person "P8" 34 "none";
    person "P9" 41 "none";
    person "P10" 52 "none" ].

Definition content : string := Sample.showRecords people.

Definition host : Host :=
  Sample.host
    [(Sample.sourceOf Pii.email, "jane@example.com");
     (Sample.sourceOf Pii.url, "http://example.com")]
    ["Jane Doe"] [] [(content, people)] [].

Definition key : string := "org-1/project-1/sources/people.json".

(** Keep the records of age above 17; batches of four. *)
Definition config : ProcessingJobConfig :=
  mkConfig "jsonl" true false None None
    (Some [mkCondition "age" "gt" (CNumber (Num 17))]) (Some 4).

(** The job as the controller creates it for a data source that has no
    record count, with its configuration. *)
Definition job : JobRow :=
  mkJob 1 1 1 None pending 0 "jsonl" (Some "export-0") (Some 0) None None None None None None 0
    (Some config) None None.

Definition dataSource : DataSourceRow :=
  mkDataSource 1 1 "people" "json" "ready" None None (Some key).

Definition world : World :=
  mkWorld [job] [dataSource] [] [mkProject 1 1 None] [] [] [(key, content)]
    false [] [] [] [] 0.

(** The world when [processJob] has run alone to its end. *)
Definition after : World := fst (run (host := host) 12 (Start 1) world).

Definition final : option JobRow := select_job 1 after.

End Scenario.

(* ===================================================================== *)
(** * The job: progress and counters *)
(* ===================================================================== *)

Module JobTheorems.

Import Queue QueueFacts.

Lemma sorted_snoc (l : list nat) (t : nat) :
  Sorted le l -> Forall (fun x => x <= t) l -> Sorted le (l ++ [t]).
Proof.
  induction 1 as [|x l Hs IH Hx]; intros Hb; simpl.
  - repeat constructor.
  - inversion Hb as [|? ? Hxt Hl]; subst. constructor; [now apply IH|].
    destruct l as [|y l]; simpl; constructor.
    + exact Hxt.
    + now inversion Hx.
Qed.

Lemma sorted_repeat_last (l : list nat) (d : nat) :
  Sorted le l -> l <> [] -> Sorted le (l ++ [last l d]).
Proof.
  induction 1 as [|x l Hs IH Hx]; intros Hne; [now contradiction Hne|].
  destruct l as [|y l].
  - simpl. repeat constructor.
  - change (last (x :: y :: l) d) with (last (y :: l) d).
    simpl. constructor.
    + apply IH. discriminate.
    + constructor. now inversion Hx.
Qed.

Lemma last_map (A B : Type) (f : A -> B) (l : list A) (d : A) :
  last (map f l) (f d) = f (last l d).
Proof.
  induction l as [|x l IH]; [reflexivity|].
  destruct l as [|y l]; [reflexivity|]. exact IH.
Qed.

Section WithHost.
Context {host : Host}.

Variable w0 : World.
Variable jobId : nat.
Variable job : JobRow.
Variable dataSource : DataSourceRow.
Variable sourceKey sourceData : string.
Variable records : list JsObject.

Let L := locals w0 jobId job dataSource sourceKey records.
Let N := List.length records.
Let B := batchSizeOf (parseConfig job).
Let rows := rowsFrom L N 0 (counted w0 job records).

(** A batch numbered [k] is begun exactly when [k * B] records do not
    exhaust the input. *)
Lemma batchesFrom_lt (fuel i k : nat) :
  N - i <= fuel -> (k < batchesFrom L fuel i <-> i + k * B < N).
Proof.
  pose proof (batchSizeOf_pos (parseConfig job)) as HB.
  unfold N, B. revert i k. induction fuel as [|fuel IH]; intros i k Hf; simpl.
  - split; intros H; [lia | nia].
  - destruct (i <? List.length records) eqn:Ei.
    + apply Nat.ltb_lt in Ei. destruct k as [|k].
      * split; intros _; lia.
      * rewrite <- Nat.succ_lt_mono, (IH (i + batchSizeOf (parseConfig job)) k) by lia.
        simpl. lia.
    + apply Nat.ltb_ge in Ei. split; intros H; [lia | nia].
Qed.

Lemma looped_blank :
  blank (looped w0 jobId job dataSource sourceKey records) = blank (counted w0 job records).
Proof.
  unfold looped. fold L N rows.
  pose proof (rowsFrom_blank L N 0 (counted w0 job records)) as H. fold rows in H.
  rewrite Forall_forall in H. apply H. apply rowsFrom_last.
Qed.

Lemma progress_sorted (at_ : nat) :
  Sorted le
    (map progress
       ([started w0 job; started w0 job; started w0 job; started w0 job; counted w0 job records]
        ++ rows
        ++ [looped w0 jobId job dataSource sourceKey records;
            finished w0 jobId job dataSource sourceKey records at_;
            finished w0 jobId job dataSource sourceKey records at_])).
Proof.
  rewrite !map_app.
  assert (S0 : Sorted le (0 :: map progress rows)).
  { apply (rowsFrom_sorted L N 0 (counted w0 job records)). intros _. simpl. lia. }
  assert (P : Forall (fun x => x <= 100) (0 :: map progress rows)).
  { constructor; [lia|]. apply Forall_forall. intros x Hx.
    apply in_map_iff in Hx. destruct Hx as [r [E Hr]]. subst x.
    pose proof (rowsFrom_percent L N 0 (counted w0 job records) ltac:(simpl; lia)
                  ltac:(simpl; lia)) as H.
    fold rows in H. rewrite Forall_forall in H. now apply H. }
  assert (Ne : 0 :: map progress rows <> []) by discriminate.
  pose proof (sorted_repeat_last _ 0 S0 Ne) as S1.
  assert (El : last (0 :: map progress rows) 0
               = progress (looped w0 jobId job dataSource sourceKey records)).
  { assert (Hr : rows <> []).
    { unfold rows. intros E. pose proof (rowsFrom_length L N 0 (counted w0 job records)) as Hl.
      rewrite E in Hl. discriminate. }
    unfold looped. fold L N rows.
    rewrite <- (last_map _ _ progress rows (counted w0 job records)).
    destruct rows as [|r rs]; [now contradiction Hr|].
    change (last (0 :: map progress (r :: rs)) 0) with (last (map progress (r :: rs)) 0).
    apply last_default. discriminate. }
  rewrite El in S1.
  assert (P1 : Forall (fun x => x <= 100)
                 ((0 :: map progress rows)
                  ++ [progress (looped w0 jobId job dataSource sourceKey records)])).
  { apply Forall_app. split; [exact P|]. constructor; [|constructor].
    rewrite <- El. rewrite Forall_forall in P. apply P.
    destruct (exists_last Ne) as (l' & a & E). rewrite E, last_last.
    apply in_or_app. right. now left. }
  pose proof (sorted_snoc _ 100 S1 P1) as S2.
  assert (P2 : Forall (fun x => x <= 100)
                 (((0 :: map progress rows)
                   ++ [progress (looped w0 jobId job dataSource sourceKey records)]) ++ [100])).
  { apply Forall_app. split; [exact P1|]. repeat constructor. }
  pose proof (sorted_snoc _ 100 S2 P2) as S3.
  simpl. repeat (constructor; [|constructor; lia]).
  rewrite <- !app_assoc in S3. simpl in S3. exact S3.
Qed.

End WithHost.

Lemma filter_complement (A : Type) (f : A -> bool) (l : list A) :
  List.length l - List.length (filter f l) = List.length (filter (fun x => negb (f x)) l).
Proof.
  assert (H : List.length (filter f l) + List.length (filter (fun x => negb (f x)) l)
              = List.length l).
  { induction l as [|x l IH]; simpl; [reflexivity|]. destruct (f x); simpl; lia. }
  lia.
Qed.




(** The job of ten records is ready to run. *)
Lemma scenario_ready :
  ready (host := Scenario.host) Scenario.world 1 Scenario.job Scenario.dataSource
    Scenario.key Scenario.content Scenario.people.
Proof.
  unfold ready. repeat split; try reflexivity.
  - discriminate.
  - simpl. tauto.
Qed.






End JobTheorems.

(* ===================================================================== *)
(** * Cancellation *)
(* ===================================================================== *)

Module CancelTheorems.

Import Queue QueueFacts.

Lemma abort_at_aborted (c : nat) (cs : list bool) :
  c < List.length cs -> nth c (abort_at c cs) false = true.
Proof.
  revert c. induction cs as [|b cs IH]; intros c H; simpl in H; [lia|].
  destruct c as [|c]; simpl; [reflexivity|]. apply IH. lia.
Qed.

Section WithHost.
Context {host : Host}.

(** What [cancel] does to a job that is active. *)
Lemma cancel_active (j c : nat) (w : World) (row : JobRow) :
  map_get (activeJobs w) j = Some c ->
  c < List.length (controllers w) ->
  select_job j w = Some row ->
  snd (cancel j w) = true
  /\ aborted c (fst (cancel j w)) = true
  /\ select_job j (fst (cancel j w))
     = Some (set_completedAt (Some (clock w)) (set_status cancelled row)).
Proof.
  intros Hact Hc Hrow. unfold cancel. rewrite Hact. cbn [fst snd].
  split; [reflexivity|]. split.
  - rewrite aborted_emit, aborted_addLog, aborted_update, aborted_with_activeJobs.
    unfold aborted. simpl. now apply abort_at_aborted.
  - rewrite select_emit, select_addLog, select_update by reflexivity.
    rewrite select_with_activeJobs, select_with_controllers, Hrow. reflexivity.
Qed.

(** A job cancelled while a batch that is not its last awaits its progress
    update: [cancel] answers [true] and writes the status cancelled; the
    job, when it resumes, begins no further batch, and its [catch] block
    writes the status failed with the message of the cancellation over the
    status cancelled. *)
Lemma cancel_then_failed (L : Locals) (i len p : nat) (acc : list JsObject) (pii : nat)
    (w : World) (row : JobRow) :
  map_get (activeJobs w) (l_jobId L) = Some (l_controller L) ->
  l_controller L < List.length (controllers w) ->
  select_job (l_jobId L) w = Some row ->
  i + l_batchSize L < List.length (l_records L) ->
  let w1 := fst (cancel (l_jobId L) w) in
  let resumed := step (ProgressWritten L i len p acc pii) w1 in
  snd (cancel (l_jobId L) w) = true
  /\ option_map status (select_job (l_jobId L) w1) = Some cancelled
  /\ snd resumed = FailedWritten (l_jobId L) "Job cancelled"
  /\ option_map status (select_job (l_jobId L) (fst resumed)) = Some failed
  /\ option_map errorMessage (select_job (l_jobId L) (fst resumed))
     = Some (Some "Job cancelled")
  /\ snd (step (snd resumed) (fst resumed)) = Done
  /\ option_map status (select_job (l_jobId L) (fst (step (snd resumed) (fst resumed))))
     = Some failed.
Proof.
  intros Hact Hc Hrow Hi. cbv zeta.
  destruct (cancel_active (l_jobId L) (l_controller L) w row Hact Hc Hrow) as (C1 & C2 & C3).
  split; [exact C1|]. split; [now rewrite C3|].
  rewrite step_ProgressWritten.
  rewrite (loopFrom_cancelled L (i + l_batchSize L) acc pii _ Hi)
    by (rewrite aborted_emit; exact C2).
  unfold catchError. cbn [fst snd].
  split; [reflexivity|].
  rewrite select_update by reflexivity.
  rewrite select_addLog, select_emit, C3. cbn [option_map].
  split; [reflexivity|]. split; [reflexivity|]. split; [reflexivity|].
  unfold step. cbn [fst snd].
  rewrite select_finally, select_emit, select_update by reflexivity.
  rewrite select_addLog, select_emit, C3. reflexivity.
Qed.

End WithHost.

(** The job of ten records, run until its first batch of four awaits its
    progress update, then cancelled, then left to run. *)
Definition cancelledEarly : World :=
  let r := run (host := Scenario.host) 6 (Start 1) Scenario.world in
  let c := cancel (host := Scenario.host) 1 (fst r) in
  fst (run (host := Scenario.host) 12 (snd r) (fst c)).

(** The same job cancelled while its last batch awaits its progress
    update. *)
Definition cancelledLate : World :=
  let r := run (host := Scenario.host) 8 (Start 1) Scenario.world in
  let c := cancel (host := Scenario.host) 1 (fst r) in
  fst (run (host := Scenario.host) 12 (snd r) (fst c)).


End CancelTheorems.

(* ===================================================================== *)
(** * The scheduler: which pending jobs a turn claims *)
(* ===================================================================== *)

Module SchedulerTheorems.

Import Queue.

(** The job a task belongs to. *)
Definition taskJob (t : Task) : option nat :=
  match t with
  | Start j | MarkedProcessing j _ | JobSelected j _ _ | SourceSelected j _ _ _
  | Downloaded j _ _ _ _ _ _ | CompletedWritten j _ | FailedWritten j _ => Some j
  | TotalWritten L | ProgressWritten L _ _ _ _ _ | Uploaded L _ _ _ | DatasetInserted L _ _ =>
      Some (l_jobId L)
  | Done => None
  end.

Definition isPending (r : JobRow) : bool := status_eqb (status r) pending.

Lemma isPending_spec (r : JobRow) : isPending r = true <-> status r = pending.
Proof. unfold isPending. destruct (status r); simpl; split; congruence. Qed.

Lemma StronglySorted_filter (A : Type) (R : A -> A -> Prop) (f : A -> bool) (l : list A) :
  StronglySorted R l -> StronglySorted R (filter f l).
Proof.
  induction 1 as [|x l Hs IH Hx]; simpl; [constructor|].
  destruct (f x); [|exact IH]. constructor; [exact IH|].
  apply Forall_forall. intros y Hy. apply filter_In in Hy.
  rewrite Forall_forall in Hx. now apply Hx.
Qed.

Lemma StronglySorted_app_across (A : Type) (R : A -> A -> Prop) (l1 l2 : list A) :
  StronglySorted R (l1 ++ l2) -> forall a b, In a l1 -> In b l2 -> R a b.
Proof.
  induction l1 as [|x l1 IH]; intros Hs a b Ha Hb; [destruct Ha|].
  simpl in Hs. inversion Hs as [|? ? Hs' Hx]; subst.
  destruct Ha as [Ha | Ha].
  - subst a. rewrite Forall_forall in Hx. apply Hx. apply in_or_app. now right.
  - now apply IH.
Qed.

Section WithScan.
Context {host : Host} {scan : Scan}.

Lemma launched_jobs (jobs : list JobRow) (w : World) (ts : list Task) :
  map taskJob
    (snd (fold_left
            (fun st job =>
               let r := step (Start (job_id job)) (fst st) in
               (fst r, snd st ++ [snd r]))
            jobs (w, ts)))
  = map taskJob ts ++ map (fun job => Some (job_id job)) jobs.
Proof.
  revert w ts. induction jobs as [|job jobs IH]; intros w ts; simpl.
  - now rewrite app_nil_r.
  - rewrite IH. rewrite map_app. simpl. now rewrite <- app_assoc.
Qed.

End WithScan.

(** C9, as amended.  In a turn with free slots the scheduler claims the
    first pending jobs of the scan of the table, as many as there are free
    slots, and starts [processJob] for each, in that order; when the scan
    returns the rows in creation order, no pending job is claimed while an
    older pending job is left unclaimed. *)
Theorem processQueue_claims {host : Host} {scan : Scan} (w : World) :
  let claimed := selectPending (availableSlots w) w in
  claimed
  = firstn (concurrency - map_size (activeJobs w))
      (filter (fun r => status_eqb (status r) pending) (scanOrder (processingJobs w)))
  /\ (claimed <> [] ->
      map taskJob (snd (fst (processQueueTurn w))) = map (fun r => Some (job_id r)) claimed)
  /\ (StronglySorted (fun a b => createdAt a <= createdAt b) (scanOrder (processingJobs w)) ->
      forall c r,
        In c claimed -> In r (processingJobs w) -> status r = pending ->
        createdAt r < createdAt c -> In r claimed).
Proof.
  cbv zeta. split; [reflexivity|]. split.
  - intros Hne. unfold processQueueTurn.
    destruct (availableSlots w <=? 0) eqn:E.
    + apply Nat.leb_le in E. exfalso. apply Hne. unfold selectPending.
      replace (availableSlots w) with 0 by lia. reflexivity.
    + destruct (selectPending (availableSlots w) w) as [|j js] eqn:Ep; [now contradiction Hne|].
      cbn [fst snd]. rewrite launched_jobs. reflexivity.
  - intros Hsorted c r Hc Hr Hp Hlt. unfold selectPending in *.
    set (P := filter (fun r0 => status_eqb (status r0) pending) (scanOrder (processingJobs w))) in *.
    assert (HrP : In r P).
    { apply filter_In. split.
      - eapply Permutation_in; [symmetry; apply scanOrder_perm | exact Hr].
      - now apply isPending_spec. }
    rewrite <- (firstn_skipn (availableSlots w) P) in HrP.
    apply in_app_or in HrP. destruct HrP as [HrP | HrP]; [exact HrP|].
    assert (HsP : StronglySorted (fun a b => createdAt a <= createdAt b)
                    (firstn (availableSlots w) P ++ skipn (availableSlots w) P)).
    { rewrite firstn_skipn. now apply StronglySorted_filter. }
    pose proof (StronglySorted_app_across _ _ _ _ HsP c r Hc HrP) as Hle.
    cbv beta in Hle. lia.
Qed.

(** A scan that returns the rows last written first. *)
Definition newestFirst : Scan :=
  mkScan (@rev JobRow) (fun rows => Permutation_sym (Permutation_rev rows)).

(** A scan that returns the rows in the order of the table. *)
Definition tableOrder : Scan := mkScan (fun rows => rows) (fun rows => Permutation_refl rows).

Definition pendingJob (id created : nat) : JobRow :=
  mkJob id 1 1 None pending 0 "jsonl" None (Some 0) None None None None None None created
    None None None.

(** Two pending jobs, the first created before the second, and one job
    active: one slot is free. *)
Definition twoPending : World :=
  mkWorld [pendingJob 1 10; pendingJob 2 20] [Scenario.dataSource] [] [] [] []
    [(Scenario.key, Scenario.content)] true [(7, 0)] [] [false] [] 30.

(** With the rows scanned in creation order, the older job is claimed. *)
Lemma processQueue_claims_witness :
  StronglySorted (fun a b => createdAt a <= createdAt b)
    (scanOrder (Scan := tableOrder) (processingJobs twoPending))
  /\ map job_id
       (selectPending (scan := tableOrder)
          (availableSlots twoPending) twoPending) = [1]
  /\ (forall c r,
        In c (selectPending (scan := tableOrder)
                (availableSlots twoPending) twoPending) ->
        In r (processingJobs twoPending) -> status r = pending ->
        createdAt r < createdAt c ->
        In r (selectPending (scan := tableOrder)
                (availableSlots twoPending) twoPending)).
Proof.
  assert (S : StronglySorted (fun a b => createdAt a <= createdAt b)
                (scanOrder (Scan := tableOrder) (processingJobs twoPending))).
  { simpl. repeat constructor. }
  split; [exact S|]. split; [reflexivity|].
  exact (proj2 (proj2 (processQueue_claims (host := Scenario.host) (scan := tableOrder)
                         twoPending)) S).
Defined.

(** C9 as stated fails when the database returns the newer row first: the
    turn claims job 2 and starts it, while job 1, created earlier and
    pending, is left unclaimed. *)
Lemma processQueue_fifo_counterexample :
  map (fun r => (job_id r, createdAt r, status r)) (processingJobs twoPending)
  = [(1, 10, pending); (2, 20, pending)]
  /\ availableSlots twoPending = 1
  /\ map job_id
       (selectPending (scan := newestFirst)
          (availableSlots twoPending) twoPending) = [2]
  /\ map taskJob
       (snd (fst (processQueueTurn (host := Scenario.host) (scan := newestFirst) twoPending)))
     = [Some 2].
Proof. repeat split. Qed.

End SchedulerTheorems.

(* ===================================================================== *)
(** * Job submission *)
(* ===================================================================== *)

Module SubmissionTheorems.

Import Queue JobsController.

(** The state of the queue object. *)
Definition queueState (w : World) :
  bool * list (nat * nat) * list (nat * list string) * list bool * list Event :=
  (isProcessing w, activeJobs w, jobLogs w, controllers w, emitted w).


Definition request : CreateJobInput := mkCreateJobInput 1 None "jsonl" None (Some 1).

Definition requester : User := mkUser 1 1.

(** A project with one data source that is ready, and no job yet. *)
Definition beforeCreate : World :=
  mkWorld [] [Scenario.dataSource] [] [mkProject 1 1 None] [] []
    [(Scenario.key, Scenario.content)] false [] [] [] [] 0.

(** The same with the data source still pending. *)
Definition notReady : World :=
  mkWorld [] [mkDataSource 1 1 "people" "json" "pending" None None (Some Scenario.key)]
    [] [mkProject 1 1 None] [] [] [(Scenario.key, Scenario.content)] false [] [] [] [] 0.



End SubmissionTheorems.

(* ===================================================================== *)
(** * The record codec *)
(* ===================================================================== *)

Module CodecTheorems.

Import Queue.

(** The text holds no line feed. *)
Fixpoint noNewline (s : string) : bool :=
  match s with
  | EmptyString => true
  | String c s' => negb (Ascii.eqb c Js.newline) && noNewline s'
  end.

Lemma split_lines_single (x : string) : noNewline x = true -> Js.split_lines x = [x].
Proof.
  induction x as [|c x IH]; intros H; simpl in *; [reflexivity|].
  apply andb_prop in H. destruct H as [Hc Hx].
  apply negb_true_iff in Hc. rewrite Hc, (IH Hx). reflexivity.
Qed.

Lemma split_lines_append (x rest : string) :
  noNewline x = true ->
  Js.split_lines (x +++ String Js.newline rest) = x :: Js.split_lines rest.
Proof.
  induction x as [|c x IH]; intros H; simpl in *.
  - reflexivity.
  - apply andb_prop in H. destruct H as [Hc Hx].
    apply negb_true_iff in Hc. rewrite Hc, (IH Hx). reflexivity.
Qed.

Lemma split_join (ls : list string) :
  ls <> [] -> Forall (fun l => noNewline l = true) ls ->
  Js.split_lines (Js.join_lines ls) = ls.
Proof.
  intros Hne H. induction H as [|x ls Hx Hls IH]; [now contradiction Hne|].
  destruct ls as [|y ls].
  - simpl. now apply split_lines_single.
  - change (Js.join_lines (x :: y :: ls))
      with (x +++ String Js.newline (Js.join_lines (y :: ls))).
    rewrite split_lines_append by exact Hx. f_equal. apply IH. discriminate.
Qed.

Section WithHost.
Context {host : Host}.

(** The host's JSON reads back what it prints for the records of [R]: the
    array as a whole, and each record from its one-line form, which holds
    no line feed and is not blank. *)
Definition readsBack (R : list JsObject) : Prop :=
  jsonParseRecords (jsonStringifyRecords R) = Ok R
  /\ Forall (fun r => jsonParseRecord (jsonStringifyRecord r) = Ok r
                      /\ noNewline (jsonStringifyRecord r) = true
                      /\ Js.trim_truthy (jsonStringifyRecord r) = true) R.

Lemma parseLines_stringify (R : list JsObject) :
  Forall (fun r => jsonParseRecord (jsonStringifyRecord r) = Ok r) R ->
  parseLines (map jsonStringifyRecord R) = Ok R.
Proof.
  induction 1 as [|r R Hr HR IH]; simpl; [reflexivity|]. now rewrite Hr, IH.
Qed.

Lemma filter_all (A : Type) (f : A -> bool) (l : list A) :
  Forall (fun x => f x = true) l -> filter f l = l.
Proof. induction 1 as [|x l Hx Hl IH]; simpl; [reflexivity|]. now rewrite Hx, IH. Qed.

End WithHost.


(** A host whose JSON reads and prints the ten records of the scenario. *)
Definition jsonHost : Host :=
  Sample.host [] [] [] [(Sample.showRecords Scenario.people, Scenario.people)]
    (map (fun r => (Sample.showRecord r, r)) Scenario.people).

Lemma people_readBack : readsBack (host := jsonHost) Scenario.people.
Proof.
  split; [reflexivity|].
  repeat (constructor; [repeat split; reflexivity|]). constructor.
Qed.


(** A record has only flat scalar fields: each value is null, a boolean, a
    number or a string. *)
Definition flatScalar (v : JsValue) : bool :=
  match v with
  | VNull | VBool _ | VNumber _ | VString _ => true
  | VUndefined | VArray _ | VObject _ => false
  end.

Definition flatRecord (r : JsObject) : bool := forallb (fun kv => flatScalar (snd kv)) r.

Definition notANumber : list JsObject := [[("a", VNumber NaN)]].

Definition nulled : list JsObject := [[("a", VNull)]].

(** A host whose JSON reads the texts that the record of [notANumber]
    prints to. *)
Definition nullHost : Host :=
  Sample.host [] [] [] [(Sample.showRecords nulled, nulled)]
    (map (fun r => (Sample.showRecord r, r)) nulled).


End CodecTheorems.

(* ===================================================================== *)
(** * More of the detector: what it reports, and the reports built on it *)
(* ===================================================================== *)

Module DetectorTheorems.

Import Pii PiiSpec JsFacts PiiFacts.

Lemma keep_fold_nonempty (test : PIIMatch -> PIIMatch -> bool) (rest result : list PIIMatch) :
  result <> [] -> fold_left (keep test) rest result <> [].
Proof.
  revert result. induction rest as [|m rest IH]; intros result H; simpl; [exact H|].
  apply IH. unfold keep. destruct (existsb (test m) result); [exact H|].
  destruct result; discriminate.
Qed.

Lemma deduplicateMatches_nil (ms : list PIIMatch) : deduplicateMatches ms = [] <-> ms = [].
Proof.
  rewrite deduplicateMatches_unfold, sort_compareMatches. split.
  - intros H. destruct (Js.stable_sort precedes ms) as [|m sorted] eqn:E.
    + apply Permutation_nil. rewrite <- E. apply stable_sort_perm.
    + simpl in H. exfalso. revert H. apply keep_fold_nonempty. discriminate.
  - intros ->. reflexivity.
Qed.

Section WithHost.
Context {host : Host}.




Lemma length_repeat (s : string) (n : nat) :
  String.length (Js.repeat s n) = n * String.length s.
Proof.
  induction n as [|n IH]; simpl; [reflexivity|].
  rewrite <- chars_length, chars_append, length_app, !chars_length, IH. reflexivity.
Qed.

Lemma length_append (s t : string) : String.length (s +++ t) = String.length s + String.length t.
Proof. now rewrite <- chars_length, chars_append, length_app, !chars_length. Qed.

Lemma length_assemble (text : string) (replacement : PIIMatch -> string)
    (ms : list PIIMatch) (pos : nat) :
  chain (String.length text) pos ms ->
  Forall (fun m => String.length (replacement m) = end_ m - start m) ms ->
  String.length (assemble text pos ms replacement) = String.length text - pos.
Proof.
  revert pos. induction ms as [|m ms IH]; intros pos Hc Hr; simpl.
  - unfold Js.sliceFrom. rewrite length_substring. lia.
  - destruct Hc as (H1 & H2 & H3). inversion Hr as [|? ? Hm Hms]; subst.
    pose proof (chain_bound _ _ _ H3) as Hb.
    rewrite !length_append, (IH _ H3 Hms), Hm.
    unfold Js.slice. rewrite length_substring. lia.
Qed.


End WithHost.


End DetectorTheorems.
Module ReportTheorems.

Import Pii PiiSpec JsFacts PiiFacts.

(** The ten types, in the order of the keys of [stats]. *)
Definition allTypes : list PIIType :=
  [email; phone; ssn; credit_card; ip_address; person_name; address; date_of_birth; url; custom].

(** The match is of the type. *)
Definition ofType (t : PIIType) (m : PIIMatch) : bool :=
  String.eqb (type_name t) (type_name (type m)).

Lemma countMatch_fold (ms : list PIIMatch) (stats : PIIType -> nat) (t : PIIType) :
  fold_left countMatch ms stats t = stats t + List.length (filter (ofType t) ms).
Proof.
  revert stats. induction ms as [|m ms IH]; intros stats; simpl; [lia|].
  rewrite IH. unfold countMatch. fold (ofType t m).
  destruct (ofType t m); simpl; lia.
Qed.

Lemma ofType_once (m : PIIMatch) :
  list_sum (map (fun t => if ofType t m then 1 else 0) allTypes) = 1.
Proof. unfold ofType. destruct (type m); reflexivity. Qed.

Lemma list_sum_add (A : Type) (f g : A -> nat) (l : list A) :
  list_sum (map (fun x => f x + g x) l) = list_sum (map f l) + list_sum (map g l).
Proof. induction l as [|x l IH]; simpl; lia. Qed.

Lemma ofType_partition (ms : list PIIMatch) :
  list_sum (map (fun t => List.length (filter (ofType t) ms)) allTypes) = List.length ms.
Proof.
  induction ms as [|m ms IH]; [reflexivity|].
  transitivity (list_sum (map (fun t => (if ofType t m then 1 else 0)
                                        + List.length (filter (ofType t) ms)) allTypes)).
  - f_equal. apply map_ext. intros t. cbn [filter]. destruct (ofType t m); reflexivity.
  - rewrite list_sum_add, IH, ofType_once. reflexivity.
Qed.

Section WithHost.
Context {host : Host}.


Lemma matches_of_exec_type (t : PIIType) (c : Q) (found : list (nat * string)) :
  Forall (fun m => type m = t) (matches_of_exec t c found).
Proof. unfold matches_of_exec. apply Forall_forall. intros m H. apply in_map_iff in H.
  destruct H as (iv & <- & _). reflexivity. Qed.

Lemma matches_of_spans_type (t : PIIType) (c : Q) (minLen : nat) (text : string)
    (spans : list string) :
  Forall (fun m => type m = t) (matches_of_spans t c minLen text spans).
Proof.
  unfold matches_of_spans. apply Forall_flat_map. intros name _.
  destruct (minLen <=? String.length name); [|constructor].
  destruct (Js.indexOf text name); repeat constructor.
Qed.

Lemma allMatches_not_custom (text : string) :
  Forall (fun m => ofType custom m = false) (allMatches text noDetectOptions).
Proof.
  unfold allMatches. cbn [detectNames detectAddresses_opt customPatterns noDetectOptions
                            or_default flat_map].
  rewrite app_nil_r.
  apply Forall_app; split; [|apply Forall_app; split].
  - unfold detectPatternPII. apply Forall_flat_map. intros p Hp.
    eapply Forall_impl; [|apply matches_of_exec_type].
    intros m Hm. unfold ofType. rewrite Hm.
    unfold patterns in Hp. cbn [In] in Hp.
    repeat (destruct Hp as [<- | Hp]; [reflexivity|]). destruct Hp.
  - eapply Forall_impl; [|apply matches_of_spans_type].
    intros m Hm. unfold ofType. now rewrite Hm.
  - eapply Forall_impl; [|apply matches_of_spans_type].
    intros m Hm. unfold ofType. now rewrite Hm.
Qed.


(** The object pushed for one record. *)
Definition pushed (options : BatchOptions) (record : BatchRecord) : BatchResult :=
  let result := detectPII (text_ record) noDetectOptions in
  mkBatchResult (id_ record) (text_ record)
    (if or_default (redact options) false then result
     else mkResult (hasPII result) (matches result) (text_ record)).

Lemma batchLoop_unfold (options : BatchOptions) (total : nat) (rest : list BatchRecord) :
  forall (i : nat) (results : list BatchResult) (calls : list (nat * nat)),
    batchLoop options total i rest results calls
    = (results ++ map (pushed options) rest,
       calls ++ (if onProgress_given options
                 then map (fun k => (k, total)) (seq (i + 1) (List.length rest))
                 else [])).
Proof.
  induction rest as [|record rest IH]; intros i results calls.
  - cbn [batchLoop map List.length seq]. rewrite !app_nil_r.
    destruct (onProgress_given options); now rewrite ?app_nil_r.
  - cbn [batchLoop]. rewrite IH. fold (pushed options record).
    cbn [map List.length seq]. rewrite <- app_assoc. f_equal.
    destruct (onProgress_given options); [|reflexivity].
    rewrite <- app_assoc. replace (i + 1 + 1) with (S (i + 1)) by lia. reflexivity.
Qed.

Lemma processBatchPII_unfold (records : list BatchRecord) (options : BatchOptions) :
  processBatchPII records options
  = (map (pushed options) records,
     if onProgress_given options
     then map (fun k => (k, List.length records)) (seq 1 (List.length records))
     else []).
Proof. unfold processBatchPII. now rewrite batchLoop_unfold. Qed.


End WithHost.

End ReportTheorems.
(* ===================================================================== *)
(** * More of the record transformer *)
(* ===================================================================== *)

Module TransformTheorems.

Import Queue QueueFacts.

(** ** Objects *)

Lemma obj_get_set (o : JsObject) (k k' : string) (v : JsValue) :
  obj_get (obj_set o k v) k' = if String.eqb k k' then v else obj_get o k'.
Proof.
  induction o as [|[k0 v0] o IH]; simpl.
  - destruct (String.eqb k k'); reflexivity.
  - destruct (String.eqb k0 k) eqn:E; simpl.
    + apply String.eqb_eq in E. subst k0. destruct (String.eqb k k'); reflexivity.
    + rewrite IH. destruct (String.eqb k0 k') eqn:E'; [|reflexivity].
      apply String.eqb_eq in E'. subst k0. now rewrite String.eqb_sym, E.
Qed.

Lemma obj_has_set (o : JsObject) (k k' : string) (v : JsValue) :
  obj_has (obj_set o k v) k' = String.eqb k k' || obj_has o k'.
Proof.
  induction o as [|[k0 v0] o IH]; simpl.
  - destruct (String.eqb k k'); reflexivity.
  - destruct (String.eqb k0 k) eqn:E; simpl.
    + apply String.eqb_eq in E. subst k0. destruct (String.eqb k k'); reflexivity.
    + rewrite IH. destruct (String.eqb k0 k') eqn:E'; [|reflexivity].
      now rewrite orb_true_r.
Qed.

Lemma obj_has_In (o : JsObject) (k : string) : obj_has o k = true <-> In k (map fst o).
Proof.
  induction o as [|[k0 v0] o IH]; simpl; [split; [discriminate | tauto]|].
  destruct (String.eqb k0 k) eqn:E.
  - apply String.eqb_eq in E. tauto.
  - apply String.eqb_neq in E. rewrite IH. tauto.
Qed.

Lemma obj_get_missing (o : JsObject) (k : string) : obj_has o k = false -> obj_get o k = VUndefined.
Proof.
  induction o as [|[k0 v0] o IH]; simpl; [reflexivity|].
  destruct (String.eqb k0 k); [discriminate | exact IH].
Qed.

Lemma obj_set_fresh (o : JsObject) (k : string) (v : JsValue) :
  obj_has o k = false -> obj_set o k v = o ++ [(k, v)].
Proof.
  induction o as [|[k0 v0] o IH]; simpl; [reflexivity|].
  destruct (String.eqb k0 k); [discriminate|]. intros H. now rewrite IH.
Qed.

Lemma obj_set_keys (o : JsObject) (k : string) (v : JsValue) :
  obj_has o k = true -> map fst (obj_set o k v) = map fst o.
Proof.
  induction o as [|[k0 v0] o IH]; simpl; [discriminate|].
  destruct (String.eqb k0 k) eqn:E; simpl.
  - apply String.eqb_eq in E. now subst.
  - intros H. now rewrite IH.
Qed.

(** ** Field mappings *)

(** The name is the source of no mapping. *)
Definition unmapped (mappings : list (string * string)) (k : string) : bool :=
  negb (existsb (String.eqb k) (map snd mappings)).

(** The source of the last mapping to the name [k] whose source the record
    has. *)
Fixpoint lastSource (record : JsObject) (mappings : list (string * string)) (k : string)
  : option string :=
  match mappings with
  | [] => None
  | nm :: rest =>
      match lastSource record rest k with
      | Some old => Some old
      | None => if String.eqb (fst nm) k && obj_has record (snd nm) then Some (snd nm) else None
      end
  end.

Lemma renamed_get (record : JsObject) (mappings : list (string * string)) (k : string) :
  forall acc,
    obj_get
      (fold_left
         (fun result nm =>
            if obj_has record (snd nm) then obj_set result (fst nm) (obj_get record (snd nm))
            else result)
         mappings acc) k
    = match lastSource record mappings k with
      | Some old => obj_get record old
      | None => obj_get acc k
      end
    /\ obj_has
         (fold_left
            (fun result nm =>
               if obj_has record (snd nm) then obj_set result (fst nm) (obj_get record (snd nm))
               else result)
            mappings acc) k
       = match lastSource record mappings k with
         | Some _ => true
         | None => obj_has acc k
         end.
Proof.
  induction mappings as [|[new old] rest IH]; intros acc; cbn [fold_left lastSource fst snd].
  - split; reflexivity.
  - destruct (IH (if obj_has record old then obj_set acc new (obj_get record old) else acc))
      as [G H].
    rewrite G, H. destruct (lastSource record rest k); [split; reflexivity|].
    destruct (obj_has record old); cbn [andb].
    + rewrite obj_get_set, obj_has_set. rewrite andb_true_r.
      destruct (String.eqb new k); split; reflexivity.
    + rewrite andb_false_r. split; reflexivity.
Qed.

Lemma kept_get (mappings : list (string * string)) (k : string) (entries : JsObject) :
  NoDup (map fst entries) ->
  forall acc,
    obj_get
      (fold_left
         (fun result kv =>
            if negb (existsb (String.eqb (fst kv)) (map snd mappings))
            then obj_set result (fst kv) (snd kv) else result)
         entries acc) k
    = (if obj_has entries k && unmapped mappings k then obj_get entries k else obj_get acc k)
    /\ obj_has
         (fold_left
            (fun result kv =>
               if negb (existsb (String.eqb (fst kv)) (map snd mappings))
               then obj_set result (fst kv) (snd kv) else result)
            entries acc) k
       = (obj_has entries k && unmapped mappings k) || obj_has acc k.
Proof.
  induction entries as [|[k0 v0] entries IH]; intros Hnd acc; cbn [fold_left fst snd].
  - split; reflexivity.
  - inversion Hnd as [|? ? Hk0 Hrest]; subst.
    destruct (IH Hrest (if negb (existsb (String.eqb k0) (map snd mappings))
                        then obj_set acc k0 v0 else acc)) as [G H].
    rewrite G, H. cbn [obj_has obj_get].
    destruct (String.eqb k0 k) eqn:E.
    + apply String.eqb_eq in E. subst k0.
      assert (Hno : obj_has entries k = false).
      { destruct (obj_has entries k) eqn:Hh; [|reflexivity].
        apply obj_has_In in Hh. contradiction. }
      rewrite Hno. cbn [andb orb]. unfold unmapped.
      destruct (negb (existsb (String.eqb k) (map snd mappings))).
      * rewrite obj_get_set, obj_has_set, String.eqb_refl. split; reflexivity.
      * split; reflexivity.
    + destruct (negb (existsb (String.eqb k0) (map snd mappings))).
      * rewrite obj_get_set, obj_has_set, E. split; reflexivity.
      * split; reflexivity.
Qed.


Lemma set_all_fresh (entries acc : JsObject) :
  NoDup (map fst (acc ++ entries)) ->
  fold_left (fun result kv => obj_set result (fst kv) (snd kv)) entries acc = acc ++ entries.
Proof.
  revert acc. induction entries as [|[k v] entries IH]; intros acc Hnd; cbn [fold_left fst snd].
  - now rewrite app_nil_r.
  - rewrite obj_set_fresh.
    + rewrite IH; rewrite <- app_assoc; [reflexivity | exact Hnd].
    + destruct (obj_has acc k) eqn:Hh; [|reflexivity].
      apply obj_has_In in Hh. rewrite map_app in Hnd. cbn [map fst] in Hnd.
      apply NoDup_remove_2 in Hnd. exfalso. apply Hnd. apply in_or_app. now left.
Qed.




(** ** Filters on a field that the record does not have *)

Section WithHost.
Context {host : Host}.

Lemma rejects_undefined (condition : FilterCondition) :
  rejects VUndefined condition
  = existsb (String.eqb (operator condition)) ["eq"; "gt"; "lt"; "contains"; "not_contains"].
Proof.
  unfold rejects. cbv zeta. cbn [existsb strict_eq negb].
  destruct (String.eqb (operator condition) "eq") eqn:E1; [reflexivity|].
  destruct (String.eqb (operator condition) "ne") eqn:E2.
  { apply String.eqb_eq in E2. rewrite E2. reflexivity. }
  destruct (String.eqb (operator condition) "gt") eqn:E3; [reflexivity|].
  destruct (String.eqb (operator condition) "lt") eqn:E4; [reflexivity|].
  destruct (String.eqb (operator condition) "contains") eqn:E5; [reflexivity|].
  destruct (String.eqb (operator condition) "not_contains") eqn:E6; reflexivity.
Qed.

Lemma checkConditions_In (record : JsObject) (conditions : list FilterCondition)
    (condition : FilterCondition) :
  In condition conditions ->
  rejects (obj_get record (field condition)) condition = true ->
  checkConditions record conditions = false.
Proof.
  induction conditions as [|c cs IH]; intros Hin Hr; [destruct Hin|].
  cbn [checkConditions]. destruct Hin as [-> | Hin].
  - now rewrite Hr.
  - destruct (rejects (obj_get record (field c)) c); [reflexivity | now apply IH].
Qed.

(** X10.  A condition on a field that the record does not have: with the
    operator [eq], [gt], [lt], [contains] or [not_contains] it rejects the
    record, whatever the other conditions are; with any other operator,
    [ne] among them, it lets the record through to the other conditions. *)
Theorem checkFilters_missing_field (record : JsObject) (condition : FilterCondition)
    (conditions : list FilterCondition) :
  obj_has record (field condition) = false ->
  (In (operator condition) ["eq"; "gt"; "lt"; "contains"; "not_contains"] ->
   In condition conditions -> checkFilters record (Some conditions) = false)
  /\ (~ In (operator condition) ["eq"; "gt"; "lt"; "contains"; "not_contains"] ->
      checkFilters record (Some (condition :: conditions))
      = checkFilters record (Some conditions)).
Proof.
  intros Hno. pose proof (rejects_undefined condition) as R.
  rewrite <- (obj_get_missing record (field condition) Hno) in R.
  split.
  - intros Hop Hin. cbn [checkFilters]. apply (checkConditions_In record conditions condition Hin).
    rewrite R. apply existsb_exists. exists (operator condition). split; [exact Hop|].
    apply String.eqb_refl.
  - intros Hop. cbn [checkFilters checkConditions]. rewrite R.
    destruct (existsb (String.eqb (operator condition))
                ["eq"; "gt"; "lt"; "contains"; "not_contains"]) eqn:E; [|reflexivity].
    exfalso. apply Hop. apply existsb_exists in E. destruct E as (op & Hin & Heq).
    apply String.eqb_eq in Heq. now subst op.
Qed.

End WithHost.

(** A record without [country]: [not_contains] rejects it, [ne] does
    not. *)
Lemma checkFilters_missing_field_witness :
  let record := [("age", VNumber (Num 30))] in
  checkFilters (host := Sample.jane) record
    (Some [mkCondition "country" "not_contains" (CString "US")]) = false
  /\ checkFilters (host := Sample.jane) record
       (Some [mkCondition "country" "ne" (CString "US")]) = true.
Proof.
  cbv zeta. split.
  - apply (proj1 (checkFilters_missing_field (host := Sample.jane) [("age", VNumber (Num 30))]
                    (mkCondition "country" "not_contains" (CString "US"))
                    [mkCondition "country" "not_contains" (CString "US")] eq_refl)).
    + simpl. tauto.
    + now left.
  - rewrite (proj2 (checkFilters_missing_field (host := Sample.jane) [("age", VNumber (Num 30))]
                      (mkCondition "country" "ne" (CString "US")) [] eq_refl)).
    + reflexivity.
    + simpl. intuition discriminate.
Defined.

(** ** The PII pass over the fields of a record *)

Lemma obj_set_app_fresh (a b : JsObject) (k : string) (v v' : JsValue) :
  obj_has a k = false -> obj_set (a ++ (k, v) :: b) k v' = a ++ (k, v') :: b.
Proof.
  induction a as [|[k0 v0] a IH]; cbn [app obj_set obj_has].
  - now rewrite String.eqb_refl.
  - destruct (String.eqb k0 k); [discriminate|]. intros H. now rewrite IH.
Qed.

Section Redaction.
Context {host : Host}.
Variable config : ProcessingJobConfig.

(** What the PII pass makes of one field: a string in which the detector
    finds a match is replaced, when redaction is on, by what [redactPII]
    makes of it with the job's labels; any other field stays. *)
Definition redactedField (entry : string * JsValue) : string * JsValue :=
  match snd entry with
  | VString value =>
      if Pii.hasPII (Pii.detectPII value Pii.noDetectOptions) && enablePiiRedaction config
      then (fst entry,
            VString (Pii.redactPII value
                       (Pii.mkRedactOptions None None (labelsOf (customRedactionLabels config)))))
      else entry
  | _ => entry
  end.

Lemma redactedField_key (entry : string * JsValue) : fst (redactedField entry) = fst entry.
Proof.
  unfold redactedField. destruct (snd entry); try reflexivity.
  destruct (Pii.hasPII _ && enablePiiRedaction config); reflexivity.
Qed.

Lemma piiField_fold (rest done : JsObject) (n : nat) :
  NoDup (map fst (done ++ rest)) ->
  fst (fold_left (piiField config) rest (map redactedField done ++ rest, n))
  = map redactedField (done ++ rest).
Proof.
  revert done n. induction rest as [|[k v] rest IH]; intros done n Hnd.
  - cbn [fold_left fst]. now rewrite !app_nil_r.
  - cbn [fold_left].
    assert (Hstep : exists n',
               piiField config (map redactedField done ++ (k, v) :: rest, n) (k, v)
               = (map redactedField (done ++ [(k, v)]) ++ rest, n')).
    { assert (Hfresh : obj_has (map redactedField done) k = false).
      { destruct (obj_has (map redactedField done) k) eqn:Hh; [|reflexivity].
        apply obj_has_In in Hh. rewrite map_map in Hh.
        rewrite (map_ext _ fst redactedField_key) in Hh.
        rewrite map_app in Hnd. apply NoDup_remove_2 in Hnd.
        exfalso. apply Hnd. apply in_or_app. now left. }
      rewrite map_app, <- app_assoc. cbn [map app].
      unfold piiField. cbn [fst snd].
      destruct v as [| |b|x|value|a|o]; try (eexists; reflexivity).
      pose proof (eq_refl (redactedField (k, VString value))) as Hrf.
      unfold redactedField at 2 in Hrf. cbn [fst snd] in Hrf.
      destruct (Pii.hasPII (Pii.detectPII value Pii.noDetectOptions)); cbn [andb] in Hrf;
        [|rewrite Hrf; eexists; reflexivity].
      destruct (enablePiiRedaction config); rewrite Hrf; [|eexists; reflexivity].
      rewrite (obj_set_app_fresh _ _ _ _ _ Hfresh). eexists; reflexivity. }
    destruct Hstep as [n' Hstep]. rewrite Hstep.
    rewrite IH by (rewrite <- app_assoc; exact Hnd).
    now rewrite <- app_assoc.
Qed.


End Redaction.


(** ** The lines of a jsonl source *)

Section Lines.
Context {host : Host}.


End Lines.


End TransformTheorems.
(* ===================================================================== *)
(** * More of the queue: what a call of [processJob] touches, and how it ends *)
(* ===================================================================== *)

Module RunFacts.

Import Queue QueueFacts.

(** [f] on the rows of job [j], the other rows as they are. *)
Definition guard (j : nat) (f : JobRow -> JobRow) (r : JobRow) : JobRow :=
  if job_id r =? j then f r else r.

Definition keepsId (f : JobRow -> JobRow) : Prop := forall r, job_id (f r) = job_id r.

(** The jobs table of [w'] is that of [w] with [f] on the rows of [j]. *)
Definition rowsBy (j : nat) (f : JobRow -> JobRow) (w w' : World) : Prop :=
  processingJobs w' = map (guard j f) (processingJobs w).

Lemma rowsBy_refl (j : nat) (w w' : World) :
  processingJobs w' = processingJobs w -> rowsBy j (fun r => r) w w'.
Proof.
  intros H. unfold rowsBy. rewrite H. rewrite <- (map_id (processingJobs w)) at 1.
  apply map_ext. intros r. unfold guard. now destruct (job_id r =? j).
Qed.

Lemma rowsBy_trans (j : nat) (f g : JobRow -> JobRow) (w w' w'' : World) :
  keepsId f -> rowsBy j f w w' -> rowsBy j g w' w'' -> rowsBy j (fun r => g (f r)) w w''.
Proof.
  unfold rowsBy. intros Hf H1 H2. rewrite H2, H1, map_map. apply map_ext. intros r.
  unfold guard. destruct (job_id r =? j) eqn:E; [|now rewrite E].
  now rewrite Hf, E.
Qed.

Lemma select_rowsBy (j : nat) (f : JobRow -> JobRow) (w w' : World) :
  keepsId f -> rowsBy j f w w' -> select_job j w' = option_map f (select_job j w).
Proof.
  intros Hf H. unfold select_job. rewrite H. now apply find_update.
Qed.

Lemma select_rowsBy_other (j k : nat) (f : JobRow -> JobRow) (w w' : World) :
  keepsId f -> rowsBy j f w w' -> k <> j -> select_job k w' = select_job k w.
Proof.
  intros Hf H Hk. unfold select_job. rewrite H.
  induction (processingJobs w) as [|r rows IH]; [reflexivity|].
  cbn [map find].
  assert (Hid : job_id (guard j f r) = job_id r).
  { unfold guard. destruct (job_id r =? j); [apply Hf | reflexivity]. }
  rewrite Hid. destruct (job_id r =? k) eqn:E; [|exact IH].
  unfold guard. destruct (job_id r =? j) eqn:E'; [|reflexivity].
  apply Nat.eqb_eq in E, E'. congruence.
Qed.

Lemma ids_rowsBy (j : nat) (f : JobRow -> JobRow) (w w' : World) :
  keepsId f -> rowsBy j f w w' ->
  map job_id (processingJobs w') = map job_id (processingJobs w).
Proof.
  intros Hf H. rewrite H, map_map. apply map_ext. intros r. unfold guard.
  destruct (job_id r =? j); [apply Hf | reflexivity].
Qed.

Lemma map_get_set_other (V : Type) (m : list (nat * V)) (k k' : nat) (v : V) :
  k' <> k -> map_get (map_set m k v) k' = map_get m k'.
Proof.
  intros Hk. induction m as [|[k0 v0] m IH]; simpl.
  - destruct (k =? k') eqn:E; [apply Nat.eqb_eq in E; congruence | reflexivity].
  - destruct (k0 =? k) eqn:E; simpl.
    + apply Nat.eqb_eq in E. subst k0.
      destruct (k =? k') eqn:E'; [apply Nat.eqb_eq in E'; congruence | reflexivity].
    + now rewrite IH.
Qed.

Lemma map_delete_set (V : Type) (m : list (nat * V)) (k : nat) (v : V) :
  map_delete (map_set m k v) k = map_delete m k.
Proof.
  induction m as [|[k0 v0] m IH]; simpl.
  - now rewrite Nat.eqb_refl.
  - destruct (k0 =? k) eqn:E; simpl.
    + now rewrite Nat.eqb_refl.
    + now rewrite E, IH.
Qed.

Section WithHost.
Context {host : Host}.

(** What one piece of [processJob] for job [j] leaves alone. *)
Definition apart (j : nat) (w w' : World) : Prop :=
  (exists f, keepsId f /\ rowsBy j f w w')
  /\ dataSources w' = dataSources w
  /\ projects w' = projects w
  /\ schemaMappings w' = schemaMappings w
  /\ auditLogs w' = auditLogs w
  /\ isProcessing w' = isProcessing w
  /\ (forall k, k <> j -> getLogs k w' = getLogs k w).

Lemma apart_refl (j : nat) (w : World) : apart j w w.
Proof.
  split; [exists (fun r => r); split; [intro; reflexivity | now apply rowsBy_refl]|].
  repeat split; reflexivity.
Qed.

Lemma apart_trans (j : nat) (w w' w'' : World) : apart j w w' -> apart j w' w'' -> apart j w w''.
Proof.
  intros ((f & Hf & R1) & D1 & P1 & S1 & A1 & I1 & L1) ((g & Hg & R2) & D2 & P2 & S2 & A2 & I2 & L2).
  split.
  - exists (fun r => g (f r)). split; [intro r; now rewrite Hg, Hf|].
    now apply (rowsBy_trans j f g w w' w'').
  - repeat split; try congruence. intros k Hk. now rewrite L2, L1.
Qed.

Lemma apart_addLog (j : nat) (message : string) (w : World) : apart j w (addLog j message w).
Proof.
  split; [exists (fun r => r); split; [intro; reflexivity | now apply rowsBy_refl]|].
  repeat split; try reflexivity.
  intros k Hk. unfold getLogs, addLog. cbv zeta. unfold with_jobLogs. cbn [jobLogs].
  now rewrite map_get_set_other.
Qed.

Lemma apart_update (j : nat) (set : JobRow -> JobRow) (w : World) :
  keepsId set -> apart j w (update_job j set w).
Proof.
  intros Hs. split; [exists set; split; [exact Hs | reflexivity]|].
  repeat split; reflexivity.
Qed.

(** A world that differs in the fields that [processJob] shares with no
    one's rows: bucket, datasets, events, controllers and active jobs. *)
Definition sameTables (w w' : World) : Prop :=
  processingJobs w' = processingJobs w
  /\ dataSources w' = dataSources w
  /\ projects w' = projects w
  /\ schemaMappings w' = schemaMappings w
  /\ auditLogs w' = auditLogs w
  /\ isProcessing w' = isProcessing w
  /\ jobLogs w' = jobLogs w.

Lemma apart_same (j : nat) (w w' : World) : sameTables w w' -> apart j w w'.
Proof.
  intros (H1 & H2 & H3 & H4 & H5 & H6 & H7).
  split; [exists (fun r => r); split; [intro; reflexivity | now apply rowsBy_refl]|].
  repeat split; try assumption. intros k _. unfold getLogs. now rewrite H7.
Qed.

Lemma apart_catchError (j : nat) (msg : string) (w : World) :
  apart j w (fst (catchError j msg w)).
Proof.
  unfold catchError. cbn [fst].
  apply (apart_trans j w (addLog j ("Job failed: " +++ msg) w)); [apply apart_addLog|].
  apply apart_update. intro; reflexivity.
Qed.

Lemma apart_emit (j : nat) (e : Event) (w : World) : apart j w (emit e w).
Proof. apply apart_same. repeat split; reflexivity. Qed.

Lemma apart_with_bucket (j : nat) (b : list (string * string)) (w : World) :
  apart j w (with_bucket b w).
Proof. apply apart_same. repeat split; reflexivity. Qed.

Lemma apart_with_datasets (j : nat) (d : list DatasetRow) (w : World) :
  apart j w (with_datasets d w).
Proof. apply apart_same. repeat split; reflexivity. Qed.

Lemma apart_with_activeJobs (j : nat) (a : list (nat * nat)) (w : World) :
  apart j w (with_activeJobs a w).
Proof. apply apart_same. repeat split; reflexivity. Qed.

Lemma apart_with_controllers (j : nat) (c : list bool) (w : World) :
  apart j w (with_controllers c w).
Proof. apply apart_same. repeat split; reflexivity. Qed.

Lemma apart_finally (j k : nat) (w : World) : apart j w (finallyBlock k w).
Proof. apply apart_same. repeat split; reflexivity. Qed.

End WithHost.

(** The pieces of a step, taken apart from the outside in. *)
Ltac frame :=
  lazymatch goal with
  | |- apart _ ?w ?w => apply apart_refl
  | |- apart ?j ?w (addLog ?j ?m ?w') =>
      apply (apart_trans j w w' (addLog j m w')); [frame | apply apart_addLog]
  | |- apart ?j ?w (update_job ?j ?f ?w') =>
      apply (apart_trans j w w' (update_job j f w'));
        [frame | apply apart_update; intro; reflexivity]
  | |- apart ?j ?w (fst (catchError ?j ?m ?w')) =>
      apply (apart_trans j w w' (fst (catchError j m w'))); [frame | apply apart_catchError]
  | |- apart ?j ?w (emit ?e ?w') =>
      apply (apart_trans j w w' (emit e w')); [frame | apply apart_emit]
  | |- apart ?j ?w (with_bucket ?b ?w') =>
      apply (apart_trans j w w' (with_bucket b w')); [frame | apply apart_with_bucket]
  | |- apart ?j ?w (with_datasets ?b ?w') =>
      apply (apart_trans j w w' (with_datasets b w')); [frame | apply apart_with_datasets]
  | |- apart ?j ?w (with_activeJobs ?b ?w') =>
      apply (apart_trans j w w' (with_activeJobs b w')); [frame | apply apart_with_activeJobs]
  | |- apart ?j ?w (with_controllers ?b ?w') =>
      apply (apart_trans j w w' (with_controllers b w')); [frame | apply apart_with_controllers]
  | |- apart ?j ?w (finallyBlock ?k ?w') =>
      apply (apart_trans j w w' (finallyBlock k w')); [frame | apply apart_finally]
  end.

Section WithHost.
Context {host : Host}.

Lemma apart_loopFrom (L : Locals) (i : nat) (acc : list JsObject) (pii : nat) (w : World) :
  apart (l_jobId L) w (fst (loopFrom L i acc pii w)).
Proof.
  unfold loopFrom. cbv zeta.
  destruct (i <? List.length (l_records L)).
  - destruct (aborted (l_controller L) w); [apply apart_catchError|].
    cbn [fst]. frame.
  - destruct (convertToOutputFormat acc (outputFormat (l_config L))).
    + cbn [fst]. frame.
    + frame.
Qed.

Lemma apart_step (t : Task) (w : World) (j : nat) :
  SchedulerTheorems.taskJob t = Some j -> apart j w (fst (step t w)).
Proof.
  intros Ht. destruct t; cbn [SchedulerTheorems.taskJob] in Ht; try discriminate;
    injection Ht as <-; unfold step.
  - cbn [fst]. frame.
  - cbn [fst]. frame.
  - destruct job; [apply apart_refl | apply apart_catchError].
  - destruct dataSource as [ds|]; [|apply apart_catchError].
    destruct (s3Key ds) as [[|c k]|]; try (cbn [fst]); frame.
  - destruct sourceData as [data|msg]; [|apply apart_catchError].
    destruct (parseSourceData data (ds_format dataSource)); [|apply apart_catchError].
    cbn [fst]. frame.
  - match goal with |- apart ?j ?w (fst (loopFrom ?L ?i ?a ?p ?w')) =>
      apply (apart_trans j w w'); [frame | apply apart_loopFrom] end.
  - match goal with |- apart ?j ?w (fst (loopFrom ?L ?i ?a ?p ?w')) =>
      apply (apart_trans j w w'); [frame | apply apart_loopFrom] end.
  - cbn [fst]. frame.
  - cbn [fst]. frame.
  - cbn [fst]. frame.
  - cbn [fst]. frame.
Qed.

Lemma active_addLog (k : nat) (message : string) (w : World) :
  activeJobs (addLog k message w) = activeJobs w.
Proof. reflexivity. Qed.

Lemma active_update (k : nat) (set : JobRow -> JobRow) (w : World) :
  activeJobs (update_job k set w) = activeJobs w.
Proof. reflexivity. Qed.

Lemma taskJob_catchError (j : nat) (msg : string) (w : World) :
  SchedulerTheorems.taskJob (snd (catchError j msg w)) = Some j.
Proof. reflexivity. Qed.

Lemma taskJob_loopFrom (L : Locals) (i : nat) (acc : list JsObject) (pii : nat) (w : World) :
  SchedulerTheorems.taskJob (snd (loopFrom L i acc pii w)) = Some (l_jobId L).
Proof.
  unfold loopFrom. cbv zeta.
  destruct (i <? List.length (l_records L)).
  - destruct (aborted (l_controller L) w); reflexivity.
  - destruct (convertToOutputFormat acc (outputFormat (l_config L))); reflexivity.
Qed.

Lemma taskJob_step (t : Task) (w : World) (j : nat) :
  SchedulerTheorems.taskJob t = Some j ->
  SchedulerTheorems.taskJob (snd (step t w)) = Some j \/ snd (step t w) = Done.
Proof.
  intros Ht. destruct t; cbn [SchedulerTheorems.taskJob] in Ht; try discriminate;
    injection Ht as <-; unfold step.
  - now left.
  - now left.
  - destruct job; now left.
  - destruct dataSource as [ds|]; [|now left].
    destruct (s3Key ds) as [[|c k]|]; now left.
  - destruct sourceData as [data|msg]; [|now left].
    destruct (parseSourceData data (ds_format dataSource)); now left.
  - left. apply taskJob_loopFrom.
  - left. apply taskJob_loopFrom.
  - now left.
  - now left.
  - now right.
  - now right.
Qed.

Lemma run_Done (n : nat) (w : World) : run n Done w = (w, Done).
Proof. destruct n; reflexivity. Qed.

Lemma apart_run (n : nat) (t : Task) (w : World) (j : nat) :
  SchedulerTheorems.taskJob t = Some j -> apart j w (fst (run n t w)).
Proof.
  revert t w. induction n as [|n IH]; intros t w Ht; [apply apart_refl|].
  rewrite run_step by (intros ->; discriminate).
  eapply apart_trans; [apply (apart_step t w j Ht)|].
  destruct (taskJob_step t w j Ht) as [H | H].
  - now apply IH.
  - rewrite H, run_Done. apply apart_refl.
Qed.

(** ** How a call ends *)

(** [f] leaves every row in one of the two statuses a call ends in. *)
Definition terminal (f : JobRow -> JobRow) : Prop :=
  (forall r, status (f r) = completed) \/ (forall r, status (f r) = failed).

(** From the state [r], the call of job [j] runs to its end, where the
    active jobs are [D] and the jobs table is that of [w] with the rows of
    [j] in a terminal status. *)
Definition endsIn (j : nat) (D : list (nat * nat)) (w : World) (r : World * Task) : Prop :=
  exists n wf f,
    run n (snd r) (fst r) = (wf, Done)
    /\ activeJobs wf = D /\ keepsId f /\ terminal f /\ rowsBy j f w wf.

Lemma endsIn_later (j : nat) (D : list (nat * nat)) (w w1 : World) (r : World * Task) :
  apart j w w1 -> endsIn j D w1 r -> endsIn j D w r.
Proof.
  intros ((g & Hg & Rg) & _) (n & wf & f & Hrun & HD & Hf & Ht & Rf).
  exists n, wf, (fun r => f (g r)). split; [exact Hrun|]. split; [exact HD|].
  split; [intro x; now rewrite Hf, Hg|]. split.
  - destruct Ht as [Ht | Ht]; [left | right]; intro x; apply Ht.
  - now apply (rowsBy_trans j g f w w1 wf).
Qed.

Lemma endsIn_step (j : nat) (D : list (nat * nat)) (w w1 : World) (t : Task) :
  t <> Done -> endsIn j D w (step t w1) -> endsIn j D w (w1, t).
Proof.
  intros Ht (n & wf & f & Hrun & H). exists (S n), wf, f. split; [|exact H].
  cbn [fst snd]. now rewrite run_step.
Qed.

Lemma catchError_ends (j : nat) (D : list (nat * nat)) (msg : string) (w : World) :
  map_delete (activeJobs w) j = D -> endsIn j D w (catchError j msg w).
Proof.
  intros HD.
  exists 1, (fst (step (snd (catchError j msg w)) (fst (catchError j msg w)))),
    (fun r => set_errorMessage (Some msg)
                (set_completedAt (Some (clock w)) (set_status failed r))).
  split; [reflexivity|]. split; [exact HD|]. split; [intro; reflexivity|].
  split; [right; intro; reflexivity | reflexivity].
Qed.

Lemma exit_ends (L : Locals) (D : list (nat * nat)) (i : nat) (acc : list JsObject) (pii : nat)
    (w : World) :
  List.length (l_records L) <= i ->
  map_delete (activeJobs w) (l_jobId L) = D ->
  endsIn (l_jobId L) D w (loopFrom L i acc pii w).
Proof.
  intros Hi HD. unfold loopFrom. cbv zeta.
  apply Nat.ltb_ge in Hi. rewrite Hi.
  destruct (convertToOutputFormat acc (outputFormat (l_config L))) as [out|msg].
  - match goal with |- endsIn _ _ _ (?w1, ?t) =>
      exists 3, (fst (run 3 t w1)),
        (fun r => set_completedAt (Some (clock w))
                    (set_processedRecords (Some (List.length acc))
                       (set_progress 100 (set_status completed r))))
    end.
    split; [reflexivity|]. split; [exact HD|]. split; [intro; reflexivity|].
    split; [left; intro; reflexivity | reflexivity].
  - match goal with |- endsIn _ _ _ (catchError _ _ ?wl) =>
      apply (endsIn_later (l_jobId L) D w wl); [apply apart_addLog|]
    end.
    now apply catchError_ends.
Qed.

Lemma loop_ends (L : Locals) (D : list (nat * nat)) :
  0 < l_batchSize L ->
  forall (fuel i : nat) (acc : list JsObject) (pii : nat) (w : World),
    List.length (l_records L) - i <= fuel ->
    map_delete (activeJobs w) (l_jobId L) = D ->
    endsIn (l_jobId L) D w (loopFrom L i acc pii w).
Proof.
  intros HB. induction fuel as [|fuel IH]; intros i acc pii w Hfuel HD.
  - apply exit_ends; [lia | exact HD].
  - destruct (i <? List.length (l_records L)) eqn:Ei.
    + destruct (aborted (l_controller L) w) eqn:Ea.
      * apply Nat.ltb_lt in Ei. rewrite (loopFrom_cancelled L i acc pii w Ei Ea).
        now apply catchError_ends.
      * apply Nat.ltb_lt in Ei. rewrite (loopFrom_batch L i acc pii w Ei Ea).
        apply endsIn_step; [discriminate|]. rewrite step_ProgressWritten.
        match goal with |- endsIn _ _ _ (loopFrom _ _ _ _ (emit ?ev (update_job _ _ ?wl))) =>
          apply (endsIn_later (l_jobId L) D w
                   (emit ev (update_job (l_jobId L) (writeProgress L i) wl)));
            [|apply IH; [lia | exact HD]];
          frame
        end.
    + apply Nat.ltb_ge in Ei. now apply exit_ends.
Qed.

Lemma start_ends (j : nat) (w : World) :
  endsIn j (map_delete (activeJobs w) j) w (w, Start j).
Proof.
  set (D := map_delete (activeJobs w) j).
  apply endsIn_step; [discriminate|].
  set (c := List.length (controllers w)).
  set (w1 := fst (step (Start j) w)).
  assert (A1 : map_delete (activeJobs w1) j = D).
  { unfold w1, D. cbn. apply map_delete_set. }
  change (step (Start j) w) with (w1, MarkedProcessing j c).
  apply (endsIn_later j D w w1); [apply (apart_step (Start j) w j eq_refl)|].
  apply endsIn_step; [discriminate|].
  set (w2 := addLog j "Processing started" w1).
  assert (A2 : map_delete (activeJobs w2) j = D) by exact A1.
  change (step (MarkedProcessing j c) w1) with (w2, JobSelected j c (select_job j w2)).
  apply (endsIn_later j D w1 w2); [apply apart_addLog|].
  apply endsIn_step; [discriminate|].
  destruct (select_job j w2) as [job|]; [|now apply catchError_ends].
  change (step (JobSelected j c (Some job)) w2)
    with (w2, SourceSelected j c job (select_dataSource (job_dataSourceId job) w2)).
  apply endsIn_step; [discriminate|].
  destruct (select_dataSource (job_dataSourceId job) w2) as [ds|];
    [|now apply catchError_ends].
  unfold step.
  set (w3 := addLog j ("Output format: " +++ outputFormat (parseConfig job))
               (addLog j ("Processing data source: " +++ ds_name ds) w2)).
  assert (P3 : apart j w2 w3).
  { apply (apart_trans j w2 (addLog j ("Processing data source: " +++ ds_name ds) w2) w3);
      apply apart_addLog. }
  assert (A3 : map_delete (activeJobs w3) j = D) by exact A2.
  destruct (s3Key ds) as [[|kc ks]|].
  1, 3: apply (endsIn_later j D w2 w3); [exact P3|]; now apply catchError_ends.
  set (key := String kc ks).
  set (w4 := addLog j "Downloading source file..." w3).
  assert (A4 : map_delete (activeJobs w4) j = D) by exact A3.
  apply (endsIn_later j D w2 w4);
    [apply (apart_trans j w2 w3 w4); [exact P3 | apply apart_addLog]|].
  apply endsIn_step; [discriminate|]. unfold step.
  destruct (downloadFile key w4) as [data|msg]; [|now apply catchError_ends].
  destruct (parseSourceData data (ds_format ds)) as [records|msg];
    [|now apply catchError_ends].
  set (L := mkLocals j c job ds (parseConfig job) key records (batchSizeOf (parseConfig job))).
  set (w5 := update_job j (set_totalRecords (Some (List.length records))) w4).
  apply (endsIn_later j D w4 w5); [apply apart_update; intro; reflexivity|].
  apply endsIn_step; [discriminate|].
  set (w6 := addLog j ("Found " +++ string_of_nat (List.length records)
                       +++ " records to process") w5).
  change (step (TotalWritten L) w5) with (loopFrom L 0 [] 0 w6).
  apply (endsIn_later j D w5 w6); [apply apart_addLog|].
  apply (loop_ends L D (batchSizeOf_pos _) (List.length records) 0 [] 0 w6).
  - unfold L. cbn [l_records]. lia.
  - unfold w6. rewrite active_addLog. unfold w5. rewrite active_update. exact A4.
Qed.

(** ** The loop, up to its exit *)

(** What the loop of job [j] leaves alone: the bucket, the datasets, the
    active jobs, the controllers, and in the rows of [j] all but the
    progress and the count of processed records. *)
Definition looping (j : nat) (w w' : World) : Prop :=
  bucket w' = bucket w
  /\ datasets w' = datasets w
  /\ activeJobs w' = activeJobs w
  /\ controllers w' = controllers w
  /\ exists f, keepsId f /\ (forall r, blank (f r) = blank r) /\ rowsBy j f w w'.

Lemma looping_refl (j : nat) (w : World) : looping j w w.
Proof.
  repeat split; try reflexivity.
  exists (fun r => r). split; [intro; reflexivity|]. split; [intro; reflexivity|].
  now apply rowsBy_refl.
Qed.

Lemma looping_trans (j : nat) (w w' w'' : World) :
  looping j w w' -> looping j w' w'' -> looping j w w''.
Proof.
  intros (B1 & D1 & A1 & C1 & f & Hf & Bf & Rf) (B2 & D2 & A2 & C2 & g & Hg & Bg & Rg).
  repeat split; try congruence.
  exists (fun r => g (f r)). split; [intro r; now rewrite Hg, Hf|].
  split; [intro r; now rewrite Bg, Bf|]. now apply (rowsBy_trans j f g w w' w'').
Qed.

Lemma looping_batch (L : Locals) (i : nat) (message : string) (e : Event) (w : World) :
  looping (l_jobId L) w
    (emit e (update_job (l_jobId L) (writeProgress L i) (addLog (l_jobId L) message w))).
Proof.
  repeat split; try reflexivity.
  exists (writeProgress L i). split; [intro; reflexivity|]. split; [intro; reflexivity|].
  reflexivity.
Qed.

(** The progress events of the batches from offset [i] on. *)
Fixpoint progressEvents (L : Locals) (fuel i : nat) : list Event :=
  match fuel with
  | O => []
  | S fuel' =>
      if i <? List.length (l_records L) then
        EvProgress (l_jobId L) (roundPercent (batchEnd L i) (List.length (l_records L)))
          (batchEnd L i) (List.length (l_records L))
        :: progressEvents L fuel' (i + l_batchSize L)
      else []
  end.

Lemma loop_to_exit (L : Locals) :
  0 < l_batchSize L ->
  forall (fuel i : nat) (acc : list JsObject) (pii : nat) (w : World),
    List.length (l_records L) - i <= fuel ->
    aborted (l_controller L) w = false ->
    let r := loopFrom L i acc pii w in
    let st := processBatch (l_config L) (skipn i (l_records L)) (acc, pii) in
    exists (k i' : nat) (w' : World),
      List.length (l_records L) <= i'
      /\ run k (snd r) (fst r) = loopFrom L i' (fst st) (snd st) w'
      /\ looping (l_jobId L) w w'
      /\ emitted w' = emitted w ++ progressEvents L fuel i.
Proof.
  intros HB. induction fuel as [|fuel IH]; intros i acc pii w Hfuel Hab; cbv zeta.
  - exists 0, i, w. split; [lia|]. split; [|split; [apply looping_refl|]].
    + rewrite skipn_all2 by lia. cbn [processBatch fold_left fst snd run].
      symmetry. apply surjective_pairing.
    + cbn [progressEvents]. now rewrite app_nil_r.
  - cbn [progressEvents]. destruct (i <? List.length (l_records L)) eqn:Ei.
    + apply Nat.ltb_lt in Ei. rewrite (loopFrom_batch L i acc pii w Ei Hab). cbn [fst snd].
      set (batch := firstn (l_batchSize L) (skipn i (l_records L))).
      set (st1 := processBatch (l_config L) batch (acc, pii)).
      assert (Hrest : processBatch (l_config L) (skipn (i + l_batchSize L) (l_records L))
                        (fst st1, snd st1)
                      = processBatch (l_config L) (skipn i (l_records L)) (acc, pii)).
      { rewrite <- surjective_pairing. unfold st1, batch.
        rewrite <- processBatch_app. f_equal.
        replace (skipn (i + l_batchSize L) (l_records L))
          with (skipn (l_batchSize L) (skipn i (l_records L)))
          by (rewrite skipn_skipn; f_equal; lia).
        apply firstn_skipn. }
      match goal with |- context [run _ (ProgressWritten L i ?len ?p _ _) ?w1] =>
        set (ev := EvProgress (l_jobId L) p (i + len) (List.length (l_records L)));
        destruct (IH (i + l_batchSize L) (fst st1) (snd st1) (emit ev w1) ltac:(lia) Hab)
          as (k & i' & w' & Hi' & Hrun & Hl & He)
      end.
      cbv zeta in Hrun. rewrite Hrest in Hrun.
      exists (S k), i', w'. split; [exact Hi'|]. split; [|split].
      * rewrite run_step by discriminate. rewrite step_ProgressWritten. exact Hrun.
      * eapply looping_trans; [|exact Hl]. apply looping_batch.
      * rewrite He. cbn [emit with_emitted emitted]. rewrite <- app_assoc. reflexivity.
    + apply Nat.ltb_ge in Ei. exists 0, i, w. split; [exact Ei|].
      split; [|split; [apply looping_refl | now rewrite app_nil_r]].
      rewrite skipn_all2 by lia. cbn [processBatch fold_left fst snd run].
      symmetry. apply surjective_pairing.
Qed.

End WithHost.

(** ** A job whose source is read *)

Section Sourced.
Context {host : Host}.

Variable w0 : World.
Variable jobId : nat.
Variable job : JobRow.
Variable dataSource : DataSourceRow.
Variable sourceKey sourceData : string.
Variable records : list JsObject.

(** The job and its data source are in their tables, the source file is
    in the bucket and decodes to [records]. *)
Definition sourced : Prop :=
  select_job jobId w0 = Some job
  /\ select_dataSource (job_dataSourceId job) w0 = Some dataSource
  /\ s3Key dataSource = Some sourceKey
  /\ sourceKey <> EmptyString
  /\ downloadFile sourceKey w0 = Ok sourceData
  /\ parseSourceData sourceData (ds_format dataSource) = Ok records.

(** The first six pieces of the call bring it to the loop. *)
Lemma run_to_loop :
  sourced ->
  exists w6,
    run 6 (Start jobId) w0
    = loopFrom (locals w0 jobId job dataSource sourceKey records) 0 [] 0 w6
    /\ aborted (List.length (controllers w0)) w6 = false
    /\ select_job jobId w6 = Some (counted w0 job records)
    /\ bucket w6 = bucket w0
    /\ datasets w6 = datasets w0
    /\ emitted w6 = emitted w0.
Proof.
  intros (Hjob & Hds & Hkey & Hne & Hdl & Hparse).
  destruct sourceKey as [|kc ks] eqn:Ek; [now contradiction Hne|]. rewrite <- Ek in *.
  set (c := List.length (controllers w0)).
  set (w1 := update_job jobId
               (fun r => set_progress 0 (set_startedAt (Some (clock w0)) (set_status processing r)))
               (with_activeJobs (map_set (activeJobs w0) jobId c)
                  (with_controllers (controllers w0 ++ [false]) w0))).
  assert (S1 : step (Start jobId) w0 = (w1, MarkedProcessing jobId c)) by reflexivity.
  assert (R1 : select_job jobId w1 = Some (started w0 job)).
  { unfold w1. rewrite select_update by reflexivity.
    rewrite select_with_activeJobs, select_with_controllers. now rewrite Hjob. }
  assert (A1 : aborted c w1 = false).
  { unfold w1. rewrite aborted_update, aborted_with_activeJobs. apply aborted_fresh. }
  set (w2 := addLog jobId "Processing started" w1).
  assert (R2 : select_job jobId w2 = Some (started w0 job)).
  { unfold w2. now rewrite select_addLog. }
  assert (S2 : step (MarkedProcessing jobId c) w1
               = (w2, JobSelected jobId c (Some (started w0 job)))).
  { rewrite <- R2. reflexivity. }
  assert (D2 : select_dataSource (job_dataSourceId (started w0 job)) w2 = Some dataSource).
  { unfold w2, w1. rewrite source_addLog, source_update, source_with_activeJobs,
      source_with_controllers. exact Hds. }
  assert (S3 : step (JobSelected jobId c (Some (started w0 job))) w2
               = (w2, SourceSelected jobId c (started w0 job) (Some dataSource))).
  { rewrite <- D2. reflexivity. }
  set (w4 := addLog jobId "Downloading source file..."
               (addLog jobId ("Output format: " +++ outputFormat (parseConfig (started w0 job)))
                  (addLog jobId ("Processing data source: " +++ ds_name dataSource) w2))).
  assert (F4 : downloadFile sourceKey w4 = Ok sourceData).
  { unfold w4, w2, w1. rewrite !download_addLog, download_update, download_with_activeJobs,
      download_with_controllers. exact Hdl. }
  assert (S4 : step (SourceSelected jobId c (started w0 job) (Some dataSource)) w2
               = (w4, Downloaded jobId c (started w0 job) dataSource
                        (parseConfig (started w0 job)) sourceKey (Ok sourceData))).
  { rewrite <- F4. unfold step. rewrite Hkey, Ek. reflexivity. }
  set (w5 := update_job jobId (set_totalRecords (Some (List.length records))) w4).
  assert (S5 : step (Downloaded jobId c (started w0 job) dataSource
                       (parseConfig (started w0 job)) sourceKey (Ok sourceData)) w4
               = (w5, TotalWritten (locals w0 jobId job dataSource sourceKey records))).
  { unfold step. rewrite Hparse. reflexivity. }
  set (w6 := addLog jobId
               ("Found " +++ string_of_nat (List.length records) +++ " records to process") w5).
  assert (S6 : step (TotalWritten (locals w0 jobId job dataSource sourceKey records)) w5
               = loopFrom (locals w0 jobId job dataSource sourceKey records) 0 [] 0 w6)
    by reflexivity.
  exists w6. split.
  - rewrite run_step by discriminate. rewrite S1. cbn [fst snd].
    rewrite run_step by discriminate. rewrite S2. cbn [fst snd].
    rewrite run_step by discriminate. rewrite S3. cbn [fst snd].
    rewrite run_step by discriminate. rewrite S4. cbn [fst snd].
    rewrite run_step by discriminate. rewrite S5. cbn [fst snd].
    rewrite run_step by discriminate. rewrite S6. cbn [run].
    symmetry. apply surjective_pairing.
  - split.
    { unfold w6, w5, w4, w2. rewrite aborted_addLog, aborted_update, !aborted_addLog.
      exact A1. }
    split.
    { unfold w6, w5. rewrite select_addLog, select_update by reflexivity.
      unfold w4. rewrite !select_addLog. now rewrite R2. }
    repeat split; reflexivity.
Qed.

(** The rest of the call when the output format is one that
    [convertToOutputFormat] knows: what it leaves in the bucket, in the table
    of datasets and among the emitted events. *)
Lemma run_to_done :
  sourced ->
  In (outputFormat (parseConfig job)) ["json"; "jsonl"; "csv"] ->
  let L := locals w0 jobId job dataSource sourceKey records in
  let outcome := processBatch (parseConfig job) records ([], 0) in
  exists (n : nat) (wf : World) (outputData : string),
    run n (Start jobId) w0 = (wf, Done)
    /\ convertToOutputFormat (fst outcome) (outputFormat (parseConfig job)) = Ok outputData
    /\ bucket wf = put_object (bucket w0) (outputKeyOf L) outputData
    /\ datasets wf
       = datasets w0
         ++ [mkDataset (S (List.length (datasets w0))) (job_projectId job) (job_id job)
               (ds_name dataSource +++ "_processed") (outputFormat (parseConfig job))
               (outputKeyOf L) (List.length (fst outcome)) (String.length outputData)]
    /\ emitted wf
       = emitted w0 ++ progressEvents L (List.length records) 0
         ++ [EvCompleted jobId (S (List.length (datasets w0)))].
Proof.
  intros Hs Hfmt. cbv zeta.
  destruct (run_to_loop Hs) as (w6 & Run6 & A6 & R6 & B6 & D6 & E6).
  set (L := locals w0 jobId job dataSource sourceKey records) in *.
  destruct (loop_to_exit L (batchSizeOf_pos _) (List.length records) 0 [] 0 w6
              ltac:(simpl; lia) A6) as (k & i' & w' & Hi' & Hrun & Hl & He).
  cbv zeta in Hrun.
  change (skipn 0 (l_records L)) with records in Hrun.
  change (l_config L) with (parseConfig job) in Hrun.
  set (outcome := processBatch (parseConfig job) records ([], 0)) in *.
  destruct Hl as (Bl & Dl & _).
  destruct (convert_total _ Hfmt) as [encode Henc].
  set (out := encode (fst outcome)).
  set (w7 := with_bucket (put_object (bucket w') (outputKeyOf L) out)
               (addLog jobId "Uploading output file..."
                  (addLog jobId (completeLine (fst outcome) (snd outcome)) w'))).
  assert (Hexit : loopFrom L i' (fst outcome) (snd outcome) w'
                  = (w7, Uploaded L (fst outcome) out (outputKeyOf L))).
  { apply (loopFrom_exit L i' (fst outcome) (snd outcome) w' out Hi'). apply Henc. }
  set (dataset := mkDataset (S (List.length (datasets w7))) (job_projectId (l_job L))
                    (job_id (l_job L)) (ds_name dataSource +++ "_processed")
                    (outputFormat (parseConfig job)) (outputKeyOf L)
                    (List.length (fst outcome)) (String.length out)).
  set (w8 := with_datasets (datasets w7 ++ [dataset]) w7).
  assert (S8 : step (Uploaded L (fst outcome) out (outputKeyOf L)) w7
               = (w8, DatasetInserted L (fst outcome) dataset)) by reflexivity.
  set (w9 := update_job jobId
               (fun r => set_completedAt (Some (clock w8))
                           (set_processedRecords (Some (List.length (fst outcome)))
                              (set_progress 100 (set_status completed r)))) w8).
  assert (S9 : step (DatasetInserted L (fst outcome) dataset) w8
               = (w9, CompletedWritten jobId dataset)) by reflexivity.
  set (w10 := finallyBlock jobId
                (emit (EvCompleted jobId (dataset_id dataset))
                   (addLog jobId ("Job completed successfully. Dataset ID: "
                                  +++ string_of_nat (dataset_id dataset)) w9))).
  assert (S10 : step (CompletedWritten jobId dataset) w9 = (w10, Done)) by reflexivity.
  assert (D7 : datasets w7 = datasets w0).
  { change (datasets w7) with (datasets w'). now rewrite Dl, D6. }
  exists (6 + (k + 3)), w10, out. split.
  { rewrite run_add, Run6. rewrite run_add, Hrun, Hexit. cbn [fst snd].
    rewrite run_step by discriminate. rewrite S8. cbn [fst snd].
    rewrite run_step by discriminate. rewrite S9. cbn [fst snd].
    rewrite run_step by discriminate. rewrite S10. reflexivity. }
  split; [apply Henc|]. split.
  { change (bucket w10) with (put_object (bucket w') (outputKeyOf L) out).
    now rewrite Bl, B6. }
  split.
  { change (datasets w10) with (datasets w7 ++ [dataset]). unfold dataset.
    rewrite D7. reflexivity. }
  change (emitted w10) with (emitted w' ++ [EvCompleted jobId (dataset_id dataset)]).
  rewrite He, E6. change (dataset_id dataset) with (S (List.length (datasets w7))).
  rewrite D7, <- app_assoc. reflexivity.
Qed.

End Sourced.

(** ** The bucket *)

Lemma find_put_same (b : list (string * string)) (key body : string) :
  find (fun kv => String.eqb (fst kv) key) (put_object b key body) = Some (key, body).
Proof.
  induction b as [|[k v] b IH]; cbn [put_object find fst].
  - now rewrite String.eqb_refl.
  - destruct (String.eqb k key) eqn:E; cbn [find fst].
    + now rewrite String.eqb_refl.
    + rewrite E. exact IH.
Qed.

Lemma find_put_other (b : list (string * string)) (key body other : string) :
  other <> key ->
  find (fun kv => String.eqb (fst kv) other) (put_object b key body)
  = find (fun kv => String.eqb (fst kv) other) b.
Proof.
  intros Hne. assert (Hk : String.eqb key other = false).
  { apply String.eqb_neq. congruence. }
  induction b as [|[k v] b IH]; cbn [put_object find fst].
  - now rewrite Hk.
  - destruct (String.eqb k key) eqn:E; cbn [find fst].
    + apply String.eqb_eq in E. subst k. now rewrite Hk.
    + rewrite IH. reflexivity.
Qed.

(** ** The progress events, one by one *)

Lemma progressEvents_nth {host : Host} (L : Locals) :
  0 < l_batchSize L ->
  forall (fuel k0 k : nat),
    List.length (l_records L) - k0 * l_batchSize L <= fuel ->
    nth_error (progressEvents L fuel (k0 * l_batchSize L)) k
    = if (k0 + k) * l_batchSize L <? List.length (l_records L) then
        let processed :=
          Nat.min ((k0 + k + 1) * l_batchSize L) (List.length (l_records L)) in
        Some (EvProgress (l_jobId L)
                (roundPercent processed (List.length (l_records L))) processed
                (List.length (l_records L)))
      else None.
Proof.
  intros HB. induction fuel as [|fuel IH]; intros k0 k Hfuel; cbv zeta.
  - cbn [progressEvents].
    replace ((k0 + k) * l_batchSize L <? List.length (l_records L)) with false
      by (symmetry; apply Nat.ltb_ge; nia).
    now destruct k.
  - cbn [progressEvents].
    destruct (k0 * l_batchSize L <? List.length (l_records L)) eqn:E.
    + apply Nat.ltb_lt in E. destruct k as [|k]; cbn [nth_error].
      * rewrite Nat.add_0_r. replace (k0 * l_batchSize L <? List.length (l_records L))
          with true by (symmetry; apply Nat.ltb_lt; exact E).
        rewrite (batchEnd_min L) by lia.
        replace ((k0 + 1) * l_batchSize L) with (k0 * l_batchSize L + l_batchSize L) by lia.
        reflexivity.
      * replace (k0 * l_batchSize L + l_batchSize L) with (S k0 * l_batchSize L) by lia.
        rewrite IH by (simpl; lia). cbv zeta.
        replace (S k0 + k) with (k0 + S k) by lia. reflexivity.
    + apply Nat.ltb_ge in E.
      replace ((k0 + k) * l_batchSize L <? List.length (l_records L)) with false
        by (symmetry; apply Nat.ltb_ge; nia).
      now destruct k.
Qed.

End RunFacts.

Module RunTheorems.

Import Queue QueueFacts RunFacts.




(** The job of the scenario asked for the format parquet. *)
Definition parquetJob : JobRow :=
  mkJob 1 1 1 None pending 0 "parquet" (Some "export-0") (Some 0) None None None None None
    None 0
    (Some (mkConfig "parquet" true false None None
             (Some [mkCondition "age" "gt" (CNumber (Num 17))]) (Some 4)))
    None None.

Definition parquetWorld : World :=
  mkWorld [parquetJob] [Scenario.dataSource] [] [mkProject 1 1 None] [] []
    [(Scenario.key, Scenario.content)] false [] [] [] [] 0.


(** X16.  A job whose data source has no S3 key fails before anything is
    read: after five pieces the call is at its end, the row is in the status
    failed with that message, no record has been counted, and the bucket and
    the datasets are as they were. *)
Theorem missing_key_fails {host : Host} (w0 : World) (jobId : nat) (job : JobRow)
    (dataSource : DataSourceRow) :
  select_job jobId w0 = Some job ->
  select_dataSource (job_dataSourceId job) w0 = Some dataSource ->
  s3Key dataSource = None \/ s3Key dataSource = Some EmptyString ->
  exists (wf : World) (final : JobRow),
    run 5 (Start jobId) w0 = (wf, Done)
    /\ select_job jobId wf = Some final
    /\ status final = failed
    /\ errorMessage final = Some "Data source has no S3 key"
    /\ progress final = 0
    /\ totalRecords final = totalRecords job
    /\ bucket wf = bucket w0
    /\ datasets wf = datasets w0
    /\ emitted wf = emitted w0 ++ [EvFailed jobId "Data source has no S3 key"].
Proof.
  intros Hjob Hds Hkey.
  set (c := List.length (controllers w0)).
  set (w1 := update_job jobId
               (fun r => set_progress 0 (set_startedAt (Some (clock w0)) (set_status processing r)))
               (with_activeJobs (map_set (activeJobs w0) jobId c)
                  (with_controllers (controllers w0 ++ [false]) w0))).
  assert (S1 : step (Start jobId) w0 = (w1, MarkedProcessing jobId c)) by reflexivity.
  assert (R1 : select_job jobId w1 = Some (started w0 job)).
  { unfold w1. rewrite select_update by reflexivity.
    rewrite select_with_activeJobs, select_with_controllers. now rewrite Hjob. }
  set (w2 := addLog jobId "Processing started" w1).
  assert (R2 : select_job jobId w2 = Some (started w0 job)).
  { unfold w2. now rewrite select_addLog. }
  assert (S2 : step (MarkedProcessing jobId c) w1
               = (w2, JobSelected jobId c (Some (started w0 job)))).
  { rewrite <- R2. reflexivity. }
  assert (D2 : select_dataSource (job_dataSourceId (started w0 job)) w2 = Some dataSource).
  { unfold w2, w1. rewrite source_addLog, source_update, source_with_activeJobs,
      source_with_controllers. exact Hds. }
  assert (S3 : step (JobSelected jobId c (Some (started w0 job))) w2
               = (w2, SourceSelected jobId c (started w0 job) (Some dataSource))).
  { rewrite <- D2. reflexivity. }
  set (w3 := addLog jobId ("Output format: " +++ outputFormat (parseConfig (started w0 job)))
               (addLog jobId ("Processing data source: " +++ ds_name dataSource) w2)).
  assert (S4 : step (SourceSelected jobId c (started w0 job) (Some dataSource)) w2
               = catchError jobId "Data source has no S3 key" w3).
  { unfold step. destruct Hkey as [-> | ->]; reflexivity. }
  set (w4 := addLog jobId "Job failed: Data source has no S3 key" w3).
  set (failedRow := fun r => set_errorMessage (Some "Data source has no S3 key")
                              (set_completedAt (Some (clock w4)) (set_status failed r))).
  set (w5 := update_job jobId failedRow w4).
  assert (S5 : catchError jobId "Data source has no S3 key" w3
               = (w5, FailedWritten jobId "Data source has no S3 key")) by reflexivity.
  set (wf := finallyBlock jobId (emit (EvFailed jobId "Data source has no S3 key") w5)).
  exists wf, (failedRow (started w0 job)).
  split.
  - rewrite run_step by discriminate. rewrite S1. cbn [fst snd].
    rewrite run_step by discriminate. rewrite S2. cbn [fst snd].
    rewrite run_step by discriminate. rewrite S3. cbn [fst snd].
    rewrite run_step by discriminate. rewrite S4, S5. cbn [fst snd].
    reflexivity.
  - split.
    { unfold wf. rewrite select_finally, select_emit. unfold w5.
      rewrite select_update by reflexivity. unfold w4, w3. rewrite !select_addLog.
      now rewrite R2. }
    repeat split; reflexivity.
Qed.

(** The scenario with a data source that has no key. *)
Definition keylessWorld : World :=
  mkWorld [Scenario.job] [mkDataSource 1 1 "people" "json" "ready" None None None] []
    [mkProject 1 1 None] [] [] [] false [] [] [] [] 0.

Lemma missing_key_fails_witness :
  exists (wf : World) (final : JobRow),
    run (host := Scenario.host) 5 (Start 1) keylessWorld = (wf, Done)
    /\ select_job 1 wf = Some final
    /\ status final = failed
    /\ errorMessage final = Some "Data source has no S3 key"
    /\ progress final = 0
    /\ totalRecords final = None
    /\ bucket wf = []
    /\ datasets wf = []
    /\ emitted wf = [EvFailed 1 "Data source has no S3 key"].
Proof.
  refine (missing_key_fails (host := Scenario.host) keylessWorld 1 Scenario.job _ _ _ _).
  - reflexivity.
  - reflexivity.
  - now left.
Defined.





End RunTheorems.
(* ===================================================================== *)
(** * More of the queue: its log, its slots, its public methods *)
(* ===================================================================== *)

Module QueueStateTheorems.

Import Queue QueueFacts RunFacts.

Lemma limitLog_length (logs : list string) : List.length (limitLog logs) <= 1000.
Proof.
  unfold limitLog. destruct (1000 <? List.length logs) eqn:E.
  - rewrite length_skipn. lia.
  - apply Nat.ltb_ge in E. exact E.
Qed.

Lemma limitLog_suffix (logs : list string) : exists dropped, logs = dropped ++ limitLog logs.
Proof.
  unfold limitLog. destruct (1000 <? List.length logs).
  - exists (firstn (List.length logs - 1000) logs). symmetry. apply firstn_skipn.
  - now exists [].
Qed.

Lemma limitLog_last (older : list string) (line d : string) :
  last (limitLog (older ++ [line])) d = line.
Proof.
  unfold limitLog. destruct (1000 <? List.length (older ++ [line])); [|apply last_last].
  rewrite length_app. cbn [List.length]. rewrite skipn_app.
  replace (List.length older + 1 - 1000 - List.length older) with 0 by lia.
  cbn [skipn]. apply last_last.
Qed.

(** X19.  After [addLog] the log of the job has at most 1000 lines, the
    line just written is its last, the lines before it are the most recent
    of the lines it had, in their order, and the log of no other job has
    changed. *)
Theorem addLog_bounded {host : Host} (jobId : nat) (message : string) (w : World) :
  let logs := getLogs jobId (addLog jobId message w) in
  List.length logs <= 1000
  /\ last logs EmptyString = logLine message w
  /\ (exists dropped, getLogs jobId w ++ [logLine message w] = dropped ++ logs)
  /\ (forall k, k <> jobId -> getLogs k (addLog jobId message w) = getLogs k w).
Proof.
  cbv zeta.
  assert (E : getLogs jobId (addLog jobId message w)
              = limitLog (getLogs jobId w ++ [logLine message w])).
  { unfold getLogs at 1. now rewrite addLog_logs. }
  rewrite E.
  split; [apply limitLog_length|]. split; [apply limitLog_last|].
  split; [apply limitLog_suffix|].
  intros k Hk. unfold getLogs, addLog. cbv zeta. unfold with_jobLogs. cbn [jobLogs].
  now rewrite map_get_set_other.
Qed.

Lemma map_get_delete (V : Type) (m : list (nat * V)) (k : nat) :
  NoDup (map fst m) -> map_get (map_delete m k) k = None.
Proof.
  induction m as [|[k0 v0] m IH]; intros Hnd; simpl; [reflexivity|].
  inversion Hnd as [|? ? Hk0 Hrest]; subst.
  destruct (k0 =? k) eqn:E; simpl.
  - apply Nat.eqb_eq in E. subst k0.
    destruct (map_get m k) eqn:G; [|reflexivity].
    exfalso. apply Hk0. clear -G. induction m as [|[k1 v1] m IH]; simpl in *; [discriminate|].
    destruct (k1 =? k) eqn:E; [apply Nat.eqb_eq in E; now left | right; now apply IH].
  - rewrite E. now apply IH.
Qed.

Lemma active_emit (e : Event) (w : World) : activeJobs (emit e w) = activeJobs w.
Proof. reflexivity. Qed.

Lemma active_with_activeJobs (v : list (nat * nat)) (w : World) :
  activeJobs (with_activeJobs v w) = v.
Proof. reflexivity. Qed.

(** X20.  A second [cancel] of the same job finds it no longer among the
    active jobs: it returns false and changes nothing. *)
Theorem cancel_twice {host : Host} (jobId : nat) (w : World) :
  NoDup (map fst (activeJobs w)) ->
  snd (cancel jobId w) = true ->
  cancel jobId (fst (cancel jobId w)) = (fst (cancel jobId w), false).
Proof.
  intros Hnd Hc. unfold cancel at 2 3.
  destruct (map_get (activeJobs w) jobId) as [c|] eqn:E;
    [|unfold cancel in Hc; rewrite E in Hc; discriminate].
  cbn [fst]. unfold cancel.
  match goal with |- context [map_get (activeJobs ?w1) jobId] =>
    replace (map_get (activeJobs w1) jobId) with (@None nat); [reflexivity|]
  end.
  symmetry. rewrite active_emit, active_addLog, active_update, active_with_activeJobs.
  apply map_get_delete. exact Hnd.
Qed.

(** A job that is being processed, cancelled twice. *)
Lemma cancel_twice_witness :
  let w := fst (run (host := Scenario.host) 6 (Start 1) Scenario.world) in
  snd (cancel (host := Scenario.host) 1 w) = true
  /\ cancel (host := Scenario.host) 1 (fst (cancel (host := Scenario.host) 1 w))
     = (fst (cancel (host := Scenario.host) 1 w), false).
Proof.
  cbv zeta. split; [reflexivity|].
  apply (cancel_twice (host := Scenario.host)).
  - repeat (constructor; [simpl; intuition discriminate|]). constructor.
  - reflexivity.
Defined.

Lemma map_size_set (V : Type) (m : list (nat * V)) (k : nat) (v : V) :
  map_size (map_set m k v) <= S (map_size m).
Proof.
  unfold map_size. induction m as [|[k0 v0] m IH]; simpl; [lia|].
  destruct (k0 =? k); simpl; lia.
Qed.

Section Slots.
Context {host : Host} {scan : Scan}.

Lemma launch_sizes (jobs : list JobRow) (w : World) (ts : list Task) :
  let r :=
    fold_left
      (fun st job =>
         let r := step (Start (job_id job)) (fst st) in
         (fst r, snd st ++ [snd r]))
      jobs (w, ts) in
  map_size (activeJobs (fst r)) <= map_size (activeJobs w) + List.length jobs
  /\ List.length (snd r) = List.length ts + List.length jobs.
Proof.
  revert w ts. induction jobs as [|job jobs IH]; intros w ts; cbv zeta.
  - cbn [fold_left fst snd List.length]. lia.
  - cbn [fold_left fst snd].
    specialize (IH (fst (step (Start (job_id job)) w))
                   (ts ++ [snd (step (Start (job_id job)) w)])).
    cbv zeta in IH. destruct IH as [I1 I2]. split.
    + eapply Nat.le_trans; [exact I1|].
      assert (H : map_size (activeJobs (fst (step (Start (job_id job)) w)))
                  <= S (map_size (activeJobs w))).
      { unfold step. cbn [fst]. rewrite active_update, active_with_activeJobs.
        apply map_size_set. }
      cbn [List.length]. lia.
    + rewrite I2, length_app. cbn [List.length]. lia.
Qed.

(** X21.  A turn of [processQueue] starts no more calls of [processJob]
    than there are free slots, and leaves no more than [concurrency] jobs
    active when no more than that were active before. *)
Theorem processQueueTurn_bounded (w : World) :
  map_size (activeJobs w) <= concurrency ->
  let r := processQueueTurn w in
  List.length (snd (fst r)) <= concurrency - map_size (activeJobs w)
  /\ map_size (activeJobs (fst (fst r))) <= concurrency.
Proof.
  intros Hw. cbv zeta. unfold processQueueTurn.
  destruct (availableSlots w <=? 0) eqn:E;
    [cbn [fst snd List.length]; split; [lia | exact Hw]|].
  assert (Hlen : List.length (selectPending (availableSlots w) w) <= availableSlots w).
  { unfold selectPending. apply firstn_le_length. }
  destruct (selectPending (availableSlots w) w) as [|job jobs] eqn:Ep.
  - cbn [fst snd List.length]. split; [lia | exact Hw].
  - pose proof (launch_sizes (job :: jobs) w []) as H. cbv zeta in H.
    destruct H as [H1 H2]. cbn [fst snd].
    unfold availableSlots in Hlen. cbn [List.length] in Hlen, H1, H2 |- *. split; lia.
Qed.

End Slots.

(** One slot free and two jobs pending: one call is started. *)
Lemma processQueueTurn_bounded_witness :
  let r := processQueueTurn (host := Scenario.host) (scan := SchedulerTheorems.tableOrder)
             SchedulerTheorems.twoPending in
  map SchedulerTheorems.taskJob (snd (fst r)) = [Some 1]
  /\ (List.length (snd (fst r))
      <= concurrency - map_size (activeJobs SchedulerTheorems.twoPending)
      /\ map_size (activeJobs (fst (fst r))) <= concurrency).
Proof.
  cbv zeta. split; [reflexivity|].
  apply (processQueueTurn_bounded (host := Scenario.host) (scan := SchedulerTheorems.tableOrder)).
  simpl. unfold map_size, concurrency. simpl. lia.
Defined.

(** ** A job just created *)

Import JobsController.

Lemma find_fresh (rows : list JobRow) (job : JobRow) :
  job_id job = nextId (map job_id rows) ->
  find (fun r => job_id r =? job_id job) (rows ++ [job]) = Some job.
Proof.
  intros Hid.
  assert (Hlt : forall r, In r rows -> job_id r < job_id job).
  { intros r Hr. rewrite Hid. unfold nextId.
    pose proof (proj1 (list_max_le (map job_id rows) _) (le_n _)) as H.
    rewrite Forall_forall in H. specialize (H (job_id r) (in_map job_id rows r Hr)). lia. }
  clear Hid. induction rows as [|r rows IH]; cbn [app find].
  - now rewrite Nat.eqb_refl.
  - destruct (job_id r =? job_id job) eqn:E.
    + apply Nat.eqb_eq in E. specialize (Hlt r (or_introl eq_refl)). lia.
    + apply IH. intros x Hx. apply Hlt. now right.
Qed.

(** X22.  The job that [create] has just created is found by
    [getProgress] under the id of the response, in the status pending, with
    no progress, no record processed or counted, no error and no date of
    start or of completion. *)
Theorem created_job_progress (body : CreateJobInput) (user : User) (w : World) (job : JobRow) :
  snd (create body user w) = Created job ->
  getProgress (job_id job) (fst (create body user w))
  = Some (mkJobProgress (job_id job) pending 0 0 0 [] None None).
Proof.
  unfold create.
  destruct (projectId body) as [[|p]|]; try discriminate.
  destruct (find _ (projects w)) as [project|]; try discriminate.
  destruct (negb (organisationId project =? user_organisationId user)); try discriminate.
  destruct (find _ (dataSources w)) as [ds|]; try discriminate.
  destruct (negb (String.eqb (ds_status ds) "ready")); try discriminate.
  match goal with
  | |- context [if ?m then _ else _] => destruct m
  end; try discriminate.
  cbn [fst snd]. intros H. injection H as <-.
  unfold getProgress, select_job. cbn [processingJobs with_auditLogs with_processingJobs].
  rewrite find_fresh by reflexivity. reflexivity.
Qed.

Lemma created_job_progress_witness :
  exists job,
    snd (create SubmissionTheorems.request SubmissionTheorems.requester
           SubmissionTheorems.beforeCreate) = Created job
    /\ getProgress (job_id job)
         (fst (create SubmissionTheorems.request SubmissionTheorems.requester
                 SubmissionTheorems.beforeCreate))
       = Some (mkJobProgress (job_id job) pending 0 0 0 [] None None).
Proof.
  eexists. split; [reflexivity|].
  apply created_job_progress. reflexivity.
Defined.

End QueueStateTheorems.
(* ===================================================================== *)
(** * Parameters, pages and keys *)
(* ===================================================================== *)

Module ValidationTheorems.

Import Errors Validation.

(** The string is empty or begins with a character that is not a decimal
    digit. *)
Definition noLeadingDigit (s : string) : Prop :=
  match s with
  | EmptyString => True
  | String c _ => digitOf c = None
  end.

Lemma digitsValue_rest (rest : string) (acc : Z) (seen : bool) :
  noLeadingDigit rest -> digitsValue rest acc seen = if seen then Some acc else None.
Proof. destruct rest as [|c rest]; simpl; [reflexivity|]. now intros ->. Qed.

Lemma digitsValue_uint (d : Decimal.uint) (rest : string) :
  noLeadingDigit rest ->
  forall (acc : nat) (seen : bool),
    digitsValue (NilEmpty.string_of_uint d +++ rest) (Z.of_nat acc) seen
    = match d with
      | Decimal.Nil => if seen then Some (Z.of_nat acc) else None
      | _ => Some (Z.of_nat (Nat.of_uint_acc d acc))
      end.
Proof.
  intros Hrest. induction d as [|d IH|d IH|d IH|d IH|d IH|d IH|d IH|d IH|d IH|d IH];
    intros acc seen;
    [ now apply digitsValue_rest | .. ];
    cbn [NilEmpty.string_of_uint String.append digitsValue];
    match goal with
    | |- context [digitOf ?c] =>
        let v := eval vm_compute in (digitOf c) in change (digitOf c) with v
    end;
    cbv iota beta; cbn [Nat.of_uint_acc];
    match goal with
    | |- digitsValue _ ?a true = Some (Z.of_nat (Nat.of_uint_acc d ?b)) =>
        replace a with (Z.of_nat b) by (rewrite Nat.tail_mul_spec; lia)
    end;
    rewrite IH; now destruct d.
Qed.

Lemma to_uint_nonnil (n : nat) : 0 < n -> Nat.to_uint n <> Decimal.Nil.
Proof.
  intros Hn H. pose proof (Unsigned.of_to n) as E. rewrite H in E. cbn in E. lia.
Qed.

Lemma uint_head (d : Decimal.uint) (rest : string) :
  d <> Decimal.Nil ->
  exists c tail, NilEmpty.string_of_uint d +++ rest = String c tail
                 /\ Js.is_blank c = false /\ c <> "-"%char /\ c <> "+"%char.
Proof.
  intros Hd. destruct d; [now contradiction Hd | ..];
    eexists; eexists; (split; [reflexivity|]); repeat split; discriminate.
Qed.

(** X23.  [parseIntParam] reads the decimal digits that a value begins
    with and passes over what follows them: given the digits of a positive
    integer below [2^53], followed by nothing or by any text that does not
    begin with a digit, it returns that integer.  So it returns [n] for
    [String(n)]. *)
Theorem parseIntParam_digits (n : nat) (rest paramName : string) :
  0 < n -> (Z.of_nat n < 2 ^ 53)%Z -> noLeadingDigit rest ->
  parseIntParam (Queue.string_of_nat n +++ rest) paramName = Returns (Z.of_nat n).
Proof.
  intros Hn Hsmall Hrest. unfold parseIntParam, parseInt, Queue.string_of_nat.
  destruct (uint_head (Nat.to_uint n) rest (to_uint_nonnil n Hn))
    as (c & tail & E & Hb & Hm & Hp).
  assert (Hskip : skipBlank (NilEmpty.string_of_uint (Nat.to_uint n) +++ rest)
                  = NilEmpty.string_of_uint (Nat.to_uint n) +++ rest).
  { rewrite E. cbn [skipBlank]. now rewrite Hb. }
  cbv zeta. rewrite Hskip.
  assert (Hsign : match NilEmpty.string_of_uint (Nat.to_uint n) +++ rest with
                  | String "-" s' => s'
                  | String "+" s' => s'
                  | _ => NilEmpty.string_of_uint (Nat.to_uint n) +++ rest
                  end = NilEmpty.string_of_uint (Nat.to_uint n) +++ rest).
  { rewrite E. destruct c as [[] [] [] [] [] [] [] []]; try reflexivity;
      [now contradiction Hm | now contradiction Hp]. }
  rewrite Hsign.
  assert (Hneg : match NilEmpty.string_of_uint (Nat.to_uint n) +++ rest with
                 | String "-" _ => true
                 | _ => false
                 end = false).
  { rewrite E. destruct c as [[] [] [] [] [] [] [] []]; try reflexivity.
    now contradiction Hm. }
  rewrite Hneg.
  change 0%Z with (Z.of_nat 0). rewrite (digitsValue_uint _ rest Hrest 0 false).
  assert (Hval : Nat.of_uint_acc (Nat.to_uint n) 0 = n) by apply Unsigned.of_to.
  rewrite Hval.
  destruct (Nat.to_uint n) eqn:Eu; [exfalso; now apply (to_uint_nonnil n Hn) | ..];
    unfold roundDouble; apply Z.ltb_lt in Hsmall; rewrite Hsmall;
    (replace (Z.of_nat n <=? Z.of_nat 0)%Z with false
       by (symmetry; apply Z.leb_gt; lia)); reflexivity.
Qed.

Lemma parseIntParam_digits_witness :
  parseIntParam "42" "jobId" = Returns 42%Z
  /\ parseIntParam "42abc" "jobId" = Returns 42%Z
  /\ parseIntParam (Queue.string_of_nat 42 +++ ".5") "jobId" = Returns (Z.of_nat 42).
Proof.
  split; [reflexivity|]. split; [reflexivity|].
  apply parseIntParam_digits; [lia | reflexivity | reflexivity].
Defined.

Lemma parseQueryInt_clamped (value : QueryValue) (defaultValue min max : Z) :
  (min <= defaultValue <= max)%Z ->
  (min <= parseQueryInt value defaultValue (Some min) (Some max) <= max)%Z.
Proof.
  intros Hd. unfold parseQueryInt.
  destruct value as [| |[|c s]|s]; try exact Hd;
    (destruct (parseInt _) as [|neg|parsed]; try exact Hd;
     destruct (parsed <? min)%Z eqn:E1; [lia|];
     destruct (max <? parsed)%Z eqn:E2; [lia|];
     apply Z.ltb_ge in E1, E2; lia).
Qed.

Lemma parseQueryInt_least (value : QueryValue) (defaultValue min : Z) :
  (min <= defaultValue)%Z -> (min <= parseQueryInt value defaultValue (Some min) None)%Z.
Proof.
  intros Hd. unfold parseQueryInt.
  destruct value as [| |[|c s]|s]; try exact Hd;
    (destruct (parseInt _) as [|neg|parsed]; try exact Hd;
     destruct (parsed <? min)%Z eqn:E1; [lia|]; apply Z.ltb_ge in E1; lia).
Qed.

Lemma pagination_limits (query : Query) :
  let p := parsePaginationParams query in
  (1 <= page p)%Z
  /\ (1 <= pageSize p <= 100)%Z
  /\ take p = pageSize p
  /\ (((page p - 1) * pageSize p < 2 ^ 53)%Z -> skip p = Some ((page p - 1) * pageSize p)%Z).
Proof.
  cbv zeta. unfold parsePaginationParams. cbv zeta. cbn [page pageSize skip take].
  pose proof (parseQueryInt_least (query_page query) 1 1 ltac:(lia)) as Hp.
  pose proof (parseQueryInt_clamped (query_page_size query) 20 1 100 ltac:(lia)) as Hs.
  set (pg := parseQueryInt (query_page query) 1 (Some 1%Z) None) in *.
  set (sz := parseQueryInt (query_page_size query) 20 (Some 1%Z) (Some 100%Z)) in *.
  split; [exact Hp|]. split; [exact Hs|]. split; [reflexivity|].
  intros Hsmall. unfold skipOf, roundDouble.
  assert (H1 : (pg - 1 <? 2 ^ 53)%Z = true) by (apply Z.ltb_lt; nia).
  rewrite H1. apply Z.ltb_lt in Hsmall. now rewrite Hsmall.
Qed.

(** X24.  Whatever the query holds, [parsePaginationParams] returns a
    page of at least 1, a page size from 1 to 100, [take] equal to the page
    size, and, as long as the product stays below [2^53], [skip] equal to
    the count of rows of the pages before. *)
Theorem parsePaginationParams_limits (query : Query) :
  let p := parsePaginationParams query in
  (1 <= page p)%Z
  /\ (1 <= pageSize p <= 100)%Z
  /\ take p = pageSize p
  /\ (((page p - 1) * pageSize p < 2 ^ 53)%Z -> skip p = Some ((page p - 1) * pageSize p)%Z).
Proof. exact (pagination_limits query). Qed.

(** X25.  For the page size that [parsePaginationParams] returns and a
    count of rows that is not negative, [sendPaginated] sends a number of
    pages, not [null]: the least number of pages of that size that hold all
    the rows. *)
Theorem sendPaginated_totalPages (A : Type) (data : list A) (query : Query) (totalCount : Z) :
  (0 <= totalCount)%Z ->
  let p := parsePaginationParams query in
  let sent := Responses.sendPaginated data (page p) (pageSize p) totalCount in
  Responses.http_status sent = 200
  /\ exists pages,
       Responses.totalPages (Responses.pagination (Responses.body sent)) = Some pages
       /\ ((pages - 1) * pageSize p < totalCount <= pages * pageSize p)%Z.
Proof.
  intros Hc. cbv zeta. split; [reflexivity|].
  destruct (pagination_limits query) as (_ & Hs & _).
  set (sz := pageSize (parsePaginationParams query)) in *.
  unfold Responses.sendPaginated. cbv zeta.
  cbn [Responses.body Responses.pagination Responses.totalPages].
  unfold Responses.ceilDiv.
  replace (sz =? 0)%Z with false by (symmetry; apply Z.eqb_neq; lia).
  eexists. split; [reflexivity|].
  pose proof (Z.div_mod (- totalCount) sz ltac:(lia)) as Hdm.
  pose proof (Z.mod_pos_bound (- totalCount) sz ltac:(lia)) as Hm.
  nia.
Qed.

Lemma sendPaginated_totalPages_witness :
  let query := mkQuery (QString "2") (QString "25") in
  parsePaginationParams query = mkPagination 2 25 (Some 25%Z) 25
  /\ exists pages,
       Responses.totalPages
         (Responses.pagination
            (Responses.body
               (Responses.sendPaginated (@nil nat) (page (parsePaginationParams query))
                  (pageSize (parsePaginationParams query)) 101)))
       = Some pages
       /\ ((pages - 1) * pageSize (parsePaginationParams query) < 101
           <= pages * pageSize (parsePaginationParams query))%Z.
Proof.
  cbv zeta. split; [reflexivity|].
  apply (sendPaginated_totalPages nat (@nil nat) (mkQuery (QString "2") (QString "25")) 101).
  lia.
Defined.

End ValidationTheorems.
Module KeyTheorems.

Import Queue S3Storage JsFacts.

(** ** Where a key's segment [/sources/] is *)

Lemma index_skip (needle : string) (c : ascii) (s : string) :
  prefix needle (String c s) = false ->
  index 0 needle (String c s) = option_map S (index 0 needle s).
Proof.
  intros H. cbn [index]. rewrite H. now destruct (index 0 needle s).
Qed.

Lemma prefix_other (a c : ascii) (needle s : string) :
  a <> c -> prefix (String a needle) (String c s) = false.
Proof. intros H. cbn [prefix]. destruct (ascii_dec a c); [contradiction | reflexivity]. Qed.

(** No character of the string is [c]. *)
Fixpoint without (c : ascii) (s : string) : bool :=
  match s with
  | EmptyString => true
  | String x s' => negb (Ascii.eqb x c) && without c s'
  end.

Lemma index_skip_without (a : ascii) (needle pre s : string) :
  without a pre = true ->
  index 0 (String a needle) (pre +++ s)
  = option_map (Nat.add (String.length pre)) (index 0 (String a needle) s).
Proof.
  induction pre as [|c pre IH]; intros H; cbn [String.append String.length].
  - now destruct (index 0 (String a needle) s).
  - cbn [without] in H. apply andb_prop in H. destruct H as [Hc Hpre].
    apply negb_true_iff, Ascii.eqb_neq in Hc.
    rewrite index_skip by (apply prefix_other; congruence).
    rewrite (IH Hpre). now destruct (index 0 (String a needle) s).
Qed.

Lemma prefix_append (needle rest : string) : prefix needle (needle +++ rest) = true.
Proof.
  induction needle as [|a needle IH]; cbn [String.append prefix]; [now destruct rest|].
  destruct (ascii_dec a a); [exact IH | contradiction].
Qed.

Lemma index_here (a : ascii) (needle s : string) :
  prefix (String a needle) s = true -> index 0 (String a needle) s = Some 0.
Proof.
  intros H. destruct s as [|c s]; [discriminate|]. cbn [index]. now rewrite H.
Qed.

Lemma without_append (c : ascii) (s t : string) :
  without c (s +++ t) = without c s && without c t.
Proof.
  induction s as [|x s IH]; cbn [String.append without]; [reflexivity|].
  now rewrite IH, andb_assoc.
Qed.

Lemma without_uint (c : ascii) (d : Decimal.uint) :
  Validation.digitOf c = None -> without c (NilEmpty.string_of_uint d) = true.
Proof.
  intros Hc. induction d; cbn [NilEmpty.string_of_uint without]; [reflexivity | ..];
    rewrite IHd, andb_true_r; apply negb_true_iff, Ascii.eqb_neq; intros <-; discriminate.
Qed.

Lemma without_nat (c : ascii) (n : nat) :
  Validation.digitOf c = None -> without c (string_of_nat n) = true.
Proof. intros H. now apply without_uint. Qed.

Lemma hexDigit_plain (n : nat) : hexDigit n <> "/"%char /\ hexDigit n <> "."%char.
Proof.
  do 16 (destruct n as [|n]; [split; discriminate|]). split; discriminate.
Qed.

Lemma without_hex (c : ascii) (bytes : list ascii) :
  c = "/"%char \/ c = "."%char -> without c (toHex bytes) = true.
Proof.
  intros Hc. induction bytes as [|b bytes IH]; cbn [toHex without]; [reflexivity|].
  rewrite IH, andb_true_r.
  destruct (hexDigit_plain (nat_of_ascii b / 16)) as [H1 H2].
  destruct (hexDigit_plain (nat_of_ascii b mod 16)) as [H3 H4].
  apply andb_true_intro; split; apply negb_true_iff, Ascii.eqb_neq;
    destruct Hc as [-> | ->]; assumption.
Qed.

Lemma substring_prefix (pre s : string) : substring 0 (String.length pre) (pre +++ s) = pre.
Proof.
  apply chars_inj. rewrite chars_substring, chars_append. cbn [skipn].
  rewrite <- chars_length, firstn_app, Nat.sub_diag, firstn_all. cbn [firstn].
  apply app_nil_r.
Qed.

Lemma sliceFrom_suffix (pre s : string) : Js.sliceFrom (pre +++ s) (String.length pre) = s.
Proof.
  apply chars_inj. rewrite chars_sliceFrom, chars_append, <- chars_length.
  rewrite skipn_app, Nat.sub_diag, skipn_all. reflexivity.
Qed.

(** The part of a generated key before its type, and the part after. *)
Definition keyPrefix (organisationId projectId : nat) : string :=
  "org-" +++ string_of_nat organisationId +++ "/project-" +++ string_of_nat projectId.

Definition keyFile (filename : string) (timestamp : nat) (random : list ascii) : string :=
  string_of_nat timestamp +++ "-" +++ toHex random +++ "-" +++ sanitize filename.

Lemma append_assoc (a b c : string) : (a +++ b) +++ c = a +++ b +++ c.
Proof. induction a as [|x a IH]; cbn [String.append]; [reflexivity | now rewrite IH]. Qed.

Lemma generateS3Key_parts (o p : nat) (t : KeyType) (filename : string) (ts : nat)
    (rnd : list ascii) :
  generateS3Key o p t filename ts rnd
  = keyPrefix o p +++ "/" +++ keyType_name t +++ "/" +++ keyFile filename ts rnd.
Proof.
  unfold generateS3Key, keyPrefix, keyFile. cbv zeta.
  now rewrite !append_assoc.
Qed.

Lemma indexOf_sources (o p : nat) (rest : string) :
  Js.indexOf (keyPrefix o p +++ "/sources/" +++ rest) "/sources/"
  = Some (String.length (keyPrefix o p)).
Proof.
  unfold Js.indexOf, keyPrefix. rewrite !append_assoc.
  change ("org-" +++ ?x) with (String "o" (String "r" (String "g" (String "-" x)))).
  do 4 (rewrite index_skip by reflexivity).
  rewrite index_skip_without by (now apply without_nat).
  change ("/project-" +++ ?x)
    with (String "/" (String "p" (String "r" (String "o" (String "j" (String "e"
           (String "c" (String "t" (String "-" x))))))))).
  do 9 (rewrite index_skip by reflexivity).
  rewrite index_skip_without by (now apply without_nat).
  rewrite (index_here "/"%char "sources/" ("/sources/" +++ rest))
    by apply (prefix_append "/sources/" rest). cbn [option_map]. f_equal.
  cbn [String.length]. rewrite DetectorTheorems.length_append. cbn [String.length]. lia.
Qed.

Lemma replaceSources_key (organisationId projectId : nat) (filename : string)
    (timestamp : nat) (random : list ascii) :
  replaceSources (generateS3Key organisationId projectId sources filename timestamp random)
  = generateS3Key organisationId projectId datasets filename timestamp random.
Proof.
  rewrite !generateS3Key_parts. cbn [keyType_name].
  change ("/" +++ "sources" +++ "/" +++ ?x) with ("/sources/" +++ x).
  change ("/" +++ "datasets" +++ "/" +++ ?x) with ("/datasets/" +++ x).
  unfold replaceSources. rewrite indexOf_sources.
  unfold Js.slice. rewrite Nat.sub_0_r, substring_prefix. f_equal.
  change ("/datasets/" +++ ?x) with ("/datasets/" +++ x). f_equal.
  replace (keyPrefix organisationId projectId +++ "/sources/"
           +++ keyFile filename timestamp random)
    with ((keyPrefix organisationId projectId +++ "/sources/")
          +++ keyFile filename timestamp random) by apply append_assoc.
  replace (String.length (keyPrefix organisationId projectId) + 9)
    with (String.length (keyPrefix organisationId projectId +++ "/sources/")).
  - apply sliceFrom_suffix.
  - rewrite DetectorTheorems.length_append. reflexivity.
Qed.

(** X26.  For a key that [generateS3Key] makes for a source, the output
    key of [processJob] before its extension is set, [replace('/sources/',
    '/datasets/')], is the key that [generateS3Key] makes for a dataset of
    the same organisation, project, time, random suffix and file name: the
    file name, whatever it holds, cannot move the segment. *)
Theorem replaceSources_generated (organisationId projectId : nat) (filename : string)
    (timestamp : nat) (random : list ascii) :
  replaceSources (generateS3Key organisationId projectId sources filename timestamp random)
  = generateS3Key organisationId projectId datasets filename timestamp random.
Proof. apply replaceSources_key. Qed.

(** ** The extension of the output key *)

Lemma lastDot_without (s : string) (i : nat) : without "."%char s = true -> lastDot s i = None.
Proof.
  revert i. induction s as [|c s IH]; intros i H; cbn [lastDot]; [reflexivity|].
  cbn [without] in H. apply andb_prop in H. destruct H as [Hc Hs].
  rewrite (IH (S i) Hs). apply negb_true_iff in Hc. now rewrite Hc.
Qed.

Lemma lastDot_append (a ext : string) (i : nat) :
  without "."%char ext = true -> lastDot (a +++ String "."%char ext) i = Some (i + String.length a).
Proof.
  intros He. revert i. induction a as [|c a IH]; intros i; cbn [String.append lastDot String.length].
  - rewrite (lastDot_without ext (S i) He). cbn. f_equal. lia.
  - rewrite IH. f_equal. lia.
Qed.

Lemma replaceExtension_dotted (a ext format : string) :
  without "."%char ext = true -> ext <> EmptyString ->
  replaceExtension (a +++ "." +++ ext) format = a +++ "." +++ format.
Proof.
  intros He Hne. unfold replaceExtension.
  change ("." +++ ext) with (String "."%char ext).
  rewrite (lastDot_append a ext 0 He). cbn [Nat.add].
  rewrite DetectorTheorems.length_append. cbn [String.length].
  destruct ext as [|c ext]; [now contradiction Hne|]. cbn [String.length].
  replace (S (String.length a) <? String.length a + S (S (String.length ext))) with true
    by (symmetry; apply Nat.ltb_lt; lia).
  unfold Js.slice. rewrite Nat.sub_0_r, substring_prefix. reflexivity.
Qed.

Lemma replaceExtension_plain (s format : string) :
  without "."%char s = true -> replaceExtension s format = s.
Proof. intros H. unfold replaceExtension. now rewrite (lastDot_without s 0 H). Qed.

Lemma sanitize_append (s t : string) : sanitize (s +++ t) = sanitize s +++ sanitize t.
Proof. induction s as [|c s IH]; cbn [String.append sanitize]; [reflexivity | now rewrite IH]. Qed.

Lemma sanitize_without (s : string) :
  without "."%char s = true -> without "."%char (sanitize s) = true.
Proof.
  induction s as [|c s IH]; cbn [sanitize without]; [reflexivity|].
  intros H. apply andb_prop in H. destruct H as [Hc Hs]. rewrite (IH Hs), andb_true_r.
  destruct (safeChar c); [exact Hc | reflexivity].
Qed.

Lemma sanitize_nonempty (s : string) : s <> EmptyString -> sanitize s <> EmptyString.
Proof. destruct s; [now intros H | discriminate]. Qed.

Lemma without_generated (o p : nat) (t : KeyType) (filename : string) (ts : nat)
    (rnd : list ascii) :
  without "."%char filename = true ->
  without "."%char (generateS3Key o p t filename ts rnd) = true.
Proof.
  intros H. unfold generateS3Key. cbv zeta. rewrite !without_append.
  rewrite !without_nat by reflexivity. rewrite without_hex by now right.
  rewrite (sanitize_without filename H). now destruct t.
Qed.

(** A generated key up to the file name. *)
Definition keyHead (o p : nat) (t : KeyType) (ts : nat) (rnd : list ascii) : string :=
  "org-" +++ string_of_nat o +++ "/project-" +++ string_of_nat p
  +++ "/" +++ keyType_name t +++ "/" +++ string_of_nat ts +++ "-" +++ toHex rnd +++ "-".

Lemma generateS3Key_head (o p : nat) (t : KeyType) (filename : string) (ts : nat)
    (rnd : list ascii) :
  generateS3Key o p t filename ts rnd = keyHead o p t ts rnd +++ sanitize filename.
Proof. unfold generateS3Key, keyHead. cbv zeta. now rewrite !append_assoc. Qed.

(** X27.  The output key of a source that [generateS3Key] has named: when
    the file name ends with a dot and an extension, the key is the dataset
    key of the name before that dot, then a dot and the output format;
    when the file name holds no dot, the key is the dataset key of the file
    name, and has no extension. *)
Theorem outputKey_generated (organisationId projectId timestamp : nat) (random : list ascii)
    (format : string) :
  let outputKey filename :=
    replaceExtension
      (replaceSources (generateS3Key organisationId projectId sources filename timestamp random))
      format in
  (forall base extension,
     without "."%char extension = true -> extension <> EmptyString ->
     outputKey (base +++ "." +++ extension)
     = generateS3Key organisationId projectId datasets base timestamp random
       +++ "." +++ format)
  /\ (forall filename,
        without "."%char filename = true ->
        outputKey filename
        = generateS3Key organisationId projectId datasets filename timestamp random).
Proof.
  cbv zeta. split.
  - intros base extension He Hne. rewrite replaceSources_key.
    rewrite !generateS3Key_head, !sanitize_append.
    change (sanitize ".") with ".".
    rewrite <- (append_assoc (keyHead organisationId projectId datasets timestamp random)
                  (sanitize base) ("." +++ sanitize extension)).
    apply replaceExtension_dotted; [now apply sanitize_without | now apply sanitize_nonempty].
  - intros filename H. rewrite replaceSources_key.
    apply replaceExtension_plain. now apply without_generated.
Qed.

Lemma outputKey_generated_witness :
  generateS3Key 12 3 sources "my data (1).csv" 1700 ["255"%char; "000"%char; "171"%char; "016"%char]
  = "org-12/project-3/sources/1700-ff00ab10-my_data__1_.csv"
  /\ replaceExtension
       (replaceSources
          (generateS3Key 12 3 sources ("my data (1)" +++ "." +++ "csv") 1700
             ["255"%char; "000"%char; "171"%char; "016"%char]))
       "jsonl"
     = generateS3Key 12 3 datasets "my data (1)" 1700
         ["255"%char; "000"%char; "171"%char; "016"%char] +++ "." +++ "jsonl".
Proof.
  split; [reflexivity|].
  apply (proj1 (outputKey_generated 12 3 1700
                  ["255"%char; "000"%char; "171"%char; "016"%char] "jsonl"));
    [reflexivity | discriminate].
Defined.

End KeyTheorems.
(* ===================================================================== *)
(** * The cancel handler *)
(* ===================================================================== *)

Module HandlerTheorems.

Import Queue QueueFacts RunFacts Errors JobsHandlers.

(** What the handler writes to the row. *)
Definition cancelledRow (at_ : nat) (r : JobRow) : JobRow :=
  set_completedAt (Some at_) (set_status cancelled r).

Lemma cancel_outcome (jobIdParam : string) (user : JobsController.User) (w : World) :
  let r := cancel jobIdParam user w in
  match snd r with
  | Throws _ => fst r = w
  | Returns sent =>
      Responses.http_status sent = 200
      /\ exists jobId job project,
           Validation.parseIntParam jobIdParam "jobId" = Returns (Z.of_nat jobId)
           /\ 0 < jobId
           /\ select_job jobId w = Some job
           /\ find (fun p => project_id p =? job_projectId job) (projects w) = Some project
           /\ organisationId project = JobsController.user_organisationId user
           /\ (status job = pending \/ status job = processing)
           /\ select_job jobId (fst r) = Some (cancelledRow (clock w) job)
           /\ auditLogs (fst r)
              = auditLogs w
                ++ [mkAuditLog (JobsController.user_organisationId user)
                      (JobsController.user_id user) "job.cancel" "job" jobId]
           /\ SubmissionTheorems.queueState (fst r) = SubmissionTheorems.queueState w
  end.
Proof.
  cbv zeta. unfold cancel.
  destruct (Validation.parseIntParam jobIdParam "jobId") as [parsed|e] eqn:Ep; [|reflexivity].
  cbv zeta.
  destruct (select_job (Z.to_nat parsed) w) as [job|] eqn:Ej; [|reflexivity].
  destruct (find (fun p => project_id p =? job_projectId job) (projects w)) as [project|] eqn:Epr;
    [|reflexivity].
  destruct (negb (organisationId project =? JobsController.user_organisationId user)) eqn:Eo;
    [reflexivity|].
  destruct (negb (status_eqb (status job) pending || status_eqb (status job) processing)) eqn:Es;
    [reflexivity|].
  cbn [fst snd]. split; [reflexivity|].
  assert (Hpos : (0 < parsed)%Z).
  { unfold Validation.parseIntParam in Ep.
    destruct (Validation.parseInt jobIdParam) as [|neg|z]; try discriminate.
    destruct (z <=? 0)%Z eqn:Ez; [discriminate|]. injection Ep as <-.
    now apply Z.leb_gt in Ez. }
  exists (Z.to_nat parsed), job, project.
  split; [now rewrite Z2Nat.id by lia|]. split; [lia|]. split; [exact Ej|].
  split; [exact Epr|]. split.
  { apply negb_false_iff in Eo. now apply Nat.eqb_eq in Eo. }
  split.
  { apply negb_false_iff in Es. destruct (status job); try discriminate; tauto. }
  split.
  { change (select_job (Z.to_nat parsed)
              (update_job (Z.to_nat parsed) (cancelledRow (clock w)) w)
            = Some (cancelledRow (clock w) job)).
    rewrite select_update by reflexivity. now rewrite Ej. }
  split; reflexivity.
Qed.


Lemma cancel_projects (jobIdParam : string) (user : JobsController.User) (w : World) :
  projects (fst (cancel jobIdParam user w)) = projects w.
Proof.
  unfold cancel.
  destruct (Validation.parseIntParam jobIdParam "jobId") as [parsed|e]; [|reflexivity].
  cbv zeta.
  destruct (select_job (Z.to_nat parsed) w) as [j|]; [|reflexivity].
  destruct (find (fun p => project_id p =? job_projectId j) (projects w)) as [pr|];
    [|reflexivity].
  destruct (negb (organisationId pr =? JobsController.user_organisationId user));
    [reflexivity|].
  destruct (negb (status_eqb (status j) pending || status_eqb (status j) processing));
    reflexivity.
Qed.

(** X29.  A job cancelled through the handler cannot be cancelled again:
    the second request is refused with the error of a bad request, and
    changes nothing. *)
Theorem cancel_again_refused (jobIdParam : string) (user : JobsController.User) (w : World)
    (sent : Responses.Sent (Responses.Success Message unit)) :
  snd (cancel jobIdParam user w) = Returns sent ->
  cancel jobIdParam user (fst (cancel jobIdParam user w))
  = (fst (cancel jobIdParam user w), Throws (BadRequestError "Job cannot be cancelled")).
Proof.
  intros Hfirst.
  pose proof (cancel_outcome jobIdParam user w) as H. cbv zeta in H.
  rewrite Hfirst in H.
  destruct H as (_ & jobId & job & project & Hp & _ & _ & Hpr & Ho & _ & Hrow & _ & _).
  pose proof (cancel_projects jobIdParam user w) as Hprojects.
  set (w' := fst (cancel jobIdParam user w)) in *.
  unfold cancel. rewrite Hp. cbv zeta. rewrite Nat2Z.id, Hrow, Hprojects.
  change (job_projectId (cancelledRow (clock w) job)) with (job_projectId job).
  rewrite Hpr, Ho, Nat.eqb_refl. reflexivity.
Qed.

Section Claims.
Context {host : Host} {scan : Scan}.

(** X30.  A job cancelled through the handler is not among the jobs that
    the next turn of [processQueue] claims. *)
Theorem cancelled_not_claimed (jobIdParam : string) (user : JobsController.User) (w : World)
    (sent : Responses.Sent (Responses.Success Message unit)) (jobId : nat) :
  snd (cancel jobIdParam user w) = Returns sent ->
  Validation.parseIntParam jobIdParam "jobId" = Returns (Z.of_nat jobId) ->
  forall t,
    In t (snd (fst (processQueueTurn (fst (cancel jobIdParam user w))))) ->
    SchedulerTheorems.taskJob t <> Some jobId.
Proof.
  intros Hfirst Hp t Ht Hjob.
  assert (Hrows : forall r, In r (processingJobs (fst (cancel jobIdParam user w))) ->
                            job_id r = jobId -> status r = cancelled).
  { unfold cancel in Hfirst |- *. rewrite Hp in Hfirst |- *. cbv zeta in Hfirst |- *.
    rewrite Nat2Z.id in Hfirst |- *.
    destruct (select_job jobId w) as [j|]; [|discriminate].
    destruct (find _ (projects w)) as [pr|]; [|discriminate].
    destruct (negb (organisationId pr =? _)); [discriminate|].
    destruct (negb _); [discriminate|].
    cbn [fst processingJobs with_auditLogs update_job with_processingJobs].
    intros r Hr Hid. apply in_map_iff in Hr. destruct Hr as (r0 & <- & _).
    destruct (job_id r0 =? jobId) eqn:E; [reflexivity|].
    apply Nat.eqb_neq in E. contradiction. }
  set (w' := fst (cancel jobIdParam user w)) in *.
  unfold processQueueTurn in Ht.
  destruct (availableSlots w' <=? 0); [destruct Ht|].
  destruct (selectPending (availableSlots w') w') as [|job jobs] eqn:Ep; [destruct Ht|].
  cbn [fst snd] in Ht.
  apply (in_map SchedulerTheorems.taskJob) in Ht. rewrite Hjob in Ht.
  rewrite (SchedulerTheorems.launched_jobs (job :: jobs) w' []) in Ht.
  cbn [map app] in Ht. rewrite <- (map_cons (fun j => Some (job_id j))) in Ht.
  apply in_map_iff in Ht. destruct Ht as (r & Hid & Hr). injection Hid as Hid.
  rewrite <- Ep in Hr. unfold selectPending in Hr.
  match type of Hr with In _ (firstn ?n ?l) =>
    assert (Hr' : In r l)
      by (rewrite <- (firstn_skipn n l); apply in_or_app; left; exact Hr)
  end.
  apply filter_In in Hr'. destruct Hr' as [Hin Hpend].
  apply (Permutation_in _ (scanOrder_perm _)) in Hin.
  rewrite (Hrows r Hin Hid) in Hpend. discriminate.
Qed.

End Claims.

(** The job of the scenario, pending, cancelled by a user of its
    organisation. *)
Lemma cancel_again_refused_witness :
  exists sent,
    snd (cancel "1" SubmissionTheorems.requester Scenario.world) = Returns sent
    /\ cancel "1" SubmissionTheorems.requester
         (fst (cancel "1" SubmissionTheorems.requester Scenario.world))
       = (fst (cancel "1" SubmissionTheorems.requester Scenario.world),
          Throws (BadRequestError "Job cannot be cancelled")).
Proof.
  eexists. split; [reflexivity|].
  eapply cancel_again_refused. reflexivity.
Defined.

Lemma cancelled_not_claimed_witness :
  map SchedulerTheorems.taskJob
    (snd (fst (processQueueTurn (host := Scenario.host) (scan := SchedulerTheorems.tableOrder)
                 Scenario.world))) = [Some 1]
  /\ forall t,
       In t (snd (fst (processQueueTurn (host := Scenario.host)
                         (scan := SchedulerTheorems.tableOrder)
                         (fst (cancel "1" SubmissionTheorems.requester Scenario.world))))) ->
       SchedulerTheorems.taskJob t <> Some 1.
Proof.
  split; [reflexivity|].
  eapply (cancelled_not_claimed (host := Scenario.host) (scan := SchedulerTheorems.tableOrder));
    reflexivity.
Defined.

End HandlerTheorems.
